(** * Polysat core saturation (src/math/polysat/saturation.cpp)

    A shallow embedding of [inf_saturate]: the bisection search behind the
    non-overflow premises, the shape matchers, the four inference rules,
    the propagation gate and the entry point [perform].

    Conventions.
    - z3's [rational] values that occur here are integers (ring values and
      bounds); they are modelled by [Z], and [div(a, two)] by [Z.div]
      (Euclidean and floor division agree for the positive divisor 2).
    - [SASSERT]s are debug-only and compiled out of release builds; they are
      recorded as comments next to the place they occur, and the checks
      [verify_*] they call are embedded as functions.  [VERIFY] is always
      checked and is modelled by the outcome [Abort].
    - The [while] loops of [push_omega_bisect] have no syntactic bound, so
      they are run with fuel; [Diverge] is the outcome of exhausted fuel. *)

From Stdlib Require Import ZArith List Bool Lia PeanoNat.
Import ListNotations.
Open Scope Z_scope.

(** ** Outcomes of a call *)

Inductive result (A : Type) : Type :=
| Ok (a : A)      (* the call returned [a] *)
| Diverge         (* fuel exhausted inside a loop *)
| Abort.          (* a VERIFY failed *)

Arguments Ok {A} a.
Arguments Diverge {A}.
Arguments Abort {A}.

Definition bind {A B : Type} (c : result A) (k : A -> result B) : result B :=
  match c with
  | Ok a => k a
  | Diverge => Diverge
  | Abort => Abort
  end.

Notation "x <- c ;; k" := (bind c (fun x => k))
  (at level 61, c at next level, right associativity).

(** [while (cond) body], run for at most [fuel] iterations. *)
Fixpoint while {St : Type} (fuel : nat) (cond : St -> bool) (body : St -> St)
         (st : St) : result St :=
  match fuel with
  | O => Diverge
  | S n => if cond st then while n cond body (body st) else Ok st
  end.

(** ** The bisection search of [push_omega_bisect] (lines 101-136) *)

Module Bisect.

Record brackets : Type := mk_brackets
  { x_lo : Z; x_hi : Z; y_lo : Z; y_hi : Z }.

(** [while (x_lo < x_hi || y_lo < y_hi)] *)
Definition joint_cond (b : brackets) : bool :=
  (x_lo b <? x_hi b) || (y_lo b <? y_hi b).

Definition joint_body (bound : Z) (b : brackets) : brackets :=
  let x_mid := (x_hi b + x_lo b) / 2 in
  let y_mid := (y_hi b + y_lo b) / 2 in
  if x_mid * y_mid >=? bound
  then mk_brackets (x_lo b) (x_mid - 1) (y_lo b) (y_mid - 1)
  else mk_brackets x_mid (x_hi b) y_mid (y_hi b).

(** [while (x_lo < x_hi)], [y_lo] fixed *)
Definition x_cond (b : brackets) : bool := x_lo b <? x_hi b.

Definition x_body (bound : Z) (b : brackets) : brackets :=
  let x_mid := (x_hi b + x_lo b) / 2 in
  if x_mid * y_lo b >=? bound
  then mk_brackets (x_lo b) (x_mid - 1) (y_lo b) (y_hi b)
  else mk_brackets x_mid (x_hi b) (y_lo b) (y_hi b).

(** [while (y_lo < y_hi)], [x_lo] fixed *)
Definition y_cond (b : brackets) : bool := y_lo b <? y_hi b.

Definition y_body (bound : Z) (b : brackets) : brackets :=
  let y_mid := (y_hi b + y_lo b) / 2 in
  if y_mid * x_lo b >=? bound
  then mk_brackets (x_lo b) (x_hi b) (y_lo b) (y_mid - 1)
  else mk_brackets (x_lo b) (x_hi b) y_mid (y_hi b).

(** The joint loop, from the initial brackets. *)
Definition joint (fuel : nat) (bound x_val x_max y_val y_max : Z)
  : result brackets :=
  while fuel joint_cond (joint_body bound)
        (mk_brackets x_val x_max y_val y_max).

(** The unilateral extension that follows the joint loop. *)
Definition extend (fuel : nat) (bound x_max y_max : Z) (b : brackets)
  : result brackets :=
  (* SASSERT(x_hi == x_lo && y_hi == y_lo);
     SASSERT(x_lo * y_lo < bound);
     SASSERT((x_lo + 1) * (y_lo + 1) >= bound); *)
  if (x_lo b + 1) * y_lo b <? bound then
    while fuel x_cond (x_body bound)
          (mk_brackets (x_lo b) x_max (y_lo b) (y_hi b))
  else if x_lo b * (y_lo b + 1) <? bound then
    while fuel y_cond (y_body bound)
          (mk_brackets (x_lo b) (x_hi b) (y_lo b) y_max)
  else Ok b.

(** Both phases; the result is the pair [(x_lo, y_lo)] the literals are
    built from. *)
Definition bisect (fuel : nat) (bound x_val x_max y_val y_max : Z)
  : result (Z * Z) :=
  b1 <- joint fuel bound x_val x_max y_val y_max ;;
  b2 <- extend fuel bound x_max y_max b1 ;;
  (* SASSERT(x_lo * y_lo < bound);
     SASSERT((x_lo + 1) * y_lo >= bound);
     SASSERT(x_lo * (y_lo + 1) >= bound); *)
  Ok (x_lo b2, y_lo b2).

End Bisect.

(** ** Terms

    The term facility ([pdd], its manager and their operations) is an
    external collaborator of saturation.cpp and is declared outside it.
    Section 2 of the specification asks for terms over variables and ring
    constants that are compared structurally and support degree-in-variable
    queries, factoring as [x * remainder], exact division by a constant and
    evaluation.  They are modelled here by decision-diagram polynomials: a
    node [Node v lo hi] stands for [v * hi + lo], variables are ordered by
    their index, the variable of a node is at least the variables of [hi]
    and strictly above those of [lo], [hi] is not zero and coefficients lie
    in [0, 2^w).  On such reduced terms structural equality is equality of
    polynomials. *)

Definition pvar : Type := nat.

Module Pdd.

(** Modelled from the spec: the type [pdd] of terms (section 3, Polynomial);
    a constant, or [v * hi + lo]. *)
Inductive pdd : Type :=
| Val (c : Z)
| Node (v : pvar) (lo hi : pdd).

(** Modelled from the spec: structural equality of terms, [p == q]. *)
Fixpoint eqb (p q : pdd) : bool :=
  match p, q with
  | Val a, Val b => a =? b
  | Node v l h, Node u l' h' => Nat.eqb v u && eqb l l' && eqb h h'
  | _, _ => false
  end.

(** Modelled from the spec: [p.is_val()], the term is a ring constant. *)
Definition is_val (p : pdd) : bool :=
  match p with Val _ => true | Node _ _ _ => false end.

(** Modelled from the spec: [p.is_zero()]. *)
Definition is_zero (p : pdd) : bool :=
  match p with Val c => c =? 0 | Node _ _ _ => false end.

(** Modelled from the spec: [p.val()], the constant of a constant term. *)
Definition val (p : pdd) : Z :=
  match p with Val c => c | Node _ _ _ => 0 end.

(** Modelled from the spec: [p.lo()], the part of the term without the root
    variable. *)
Definition lo (p : pdd) : pdd :=
  match p with Val _ => p | Node _ l _ => l end.

(** Modelled from the spec: [p.hi()], the cofactor of the root variable. *)
Definition hi (p : pdd) : pdd :=
  match p with Val _ => p | Node _ _ h => h end.

(** Modelled from the spec: [p.var()], the variable at the root; a constant
    sits at level 0. *)
Definition var (p : pdd) : pvar :=
  match p with Val _ => O | Node v _ _ => v end.

(** Modelled from the spec: [p.is_var()], the term is a bare variable
    ([is_variable()] of section 6). *)
Definition is_var (p : pdd) : bool :=
  match p with
  | Node _ (Val 0) (Val 1) => true
  | _ => false
  end.

(** Modelled from the spec: [p.is_unary()], the term is a single variable
    scaled by a ring constant (glossary, Unary term). *)
Definition is_unary (p : pdd) : bool :=
  negb (is_val p) && is_zero (lo p) && is_val (hi p).

(** Modelled from the spec: [pddm.mk_val(c)], the constant as a ring
    value. *)
Definition mk_val (w : nat) (c : Z) : pdd := Val (c mod 2 ^ Z.of_nat w).

(** Modelled from the spec: the term of a variable. *)
Definition mk_var (v : pvar) : pdd := Node v (Val 0) (Val 1).

(** Modelled from the spec: node construction that keeps terms reduced (no
    node with a zero cofactor). *)
Definition mk_node (v : pvar) (l h : pdd) : pdd :=
  if is_zero h then l else Node v l h.

(** Modelled from the spec: addition of terms in the ring modulo [2^w]. *)
Fixpoint add (w : nat) (p q : pdd) {struct p} : pdd :=
  let fix add_p (q : pdd) {struct q} : pdd :=
    match p, q with
    | Val a, Val b => mk_val w (a + b)
    | Val _, Node u l' h' => mk_node u (add_p l') h'
    | Node v l h, Val _ => mk_node v (add w l q) h
    | Node v l h, Node u l' h' =>
        match Nat.compare v u with
        | Eq => mk_node v (add w l l') (add w h h')
        | Gt => mk_node v (add w l q) h
        | Lt => mk_node u (add_p l') h'
        end
    end
  in add_p q.

(** Modelled from the spec: product of a term with a ring constant. *)
Fixpoint scale (w : nat) (c : Z) (p : pdd) : pdd :=
  match p with
  | Val a => mk_val w (c * a)
  | Node v l h => mk_node v (scale w c l) (scale w c h)
  end.

(** Modelled from the spec: product of a term with a variable. *)
Fixpoint mul_var (v : pvar) (p : pdd) : pdd :=
  match p with
  | Val c => if c =? 0 then Val 0 else Node v (Val 0) p
  | Node u l h =>
      if Nat.ltb v u then mk_node u (mul_var v l) (mul_var v h)
      else Node v (Val 0) p
  end.

(** Modelled from the spec: the product [p * q] of terms in the ring modulo
    [2^w]. *)
Fixpoint mul (w : nat) (p q : pdd) : pdd :=
  match p with
  | Val a => scale w a q
  | Node v l h => add w (mul_var v (mul w h q)) (mul w l q)
  end.

(** Modelled from the spec: [p.degree(v)], the degree of [p] in the variable
    [v] ([degree_in(var)] of section 6). *)
Fixpoint degree (p : pdd) (v : pvar) : nat :=
  match p with
  | Val _ => O
  | Node u l h =>
      if Nat.ltb u v then O
      else if Nat.eqb u v then S (degree h v)
      else Nat.max (degree l v) (degree h v)
  end.

(** Modelled from the spec: the decomposition behind [factor]:
    [factor_rec p v d = (lc, rest)] with [p = lc * v^d + rest]. *)
Fixpoint factor_rec (p : pdd) (v : pvar) (d : nat) {struct p} : pdd * pdd :=
  match d with
  | O => (p, Val 0)
  | S d' =>
      match p with
      | Val _ => (Val 0, p)
      | Node u l h =>
          if Nat.ltb u v then (Val 0, p)
          else if Nat.eqb u v then
            let (lc, rest) := factor_rec h v d' in (lc, mk_node u l rest)
          else
            let (lc1, rest1) := factor_rec h v d in
            let (lc0, rest0) := factor_rec l v d in
            (mk_node u lc0 lc1, mk_node u rest0 rest1)
      end
  end.

(** Modelled from the spec: [p.factor(v, d, lc)] ([factor(var, power,
    remainder)] of section 6): true iff [p = lc * v^d] with nothing left
    over; [lc] is the out-parameter. *)
Definition factor (p : pdd) (v : pvar) (d : nat) : option pdd :=
  let (lc, rest) := factor_rec p v d in
  if is_zero rest then Some lc else None.

(** Modelled from the spec: [p.try_div(c, out)] ([exact_divide] of section
    6): every coefficient of [p] is divided by [c], and the division fails
    unless each is a multiple of [c]. *)
Fixpoint try_div (p : pdd) (c : Z) : option pdd :=
  match p with
  | Val a => if a mod c =? 0 then Some (Val (a / c)) else None
  | Node v l h =>
      match try_div l c, try_div h c with
      | Some l', Some h' => Some (mk_node v l' h')
      | _, _ => None
      end
  end.

(** Modelled from the spec: the value of a term over the integers under a
    total valuation. *)
Fixpoint evalZ (rho : pvar -> Z) (p : pdd) : Z :=
  match p with
  | Val c => c
  | Node v l h => rho v * evalZ rho h + evalZ rho l
  end.

(** Modelled from the spec: the ring value of a term under a total
    valuation, in the integers modulo [2^w]. *)
Definition eval (w : nat) (rho : pvar -> Z) (p : pdd) : Z :=
  evalZ rho p mod 2 ^ Z.of_nat w.

(** Modelled from the spec: evaluation under a partial assignment
    ([evaluate(valuation) -> value | unassigned] of section 6), defined iff
    every variable of the term is assigned. *)
Fixpoint subst_val (a : pvar -> option Z) (p : pdd) : option Z :=
  match p with
  | Val c => Some c
  | Node v l h =>
      match a v, subst_val a h, subst_val a l with
      | Some x, Some eh, Some el => Some (x * eh + el)
      | _, _, _ => None
      end
  end.

End Pdd.

Import Pdd.

(** ** Constraints and literals

    Constraints, signed constraints and the [inequality] view are declared
    outside saturation.cpp.  A literal is a constraint with a polarity; an
    inequality literal is [ule p q] or its negation, and the negation of
    [ule p q] is read as the strict inequality [q < p]. *)

(** Modelled from the spec: the constraint kinds (section 3: an inequality
    or another constraint kind); [ule_c p q] is [p <= q] and [eq_c p] is
    [p == 0]. *)
Inductive constraint : Type :=
| ule_c (p q : pdd)
| eq_c (p : pdd).

(** Modelled from the spec: a literal, a constraint with its polarity. *)
Record signed_constraint : Type := mk_signed
  { get : constraint; is_positive : bool }.

(** Modelled from the spec: the negation operator [~c] of a literal. *)
Definition negate (c : signed_constraint) : signed_constraint :=
  mk_signed (get c) (negb (is_positive c)).

(** Modelled from the spec: [c->is_ule()], the literal is an inequality. *)
Definition is_ule (c : signed_constraint) : bool :=
  match get c with ule_c _ _ => true | eq_c _ => false end.

(** Modelled from the spec: the inequality [(lhs, rhs, strict)] of section
    3, with the constraint it was read from. *)
Record inequality : Type := mk_inequality
  { lhs : pdd; rhs : pdd; is_strict : bool; src : constraint }.

(** Modelled from the spec: [c1.as_inequality()], defined on inequality
    literals only; a negated [p <= q] is the strict [q < p]. *)
Definition as_inequality (c : signed_constraint) : option inequality :=
  match get c with
  | ule_c p q =>
      if is_positive c then Some (mk_inequality p q false (get c))
      else Some (mk_inequality q p true (get c))
  | eq_c _ => None
  end.

(** Modelled from the spec: [i.as_signed_constraint()], the literal an
    inequality was read from. *)
Definition as_signed_constraint (i : inequality) : signed_constraint :=
  mk_signed (src i) (negb (is_strict i)).

(** Modelled from the spec: truth of a constraint under a total valuation
    of the variables in the ring of integers modulo [2^w], in the unsigned
    order. *)
Definition constraint_holds (w : nat) (rho : pvar -> Z) (c : constraint) : bool :=
  match c with
  | ule_c p q => eval w rho p <=? eval w rho q
  | eq_c p => eval w rho p =? 0
  end.

(** Modelled from the spec: truth of a literal under a total valuation. *)
Definition holds (w : nat) (rho : pvar -> Z) (c : signed_constraint) : bool :=
  Bool.eqb (constraint_holds w rho (get c)) (is_positive c).

(** Modelled from the spec: truth of an inequality, [lhs < rhs] if strict
    and [lhs <= rhs] otherwise. *)
Definition ineq_holds (w : nat) (rho : pvar -> Z) (i : inequality) : bool :=
  if is_strict i then eval w rho (lhs i) <? eval w rho (rhs i)
  else eval w rho (lhs i) <=? eval w rho (rhs i).

(** ** The solver state read by the saturation engine *)

(** Modelled from the spec: the three boolean values of a literal on the
    trail. *)
Inductive lbool : Type := l_false | l_undef | l_true.

(** Modelled from the spec: what the engine reads of the solver [s()]: the
    bit-width of the term manager, the current partial assignment, the
    viable-range tracker, the per-variable justification sets and the
    boolean value of constraints on the trail. *)
Record solver : Type := mk_solver
  { bit_size : nat;                                (* pddm.power_of_2() *)
    assignment : pvar -> option Z;                 (* current model *)
    max_viable : pvar -> Z;                        (* m_viable.max_viable(v) *)
    m_cjust : pvar -> list signed_constraint;      (* m_cjust[v] *)
    m_bvalue : constraint -> lbool }.              (* value on the trail *)

(** The ring bound, [rational::power_of_two(bit_size)]. *)
Definition bound (s : solver) : Z := 2 ^ Z.of_nat (bit_size s).

(** Modelled from the spec: [s().var(v)], the term of the variable [v]. *)
Definition var (v : pvar) : pdd := mk_var v.

(** Modelled from the spec: [s().ule(p, q)], the literal [p <= q]. *)
Definition ule (p q : pdd) : signed_constraint := mk_signed (ule_c p q) true.

(** Modelled from the spec: [s().ult(p, q)], the literal [p < q], which is
    the negation of [q <= p]. *)
Definition ult (p q : pdd) : signed_constraint := negate (ule q p).

(** Modelled from the spec: [s().eq(p)], the literal [p == 0]. *)
Definition eq0 (p : pdd) : signed_constraint := mk_signed (eq_c p) true.

(** Modelled from the spec: [s().try_eval(p, out)], the ring value of [p]
    under the current model when all its variables are assigned. *)
Definition try_eval (s : solver) (p : pdd) : option Z :=
  match subst_val (assignment s) p with
  | Some z => Some (z mod bound s)
  | None => None
  end.

(** Modelled from the spec: [s().get_value(v)], the value of an assigned
    variable. *)
Definition get_value (s : solver) (v : pvar) : Z :=
  match assignment s v with Some a => a | None => 0 end.

(** Modelled from the spec: the value of a constraint under the current
    model, undetermined if a variable it refers to is unassigned. *)
Definition constraint_value (s : solver) (c : constraint) : option bool :=
  match c with
  | ule_c p q =>
      match try_eval s p, try_eval s q with
      | Some a, Some b => Some (a <=? b)
      | _, _ => None
      end
  | eq_c p =>
      match try_eval s p with
      | Some a => Some (a =? 0)
      | None => None
      end
  end.

(** Modelled from the spec: [c.is_currently_false(s())], the literal
    evaluates under the current model and is false. *)
Definition is_currently_false (s : solver) (c : signed_constraint) : bool :=
  match constraint_value s (get c) with
  | Some b => negb (Bool.eqb b (is_positive c))
  | None => false
  end.

(** Modelled from the spec: [c.bvalue(s())], the boolean value of the
    literal on the trail. *)
Definition bvalue (s : solver) (c : signed_constraint) : lbool :=
  match m_bvalue s (get c) with
  | l_undef => l_undef
  | l_true => if is_positive c then l_true else l_false
  | l_false => if is_positive c then l_false else l_true
  end.

(** The test [b == l_false]. *)
Definition is_l_false (b : lbool) : bool :=
  match b with l_false => true | _ => false end.

(** ** The conflict core

    [conflict_core] is declared outside saturation.cpp; the engine iterates
    its literals and requests [keep], [insert] and [set].  What a mutation
    does to the literals is the business of the core; every function below
    returns right after it has mutated the core, so no loop here iterates a
    mutated core. *)

(** Modelled from the spec: the three mutations of section 6 that the
    engine requests of a conflict core. *)
Inductive core_op : Type :=
| Keep (c : signed_constraint)
| Insert (c : signed_constraint)
| SetLit (c : signed_constraint).

(** Modelled from the spec: a conflict core, as the literals its iteration
    yields and the sequence of mutations requested of it so far. *)
Record conflict_core : Type := mk_core
  { core_lits : list signed_constraint;
    core_ops : list core_op }.

(** Modelled from the spec: a mutation request is appended to the log. *)
Definition request (op : core_op) (core : conflict_core) : conflict_core :=
  mk_core (core_lits core) (core_ops core ++ [op]).

(** Modelled from the spec: [core.keep(c)], pin a literal. *)
Definition keep (c : signed_constraint) := request (Keep c).

(** Modelled from the spec: [core.insert(c)], add a literal. *)
Definition insert (c : signed_constraint) := request (Insert c).

(** Modelled from the spec: [core.set(c)], replace the focus literal. *)
Definition set (c : signed_constraint) := request (SetLit c).

(** ** inf_saturate *)

(** [for (auto c1 : core) { if (!c1->is_ule()) continue;
                            auto c = c1.as_inequality();
                            if (body(c)) return true; }
     return false;]
    The loop of [perform] and the companion scans of the paired rules have
    this shape.  The core is threaded through the attempts. *)
Fixpoint for_each_ule (lits : list signed_constraint)
         (body : inequality -> conflict_core -> result (bool * conflict_core))
         (core : conflict_core) : result (bool * conflict_core) :=
  match lits with
  | [] => Ok (false, core)
  | c1 :: rest =>
      match as_inequality c1 with
      | None => for_each_ule rest body core
      | Some c =>
          r <- body c core ;;
          if fst r then Ok r else for_each_ule rest body (snd r)
      end
  end.

(** [if (a) return true; b] *)
Definition orelse (a b : conflict_core -> result (bool * conflict_core))
           (core : conflict_core) : result (bool * conflict_core) :=
  r <- a core ;;
  if fst r then Ok r else b (snd r).

Definition ineq (is_strict : bool) (lhs rhs : pdd) : signed_constraint :=
  if is_strict then ult lhs rhs else ule lhs rhs.

(** Propagate c (lines 60-84). *)
Definition propagate (s : solver) (core : conflict_core)
           (crit1 crit2 : inequality) (c : signed_constraint)
           (new_constraints : list signed_constraint) : bool * conflict_core :=
  let crit1_false := is_currently_false s (as_signed_constraint crit1) in
  let crit2_false := is_currently_false s (as_signed_constraint crit2) in
  if negb crit1_false && negb crit2_false then (false, core)
  else
    let is_bool_false := is_l_false (bvalue s c) in
    let is_model_false := is_currently_false s c in
    if negb is_bool_false && negb is_model_false then (false, core)
    else
      let core := keep (as_signed_constraint crit1) core in
      let core := keep (as_signed_constraint crit2) core in
      let core := if is_bool_false then insert (negate c) core
                  else set c core in
      (true, fold_left (fun core d => insert d core) new_constraints core).

(** The overload that builds the candidate from [(is_strict, lhs, rhs)]
    (lines 86-89). *)
Definition propagate_ineq (s : solver) (core : conflict_core)
           (crit1 crit2 : inequality) (is_strict : bool) (lhs rhs : pdd)
           (new_constraints : list signed_constraint) : bool * conflict_core :=
  propagate s core crit1 crit2 (ineq is_strict lhs rhs) new_constraints.

(** Add premises for Omega*(x, y) (lines 92-146). *)
Definition push_omega_bisect (fuel : nat) (s : solver)
           (new_constraints : list signed_constraint)
           (x : pdd) (x_max : Z) (y : pdd) (y_max : Z)
  : result (list signed_constraint) :=
  match try_eval s x with            (* VERIFY(s().try_eval(x, x_val)) *)
  | None => Abort
  | Some x_val =>
      match try_eval s y with        (* VERIFY(s().try_eval(y, y_val)) *)
      | None => Abort
      | Some y_val =>
          (* SASSERT(x_val * y_val < bound) *)
          lo <- Bisect.bisect fuel (bound s) x_val x_max y_val y_max ;;
          let c1 := ule x (mk_val (bit_size s) (fst lo)) in
          let c2 := ule y (mk_val (bit_size s) (snd lo)) in
          Ok (new_constraints ++ [c1; c2])
      end
  end.

(** Worst-case upper bounds for x, y, then premises (lines 150-170). *)
Definition push_omega (fuel : nat) (s : solver)
           (new_constraints : list signed_constraint) (x y : pdd)
  : result (list signed_constraint) :=
  let x_max := bound s - 1 in
  let y_max := bound s - 1 in
  let x_max := if is_var x then max_viable s (Pdd.var x) else x_max in
  let y_max := if is_var y then max_viable s (Pdd.var y) else y_max in
  if x_max * y_max >=? bound s then
    push_omega_bisect fuel s new_constraints x x_max y y_max
  else
    Ok (new_constraints ++ m_cjust s (Pdd.var y) ++ m_cjust s (Pdd.var x)).

(** Match [v] .. <= v *)
Definition is_l_v (v : pvar) (i : inequality) : bool :=
  Pdd.eqb (rhs i) (var v).

(** Match [v] v <= ... *)
Definition is_g_v (v : pvar) (i : inequality) : bool :=
  Pdd.eqb (lhs i) (var v).

(** Match xy = x * Y; the result is the out-parameter [y]. *)
Definition is_xY (x : pvar) (xy : pdd) : option pdd :=
  if Nat.eqb (degree xy x) 1 then factor xy x 1 else None.

(** Match [coeff*x] coeff*x*Y *)
Definition is_coeffxY (x p : pdd) : option pdd :=
  if is_unary x then
    match try_div p (val (hi x)) with
    | Some xy => factor xy (Pdd.var x) 1
    | None => None
    end
  else None.

(** Match [x] y <= a*x; the result is [(a, y)]. *)
Definition is_Y_l_Ax (x : pvar) (d : inequality) : option (pdd * pdd) :=
  match is_xY x (rhs d) with
  | Some a => Some (a, lhs d)
  | None => None
  end.

(** Values of x * y are non-overflowing. *)
Definition is_non_overflow (s : solver) (x y : pdd) : bool :=
  match try_eval s x with
  | None => false
  | Some x_val =>
      match try_eval s y with
      | None => false
      | Some y_val => x_val * y_val <? bound s
      end
  end.

(** Match [v] v*x <= z*x with x a variable; the result is [(x, z)]. *)
Definition is_Xy_l_XZ (v : pvar) (c : inequality) : option (pdd * pdd) :=
  match is_xY v (lhs c) with
  | None => None
  | Some x =>
      match is_coeffxY x (rhs c) with
      | Some z => Some (x, z)
      | None => None
      end
  end.

(** Match [z] yx <= zx with x a variable; the result is [(x, y)]. *)
Definition is_YX_l_zX (z : pvar) (c : inequality) : option (pdd * pdd) :=
  match is_xY z (rhs c) with
  | None => None
  | Some x =>
      match is_coeffxY x (lhs c) with
      | Some y => Some (x, y)
      | None => None
      end
  end.

(** Match [x] xY <= xZ; the result is [(y, z)]. *)
Definition is_xY_l_xZ (x : pvar) (c : inequality) : option (pdd * pdd) :=
  match is_xY x (lhs c) with
  | None => None
  | Some y =>
      match is_xY x (rhs c) with
      | Some z => Some (y, z)
      | None => None
      end
  end.

(** The check asserted by [try_y_l_ax_and_x_l_z] on its match
    (lines 202-204). *)
Definition verify_Y_l_Ax (s : solver) (x : pvar) (d : inequality)
           (a y : pdd) : bool :=
  Pdd.eqb (lhs d) y && Pdd.eqb (rhs d) (mul (bit_size s) a (var x)).

(** The check asserted by [try_ugt_y] on its match (lines 232-234). *)
Definition verify_Xy_l_XZ (s : solver) (v : pvar) (c : inequality)
           (x z : pdd) : bool :=
  Pdd.eqb (lhs c) (mul (bit_size s) (var v) x)
  && Pdd.eqb (rhs c) (mul (bit_size s) z x).

(** The check asserted by [try_ugt_z] on its match (lines 243-245). *)
Definition verify_YX_l_zX (s : solver) (z : pvar) (c : inequality)
           (x y : pdd) : bool :=
  Pdd.eqb (lhs c) (mul (bit_size s) y x)
  && Pdd.eqb (rhs c) (mul (bit_size s) (var z) x).

(** [x] zx > yx   ==>  Omega*(x,y) \/ z > y
    [x] yx <= zx  ==>  Omega*(x,y) \/ y <= z \/ x = 0   (lines 266-282) *)
Definition try_ugt_x (fuel : nat) (s : solver) (v : pvar)
           (core : conflict_core) (c : inequality)
  : result (bool * conflict_core) :=
  let x := var v in
  match is_xY_l_xZ v c with
  | None => Ok (false, core)
  | Some (y, z) =>
      if negb (is_non_overflow s x y) then Ok (false, core)
      else if negb (is_strict c) && (get_value s v =? 0) then Ok (false, core)
      else
        let new_constraints :=
          if negb (is_strict c) then [negate (eq0 x)] else [] in
        new_constraints <- push_omega fuel s new_constraints x y ;;
        Ok (propagate_ineq s core c c (is_strict c) y z new_constraints)
  end.

(** [y] z' <= y /\ zx > yx   ==>  Omega*(x,y) \/ zx > z'x
    [y] z' <= y /\ yx <= zx  ==>  Omega*(x,y) \/ z'x <= zx  (lines 286-302) *)
Definition try_ugt_y_with (fuel : nat) (s : solver) (v : pvar)
           (core : conflict_core) (le_y yx_l_zx : inequality) (x z : pdd)
  : result (bool * conflict_core) :=
  let y := var v in
  (* SASSERT(is_l_v(v, le_y)); SASSERT(verify_Xy_l_XZ(v, yx_l_zx, x, z)); *)
  if negb (is_non_overflow s x y) then Ok (false, core)
  else
    let z_prime := lhs le_y in
    let new_constraints :=
      [as_signed_constraint le_y; as_signed_constraint yx_l_zx] in
    new_constraints <- push_omega fuel s new_constraints x y ;;
    Ok (propagate_ineq s core le_y yx_l_zx
          (is_strict yx_l_zx || is_strict le_y)
          (mul (bit_size s) z_prime x) (mul (bit_size s) z x)
          new_constraints).

(** Lines 304-317. *)
Definition try_ugt_y (fuel : nat) (s : solver) (v : pvar)
           (core : conflict_core) (c : inequality)
  : result (bool * conflict_core) :=
  if negb (is_l_v v c) then Ok (false, core)
  else
    for_each_ule (core_lits core)
      (fun d core =>
         match is_Xy_l_XZ v d with
         | Some (x, z) => try_ugt_y_with fuel s v core c d x z
         | None => Ok (false, core)
         end)
      core.

(** [x] y <= ax /\ x <= z (non-overflow case)
         ==>  Omega*(a, z) \/ y <= az               (lines 337-349) *)
Definition try_y_l_ax_and_x_l_z_with (fuel : nat) (s : solver) (x : pvar)
           (core : conflict_core) (x_l_z y_l_ax : inequality) (a y : pdd)
  : result (bool * conflict_core) :=
  (* SASSERT(is_g_v(x, x_l_z)); SASSERT(verify_Y_l_Ax(x, y_l_ax, a, y)); *)
  let z := rhs x_l_z in
  if negb (is_non_overflow s a z) then Ok (false, core)
  else
    let new_constraints :=
      [as_signed_constraint x_l_z; as_signed_constraint y_l_ax] in
    new_constraints <- push_omega fuel s new_constraints a z ;;
    Ok (propagate_ineq s core x_l_z y_l_ax
          (is_strict x_l_z || is_strict y_l_ax)
          y (mul (bit_size s) a z)
          new_constraints).

(** Lines 322-335. *)
Definition try_y_l_ax_and_x_l_z (fuel : nat) (s : solver) (x : pvar)
           (core : conflict_core) (c : inequality)
  : result (bool * conflict_core) :=
  if negb (is_g_v x c) then Ok (false, core)
  else
    for_each_ule (core_lits core)
      (fun d core =>
         match is_Y_l_Ax x d with
         | Some (a, y) => try_y_l_ax_and_x_l_z_with fuel s x core c d a y
         | None => Ok (false, core)
         end)
      core.

(** [z] z <= y' /\ zx > yx   ==>  Omega*(x,y') \/ y'x > yx
    [z] z <= y' /\ yx <= zx  ==>  Omega*(x,y') \/ yx <= y'x  (lines 369-381) *)
Definition try_ugt_z_with (fuel : nat) (s : solver) (z : pvar)
           (core : conflict_core) (z_l_y yx_l_zx : inequality) (x y : pdd)
  : result (bool * conflict_core) :=
  (* SASSERT(is_g_v(z, z_l_y)); SASSERT(verify_YX_l_zX(z, yx_l_zx, x, y)); *)
  let y_prime := rhs z_l_y in
  if negb (is_non_overflow s x y_prime) then Ok (false, core)
  else
    let new_constraints :=
      [as_signed_constraint z_l_y; as_signed_constraint yx_l_zx] in
    new_constraints <- push_omega fuel s new_constraints x y_prime ;;
    Ok (propagate_ineq s core z_l_y yx_l_zx
          (is_strict z_l_y || is_strict yx_l_zx)
          (mul (bit_size s) y x) (mul (bit_size s) y_prime x)
          new_constraints).

(** Lines 354-367. *)
Definition try_ugt_z (fuel : nat) (s : solver) (z : pvar)
           (core : conflict_core) (c : inequality)
  : result (bool * conflict_core) :=
  if negb (is_g_v z c) then Ok (false, core)
  else
    for_each_ule (core_lits core)
      (fun d core =>
         match is_YX_l_zX z d with
         | Some (x, y) => try_ugt_z_with fuel s z core c d x y
         | None => Ok (false, core)
         end)
      core.

(** Lines 32-47. *)
Definition perform (fuel : nat) (s : solver) (v : pvar) (core : conflict_core)
  : result (bool * conflict_core) :=
  for_each_ule (core_lits core)
    (fun c =>
       orelse (fun core => try_ugt_x fuel s v core c)
      (orelse (fun core => try_ugt_y fuel s v core c)
      (orelse (fun core => try_ugt_z fuel s v core c)
              (fun core => try_y_l_ax_and_x_l_z fuel s v core c))))
    core.

(** ** Notions used to state the properties *)

(** The worst-case bound of section 4.2: the viable maximum of a bare
    variable, [bound - 1] for any other term. *)
Definition omega_max (s : solver) (p : pdd) : Z :=
  if is_var p then max_viable s (Pdd.var p) else bound s - 1.

(** The inequality literals of a core, in iteration order. *)
Definition inequalities_of (lits : list signed_constraint) : list inequality :=
  flat_map (fun c1 => match as_inequality c1 with
                      | Some c => [c]
                      | None => []
                      end) lits.

Definition inequalities (core : conflict_core) : list inequality :=
  inequalities_of (core_lits core).

Definition attempt : Type := conflict_core -> result (bool * conflict_core).

(** The four rules in their priority order. *)
Definition rules (fuel : nat) (s : solver) (v : pvar)
  : list (inequality -> attempt) :=
  [ (fun c core => try_ugt_x fuel s v core c);
    (fun c core => try_ugt_y fuel s v core c);
    (fun c core => try_ugt_z fuel s v core c);
    (fun c core => try_y_l_ax_and_x_l_z fuel s v core c) ].

(** Run the attempts in order and stop at the first that returns true. *)
Fixpoint first_success (attempts : list attempt) (core : conflict_core)
  : result (bool * conflict_core) :=
  match attempts with
  | [] => Ok (false, core)
  | a :: rest =>
      r <- a core ;;
      if fst r then Ok r else first_success rest (snd r)
  end.

(** The entry point as section 4.1 words it: every rule, in priority order,
    on every inequality literal of the core, until one succeeds. *)
Definition attempts_of (fuel : nat) (s : solver) (v : pvar)
           (cs : list inequality) : list attempt :=
  flat_map (fun c => map (fun rule => rule c) (rules fuel s v)) cs.

Definition perform_spec (fuel : nat) (s : solver) (v : pvar)
           (core : conflict_core) : result (bool * conflict_core) :=
  first_success (attempts_of fuel s v (inequalities core)) core.

(** An attempt that fails hands back the core it was given. *)
Definition frames (a : attempt) : Prop :=
  forall core core', a core = Ok (false, core') -> core' = core.

(** Match and guards of each rule: what is checked before the premises are
    computed. *)
Definition applies_ugt_x (s : solver) (v : pvar) (c : inequality) : bool :=
  match is_xY_l_xZ v c with
  | Some (y, _) =>
      is_non_overflow s (var v) y
      && negb (negb (is_strict c) && (get_value s v =? 0))
  | None => false
  end.

Definition applies_ugt_y (s : solver) (v : pvar) (c d : inequality) : bool :=
  is_l_v v c &&
  match is_Xy_l_XZ v d with
  | Some (x, _) => is_non_overflow s x (var v)
  | None => false
  end.

Definition applies_ugt_z (s : solver) (z : pvar) (c d : inequality) : bool :=
  is_g_v z c &&
  match is_YX_l_zX z d with
  | Some (x, _) => is_non_overflow s x (rhs c)
  | None => false
  end.

Definition applies_y_l_ax_and_x_l_z (s : solver) (x : pvar)
           (c d : inequality) : bool :=
  is_g_v x c &&
  match is_Y_l_Ax x d with
  | Some (a, _) => is_non_overflow s a (rhs c)
  | None => false
  end.

(** Some rule passes its match and guards on some inequality literal of the
    core (with a companion from the core for the paired rules). *)
Definition some_rule_applies (s : solver) (v : pvar) (core : conflict_core)
  : bool :=
  existsb
    (fun c =>
       applies_ugt_x s v c
       || existsb (fun d => applies_ugt_y s v c d
                            || applies_ugt_z s v c d
                            || applies_y_l_ax_and_x_l_z s v c d)
                  (inequalities core))
    (inequalities core).

Definition has_inequality (core : conflict_core) : bool :=
  existsb is_ule (core_lits core).

(** The two conditions of the propagation gate of section 4.5. *)
Definition some_crit_false (s : solver) (crit1 crit2 : inequality) : bool :=
  is_currently_false s (as_signed_constraint crit1)
  || is_currently_false s (as_signed_constraint crit2).

Definition candidate_false (s : solver) (c : signed_constraint) : bool :=
  is_l_false (bvalue s c) || is_currently_false s c.

(** The core after the given requests. *)
Definition after (core : conflict_core) (ops : list core_op) : conflict_core :=
  mk_core (core_lits core) (core_ops core ++ ops).

(** The requests a successful [propagate] appends to the core. *)
Definition propagate_ops (s : solver) (crit1 crit2 : inequality)
           (c : signed_constraint) (new_constraints : list signed_constraint)
  : list core_op :=
  [Keep (as_signed_constraint crit1); Keep (as_signed_constraint crit2);
   if is_l_false (bvalue s c) then Insert (negate c) else SetLit c]
  ++ map Insert new_constraints.

(** ** Concrete states at width 4 *)

Definition empty_core (lits : list signed_constraint) : conflict_core :=
  mk_core lits [].

(** Scenario A: the literal [v*2 <= v*5] with [v = 3]; the viable maximum,
    the justification sets and the trail are left open. *)
Definition vA : pvar := 0%nat.

Definition litA : signed_constraint :=
  ule (mul 4 (var vA) (Val 2)) (mul 4 (var vA) (Val 5)).

Definition coreA : conflict_core := empty_core [litA].

(** [litA] as an inequality. *)
Definition ineqA : inequality :=
  mk_inequality (mul 4 (var vA) (Val 2)) (mul 4 (var vA) (Val 5)) false
                (get litA).

Definition solverA (mv : pvar -> Z) (cj : pvar -> list signed_constraint)
           (bv : constraint -> lbool) : solver :=
  mk_solver 4 (fun u => if Nat.eqb u vA then Some 3 else None) mv cj bv.

Definition solverA7 : solver :=
  solverA (fun _ => 7) (fun _ => []) (fun _ => l_undef).

(** A state for the bisection example of the specification: two variables
    with value 3 and viable maximum 5. *)
Definition solver35 : solver :=
  mk_solver 4 (fun _ => Some 3) (fun _ => 5) (fun _ => []) (fun _ => l_undef).

(** Scenario B: the anchor [z' < v] and the companion [v*x <= z*x];
    every variable is assigned 0 and unconstrained (viable maximum 15). *)
Definition vB : pvar := 0%nat.
Definition xB : pvar := 1%nat.
Definition zpB : pvar := 2%nat.
Definition zB : pvar := 3%nat.

Definition le_yB : signed_constraint := ult (var zpB) (var vB).

Definition yx_l_zxB : signed_constraint :=
  ule (mul 4 (var vB) (var xB)) (mul 4 (var zB) (var xB)).

Definition coreB : conflict_core := empty_core [le_yB; yx_l_zxB].

Definition solverB : solver :=
  mk_solver 4 (fun _ => Some 0) (fun _ => 15) (fun _ => []) (fun _ => l_undef).

Definition ineq_le_yB : inequality :=
  mk_inequality (var zpB) (var vB) true (get le_yB).

Definition ineq_yx_l_zxB : inequality :=
  mk_inequality (mul 4 (var vB) (var xB)) (mul 4 (var zB) (var xB)) false
                (get yx_l_zxB).

(** The lemma and the omega premises [try_ugt_y] derives in scenario B. *)
Definition lemmaB : signed_constraint :=
  ult (mul 4 (var zpB) (var xB)) (mul 4 (var zB) (var xB)).

Definition omegaB : list signed_constraint :=
  [ule (var xB) (Val 5); ule (var vB) (Val 3)].

(** A valuation with [x = 0], [v = 1], [z' = 0], [z = 0]. *)
Definition rhoB (u : pvar) : Z := if Nat.eqb u vB then 1 else 0.

(** Scenario B for [try_ugt_z]: anchor [v < y'], companion [y*x <= v*x]. *)
Definition z_l_yB : signed_constraint := ult (var vB) (var zpB).

Definition yx_l_vxB : signed_constraint :=
  ule (mul 4 (var zB) (var xB)) (mul 4 (var vB) (var xB)).

Definition coreBz : conflict_core := empty_core [z_l_yB; yx_l_vxB].

Definition lemmaBz : signed_constraint :=
  ult (mul 4 (var zB) (var xB)) (mul 4 (var zpB) (var xB)).

Definition omegaBz : list signed_constraint :=
  [ule (var xB) (Val 5); ule (var zpB) (Val 3)].

Definition rhoBz (u : pvar) : Z := if Nat.eqb u zpB then 1 else 0.

(** Scenario B for [try_y_l_ax_and_x_l_z]: anchor [v < z], companion
    [y <= a*v]. *)
Definition y_l_avB : signed_constraint :=
  ule (var zB) (mul 4 (var xB) (var vB)).

Definition coreBa : conflict_core := empty_core [z_l_yB; y_l_avB].

Definition lemmaBa : signed_constraint :=
  ult (var zB) (mul 4 (var xB) (var zpB)).

(** Scenario C: the literal [v*5 <= v*2] with [v = 1], viable maximum 1,
    and the literal itself among the justifications of [v]. *)
Definition vC : pvar := 1%nat.

Definition litC : signed_constraint :=
  ule (mul 4 (var vC) (Val 5)) (mul 4 (var vC) (Val 2)).

Definition coreC : conflict_core := empty_core [litC].

Definition ineqC : inequality :=
  mk_inequality (mul 4 (var vC) (Val 5)) (mul 4 (var vC) (Val 2)) false
                (get litC).

Definition solverC : solver :=
  mk_solver 4 (fun u => if Nat.eqb u vC then Some 1 else None)
            (fun _ => 1)
            (fun u => if Nat.eqb u vC then [litC] else [])
            (fun _ => l_undef).

(** The core of scenario C after the successful try_ugt_x. *)
Definition coreC_after : conflict_core :=
  after coreC [Keep litC; Keep litC; SetLit (ule (Val 5) (Val 2));
               Insert (negate (eq0 (var vC))); Insert litC].

(** Scenario D: the non-strict anchor [z' <= v] and the companion
    [v*x <= z*x], with [v = 1], [x = 1], [z' = 1], [z = 0] and viable
    maxima 4 for v and 7 for x. *)
Definition le_yD : signed_constraint := ule (var zpB) (var vB).

Definition ineq_le_yD : inequality :=
  mk_inequality (var zpB) (var vB) false (get le_yD).

Definition coreD : conflict_core := empty_core [le_yD; yx_l_zxB].

Definition solverD : solver :=
  mk_solver 4
            (fun u => if Nat.eqb u zB then Some 0 else Some 1)
            (fun u => match u with O => 4 | 1%nat => 7 | _ => 15 end)
            (fun _ => [])
            (fun _ => l_undef).

Definition lemmaD : signed_constraint :=
  ule (mul 4 (var zpB) (var xB)) (mul 4 (var zB) (var xB)).

(** A valuation with [v = 2], [x = 3], [z' = 1], [z = 2]. *)
Definition rhoD (u : pvar) : Z :=
  match u with O => 2 | 1%nat => 3 | 2%nat => 1 | 3%nat => 2 | _ => 0 end.

(** A core whose only literal is an equation, and a core whose only
    literal is the inequality 1 <= 2 between constants. *)
Definition core_eq : conflict_core := empty_core [eq0 (var vA)].
Definition core_const : conflict_core := empty_core [ule (Val 1) (Val 2)].

(** ** Further notions used to state the properties *)

(** Brackets that stay below the given maxima. *)
Definition brackets_below (x_max y_max : Z) (b : Bisect.brackets) : Prop :=
  Bisect.x_lo b <= x_max /\ Bisect.x_hi b <= x_max /\
  Bisect.y_lo b <= y_max /\ Bisect.y_hi b <= y_max.

(** An attempt that never ends in a failed VERIFY. *)
Definition never_aborts (a : attempt) : Prop :=
  forall core, a core <> Abort.

(** A total valuation that extends a partial assignment. *)
Definition agrees (a : pvar -> option Z) (rho : pvar -> Z) : Prop :=
  forall v z, a v = Some z -> rho v = z.

(** The level of a term: 0 for a constant, one above its root variable
    otherwise. *)
Definition level (p : pdd) : nat :=
  match p with Val _ => O | Node v _ _ => S v end.

(** Reduced terms whose coefficients stay below [2^w] after a product with
    the constant [k]: the variables of [lo] are strictly below the root,
    those of [hi] at most the root, and [hi] is not zero. *)
Fixpoint reduced_by (k : Z) (w : nat) (p : pdd) : bool :=
  match p with
  | Val c => (0 <=? c) && (k * c <? 2 ^ Z.of_nat w)
  | Node v l h =>
      reduced_by k w l && reduced_by k w h && negb (is_zero h)
      && Nat.leb (level l) v && Nat.leb (level h) (S v)
  end.

(** The reduced terms of width [w]. *)
Definition reduced (w : nat) (p : pdd) : bool := reduced_by 1 w p.

(** The inequality literals of the core are all strict or all non-strict. *)
Definition uniform_strictness (core : conflict_core) : Prop :=
  forall c d, In c (inequalities core) -> In d (inequalities core) ->
              is_strict c = is_strict d.

(** ** Further concrete states at width 4 *)

(** A state in which no variable is assigned. *)
Definition solver_unassigned : solver :=
  mk_solver 4 (fun _ => None) (fun _ => 15) (fun _ => []) (fun _ => l_undef).

(** Scenario E: the non-strict anchor [v <= y'] with the companions
    [y*x <= v*x] and [y <= x*v]; [y = 2], the other variables are 1, and
    the viable maxima are 7 for x and 4 for y'. *)
Definition v_l_yE : signed_constraint := ule (var vB) (var zpB).

Definition ineq_v_l_yE : inequality :=
  mk_inequality (var vB) (var zpB) false (get v_l_yE).

Definition ineq_yx_l_vxE : inequality :=
  mk_inequality (mul 4 (var zB) (var xB)) (mul 4 (var vB) (var xB)) false
                (get yx_l_vxB).

Definition ineq_y_l_avE : inequality :=
  mk_inequality (var zB) (mul 4 (var xB) (var vB)) false (get y_l_avB).

Definition coreE : conflict_core := empty_core [v_l_yE; yx_l_vxB].
Definition coreEa : conflict_core := empty_core [v_l_yE; y_l_avB].

Definition solverE : solver :=
  mk_solver 4
            (fun u => if Nat.eqb u zB then Some 2 else Some 1)
            (fun u => match u with 1%nat => 7 | 2%nat => 4 | _ => 15 end)
            (fun _ => [])
            (fun _ => l_undef).

Definition lemmaE : signed_constraint :=
  ule (mul 4 (var zB) (var xB)) (mul 4 (var zpB) (var xB)).

Definition lemmaEa : signed_constraint :=
  ule (var zB) (mul 4 (var xB) (var zpB)).

(** A valuation with [y' = 2] and every other variable 1. *)
Definition rhoE (u : pvar) : Z := match u with 2%nat => 2 | _ => 1 end.

(** Scenario F: the literal [v*x <= v*z] with [v = 1], [x = 2], [z = 1];
    the viable maxima are 3 for v and 5 for x, justified by the literals
    [v <= 3] and [x <= 5]. *)
Definition litF : signed_constraint :=
  ule (mul 4 (var vB) (var xB)) (mul 4 (var vB) (var zB)).

Definition ineqF : inequality :=
  mk_inequality (mul 4 (var vB) (var xB)) (mul 4 (var vB) (var zB)) false
                (get litF).

Definition coreF : conflict_core := empty_core [litF].

Definition solverF : solver :=
  mk_solver 4
            (fun u => match u with 1%nat => Some 2 | _ => Some 1 end)
            (fun u => match u with O => 3 | 1%nat => 5 | _ => 15 end)
            (fun u => match u with
                      | O => [ule (var vB) (Val 3)]
                      | 1%nat => [ule (var xB) (Val 5)]
                      | _ => []
                      end)
            (fun _ => l_undef).

Definition lemmaF : signed_constraint := ule (var xB) (var zB).

Definition premisesF : list signed_constraint :=
  [negate (eq0 (var vB)); ule (var xB) (Val 5); ule (var vB) (Val 3)].

(** A valuation with [v = 1], [x = 2], [z = 3]. *)
Definition rhoF (u : pvar) : Z :=
  match u with O => 1 | 1%nat => 2 | 3%nat => 3 | _ => 0 end.

(** ** Loops that do not terminate, and the contract of the bisection *)

(** A state from which the loop [while (cond) body] runs forever because it
    reaches, by iterations whose condition holds, a state that the body
    leaves unchanged while the condition holds. *)
Inductive runs_forever {St : Type} (cond : St -> bool) (body : St -> St)
  : St -> Prop :=
| rf_stuck (st : St) :
    cond st = true -> body st = st -> runs_forever cond body st
| rf_step (st : St) :
    cond st = true -> runs_forever cond body (body st) ->
    runs_forever cond body st.

(** Preconditions of the bisection as the specification states them. *)
Definition bisect_pre (bound x_val x_max y_val y_max : Z) : Prop :=
  0 <= x_val <= x_max /\ 0 <= y_val <= y_max /\
  x_val * y_val < bound /\ bound <= x_max * y_max.

(** Postconditions of the bisection as the specification (and the final
    SASSERTs) state them. *)
Definition bisect_post (bound x_val x_max y_val y_max : Z) (r : Z * Z) : Prop :=
  x_val <= fst r <= x_max /\ y_val <= snd r <= y_max /\
  fst r * snd r < bound /\
  (fst r + 1) * snd r >= bound /\
  fst r * (snd r + 1) >= bound.

(** Brackets of non-negative numbers whose lower corner does not overflow:
    the invariant that the loops do maintain. *)
Definition brackets_ok (bound : Z) (b : Bisect.brackets) : Prop :=
  0 <= Bisect.x_lo b /\ 0 <= Bisect.x_hi b /\
  0 <= Bisect.y_lo b /\ 0 <= Bisect.y_hi b /\
  Bisect.x_lo b * Bisect.y_lo b < bound.

(** Two integers that denote the same ring value at width [w]. *)
Definition same_value (w : nat) (a b : Z) : Prop :=
  a mod 2 ^ Z.of_nat w = b mod 2 ^ Z.of_nat w.

(** * Properties *)

(** ** Loops *)

Lemma while_runs_forever {St : Type} (cond : St -> bool) (body : St -> St)
      (st : St) :
  runs_forever cond body st -> forall fuel, while fuel cond body st = Diverge.
Proof.
  induction 1 as [st Hc Hb | st Hc Hrf IH]; intros fuel.
  - induction fuel as [| n IHn]; simpl; [reflexivity |].
    rewrite Hc, Hb. exact IHn.
  - destruct fuel as [| n]; simpl; [reflexivity |].
    rewrite Hc. apply IH.
Qed.

(** Invariants carry through a loop that returns, and its condition is
    false on return. *)
Lemma while_invariant {St : Type} (Inv : St -> Prop) (cond : St -> bool)
      (body : St -> St) :
  (forall st, Inv st -> cond st = true -> Inv (body st)) ->
  forall fuel st st',
    Inv st -> while fuel cond body st = Ok st' ->
    Inv st' /\ cond st' = false.
Proof.
  intros Hstep fuel.
  induction fuel as [| n IH]; intros st st' Hinv Hrun; simpl in Hrun.
  - discriminate.
  - destruct (cond st) eqn:Hc.
    + apply (IH (body st)); auto.
    + injection Hrun as <-. split; assumption.
Qed.

(** More fuel does not change a result. *)
Lemma while_fuel_mono {St : Type} (cond : St -> bool) (body : St -> St) :
  forall fuel st st',
    while fuel cond body st = Ok st' ->
    forall fuel', (fuel <= fuel')%nat -> while fuel' cond body st = Ok st'.
Proof.
  induction fuel as [| n IH]; intros st st' Hrun fuel' Hle; simpl in Hrun.
  - discriminate.
  - destruct fuel' as [| m]; [lia |]. simpl.
    destruct (cond st); [| assumption].
    apply (IH _ _ Hrun). lia.
Qed.

(** ** Bisection *)

Section BisectInvariant.

Variable bound : Z.
Hypothesis bound_pos : 0 < bound.

Lemma div2_nonneg (a b : Z) : 0 <= a -> 0 <= b -> 0 <= (a + b) / 2.
Proof. intros. apply Z.div_pos; lia. Qed.

Lemma joint_body_ok (b : Bisect.brackets) :
  brackets_ok bound b -> brackets_ok bound (Bisect.joint_body bound b).
Proof.
  unfold brackets_ok, Bisect.joint_body.
  intros (Hxl & Hxh & Hyl & Hyh & Hprod).
  pose proof (div2_nonneg _ _ Hxh Hxl) as Hx.
  pose proof (div2_nonneg _ _ Hyh Hyl) as Hy.
  destruct (Z.geb_spec ((Bisect.x_hi b + Bisect.x_lo b) / 2 *
                        ((Bisect.y_hi b + Bisect.y_lo b) / 2)) bound)
    as [Hge | Hlt]; simpl.
  - repeat split; try assumption; nia.
  - repeat split; try assumption; lia.
Qed.

Lemma x_body_ok (b : Bisect.brackets) :
  brackets_ok bound b -> brackets_ok bound (Bisect.x_body bound b).
Proof.
  unfold brackets_ok, Bisect.x_body.
  intros (Hxl & Hxh & Hyl & Hyh & Hprod).
  pose proof (div2_nonneg _ _ Hxh Hxl) as Hx.
  destruct (Z.geb_spec ((Bisect.x_hi b + Bisect.x_lo b) / 2 * Bisect.y_lo b)
                       bound) as [Hge | Hlt]; simpl.
  - repeat split; try assumption; nia.
  - repeat split; try assumption; lia.
Qed.

Lemma y_body_ok (b : Bisect.brackets) :
  brackets_ok bound b -> brackets_ok bound (Bisect.y_body bound b).
Proof.
  unfold brackets_ok, Bisect.y_body.
  intros (Hxl & Hxh & Hyl & Hyh & Hprod).
  pose proof (div2_nonneg _ _ Hyh Hyl) as Hy.
  destruct (Z.geb_spec ((Bisect.y_hi b + Bisect.y_lo b) / 2 * Bisect.x_lo b)
                       bound) as [Hge | Hlt]; simpl.
  - repeat split; try assumption; nia.
  - repeat split; try assumption; lia.
Qed.

(** What does hold whenever the bisection returns: the corner it returns
    is non-negative and its product is below the bound. *)
Lemma bisect_no_overflow (fuel : nat) (x_val x_max y_val y_max a b : Z) :
  0 <= x_val -> 0 <= x_max -> 0 <= y_val -> 0 <= y_max ->
  x_val * y_val < bound ->
  Bisect.bisect fuel bound x_val x_max y_val y_max = Ok (a, b) ->
  0 <= a /\ 0 <= b /\ a * b < bound.
Proof.
  intros Hxv Hxm Hyv Hym Hprod Hrun.
  unfold Bisect.bisect, Bisect.joint in Hrun.
  destruct (while fuel Bisect.joint_cond (Bisect.joint_body bound) _)
    as [b1 | |] eqn:Hjoint; simpl in Hrun; try discriminate.
  apply (while_invariant (brackets_ok bound)) in Hjoint;
    [| intros; apply joint_body_ok; assumption
     | unfold brackets_ok; simpl; lia ].
  destruct Hjoint as [Hok1 _].
  destruct (Bisect.extend fuel bound x_max y_max b1) as [b2 | |] eqn:Hext;
    simpl in Hrun; try discriminate.
  injection Hrun as <- <-.
  assert (Hok2 : brackets_ok bound b2).
  { unfold Bisect.extend in Hext.
    destruct Hok1 as (H1 & H2 & H3 & H4 & H5).
    destruct ((Bisect.x_lo b1 + 1) * Bisect.y_lo b1 <? bound).
    - apply (while_invariant (brackets_ok bound)) in Hext;
        [ tauto | intros; apply x_body_ok; assumption
        | unfold brackets_ok; simpl; lia ].
    - destruct (Bisect.x_lo b1 * (Bisect.y_lo b1 + 1) <? bound).
      + apply (while_invariant (brackets_ok bound)) in Hext;
          [ tauto | intros; apply y_body_ok; assumption
          | unfold brackets_ok; simpl; lia ].
      + injection Hext as <-. unfold brackets_ok; lia. }
  unfold brackets_ok in Hok2. lia.
Qed.

End BisectInvariant.

Lemma while_deterministic {St : Type} (cond : St -> bool) (body : St -> St)
      (fuel fuel' : nat) (st a b : St) :
  while fuel cond body st = Ok a -> while fuel' cond body st = Ok b -> a = b.
Proof.
  intros Ha Hb.
  apply while_fuel_mono with (fuel' := Nat.max fuel fuel') in Ha; [| lia].
  apply while_fuel_mono with (fuel' := Nat.max fuel fuel') in Hb; [| lia].
  congruence.
Qed.

Lemma while_not_abort {St : Type} (cond : St -> bool) (body : St -> St)
      (fuel : nat) (st : St) :
  while fuel cond body st <> Abort.
Proof.
  revert st. induction fuel as [| n IH]; intros st; simpl.
  - discriminate.
  - destruct (cond st); [apply IH | discriminate].
Qed.

(** The extension loop on x, entered at [x_lo = 4], [x_hi = 5], [y_lo = 3]
    with bound 16: the midpoint is 4 again and [x_lo = x_mid] changes
    nothing. *)
Lemma x_loop_stuck_4_5 :
  runs_forever Bisect.x_cond (Bisect.x_body 16) (Bisect.mk_brackets 4 5 3 3).
Proof. apply rf_stuck; reflexivity. Qed.

Lemma extension_diverges_3_5 (fuel : nat) :
  Bisect.extend fuel 16 5 5 (Bisect.mk_brackets 3 3 3 3) = Diverge.
Proof.
  unfold Bisect.extend. simpl.
  apply while_runs_forever.
  apply rf_step; [reflexivity |].
  exact x_loop_stuck_4_5.
Qed.

Lemma joint_3_5 (fuel : nat) (b : Bisect.brackets) :
  Bisect.joint fuel 16 3 5 3 5 = Ok b -> b = Bisect.mk_brackets 3 3 3 3.
Proof.
  intros Hrun. unfold Bisect.joint in Hrun.
  symmetry.
  refine (while_deterministic _ _ 2 fuel _ _ _ _ Hrun).
  reflexivity.
Qed.

Lemma bisect_3_5_diverges (fuel : nat) :
  Bisect.bisect fuel 16 3 5 3 5 = Diverge.
Proof.
  unfold Bisect.bisect.
  destruct (Bisect.joint fuel 16 3 5 3 5) as [b1 | |] eqn:Hjoint; simpl.
  - apply joint_3_5 in Hjoint. subst b1.
    rewrite extension_diverges_3_5. reflexivity.
  - reflexivity.
  - exfalso. exact (while_not_abort _ _ _ _ Hjoint).
Qed.

(** C2 (push_omega_bisect, lines 92-146).  The bisection does not meet its
    postconditions.  (1) On the example of the specification, bound 16 with
    values 3, 3 and maxima 5, 5, the preconditions hold and no amount of
    fuel makes the search return: after the joint loop has collapsed to
    (3, 3) the extension loop on x reaches the brackets [4, 5], whose
    midpoint is 4, and stays there; so [push_omega_bisect] and [push_omega]
    do not return in a state with these values and maxima.  (2) With values
    3, 5 and maxima 3, 15 it returns (2, 7): the returned x_lo is below the
    current value of x.  (3) With values 4, 3 and maxima 4, 5 it returns
    (4, 3), and (x_lo + 1) * y_lo = 15 is below the bound although the final
    SASSERT demands otherwise. *)
Theorem bisect_breaks_postconditions :
  (bisect_pre 16 3 5 3 5 /\
   (forall fuel, Bisect.bisect fuel 16 3 5 3 5 = Diverge) /\
   (forall fuel ncs,
       push_omega_bisect fuel solver35 ncs (var 0%nat) 5 (var 1%nat) 5
       = Diverge) /\
   (forall fuel ncs,
       push_omega fuel solver35 ncs (var 0%nat) (var 1%nat) = Diverge)) /\
  (bisect_pre 16 3 3 5 15 /\
   Bisect.bisect 10 16 3 3 5 15 = Ok (2, 7) /\
   ~ bisect_post 16 3 3 5 15 (2, 7)) /\
  (bisect_pre 16 4 4 3 5 /\
   Bisect.bisect 10 16 4 4 3 5 = Ok (4, 3) /\
   ~ bisect_post 16 4 4 3 5 (4, 3)).
Proof.
  assert (Hb : forall fuel ncs,
             push_omega_bisect fuel solver35 ncs (var 0%nat) 5 (var 1%nat) 5
             = Diverge).
  { intros fuel ncs. unfold push_omega_bisect.
    change (try_eval solver35 (var 0%nat)) with (Some 3).
    change (try_eval solver35 (var 1%nat)) with (Some 3).
    change (bound solver35) with 16. cbv beta iota.
    rewrite bisect_3_5_diverges. reflexivity. }
  split; [| split].
  - split; [unfold bisect_pre; lia |].
    split; [exact bisect_3_5_diverges |].
    split; [exact Hb |].
    intros fuel ncs. exact (Hb fuel ncs).
  - split; [unfold bisect_pre; lia |].
    split; [reflexivity |].
    unfold bisect_post; simpl. lia.
  - split; [unfold bisect_pre; lia |].
    split; [reflexivity |].
    unfold bisect_post; simpl. lia.
Qed.

(** The joint loop at bound 16 from the brackets [1, 2] x [1, 15]: the lower
    corner climbs to (1, 14) and stays there, since both midpoints are the
    lower ends again. *)
Lemma joint_loop_stuck_1_2 :
  runs_forever Bisect.joint_cond (Bisect.joint_body 16)
               (Bisect.mk_brackets 1 2 1 15).
Proof.
  do 4 (apply rf_step; [reflexivity |]; cbn).
  apply rf_stuck; reflexivity.
Qed.

(** C3 (push_omega_bisect, lines 103-133).  Neither loop of the bisection
    terminates on every input that meets the preconditions.  With bound 16,
    values 1, 1 and maxima 2, 15 the joint loop runs forever.  With values
    3, 3 and maxima 5, 5 the joint loop returns the collapsed brackets
    (3, 3) and the extension loop that follows runs forever.  With values
    4, 3 and maxima 4, 5 the joint loop returns with x_hi = 3 below
    x_lo = 4, so the brackets have not collapsed to a point. *)
Theorem bisection_loops_diverge :
  (bisect_pre 16 1 2 1 15 /\
   forall fuel, Bisect.joint fuel 16 1 2 1 15 = Diverge) /\
  (bisect_pre 16 3 5 3 5 /\
   Bisect.joint 2 16 3 5 3 5 = Ok (Bisect.mk_brackets 3 3 3 3) /\
   forall fuel,
     Bisect.extend fuel 16 5 5 (Bisect.mk_brackets 3 3 3 3) = Diverge) /\
  (bisect_pre 16 4 4 3 5 /\
   Bisect.joint 2 16 4 4 3 5 = Ok (Bisect.mk_brackets 4 3 3 3)).
Proof.
  repeat split; try (unfold bisect_pre; simpl; lia); try reflexivity.
  - intros fuel. unfold Bisect.joint.
    apply while_runs_forever. exact joint_loop_stuck_1_2.
  - exact extension_diverges_3_5.
Qed.

(** ** The propagation gate *)

Lemma after_nil (core : conflict_core) : after core [] = core.
Proof. destruct core; unfold after; simpl. now rewrite app_nil_r. Qed.

Lemma after_after (core : conflict_core) (ops ops' : list core_op) :
  after (after core ops) ops' = after core (ops ++ ops').
Proof. unfold after; simpl. now rewrite app_assoc. Qed.

Lemma request_after (op : core_op) (core : conflict_core) :
  request op core = after core [op].
Proof. reflexivity. Qed.

Lemma insert_all_after (ncs : list signed_constraint) (core : conflict_core) :
  fold_left (fun core d => insert d core) ncs core
  = after core (map Insert ncs).
Proof.
  revert core. induction ncs as [| d ncs IH]; intros core; simpl.
  - symmetry. apply after_nil.
  - rewrite IH. unfold insert. rewrite request_after, after_after.
    reflexivity.
Qed.

(** [propagate] in one equation: the gate decides, and an open gate appends
    the requests of [propagate_ops]. *)
Lemma propagate_eq (s : solver) (core : conflict_core)
      (crit1 crit2 : inequality) (c : signed_constraint)
      (ncs : list signed_constraint) :
  propagate s core crit1 crit2 c ncs
  = if some_crit_false s crit1 crit2 && candidate_false s c
    then (true, after core (propagate_ops s crit1 crit2 c ncs))
    else (false, core).
Proof.
  unfold propagate, some_crit_false, candidate_false, propagate_ops.
  destruct (is_currently_false s (as_signed_constraint crit1));
    destruct (is_currently_false s (as_signed_constraint crit2));
    simpl; try reflexivity;
    destruct (is_l_false (bvalue s c)); simpl;
    try (destruct (is_currently_false s c); simpl); try reflexivity;
    rewrite insert_all_after; unfold keep, insert, set;
    rewrite !request_after, !after_after; reflexivity.
Qed.

Lemma propagate_false_frame (s : solver) (core core' : conflict_core)
      (crit1 crit2 : inequality) (c : signed_constraint)
      (ncs : list signed_constraint) :
  propagate s core crit1 crit2 c ncs = (false, core') -> core' = core.
Proof.
  rewrite propagate_eq.
  destruct (some_crit_false s crit1 crit2 && candidate_false s c);
    congruence.
Qed.

(** C4 (propagate, lines 60-68).  When neither critical premise is
    currently false under the model, or when the candidate is neither false
    on the trail nor currently false under the model, [propagate] returns
    false and the core it returns is the core it was given: no keep, insert
    or set has been requested. *)
Theorem propagate_gate_atomic (s : solver) (core : conflict_core)
        (crit1 crit2 : inequality) (c : signed_constraint)
        (ncs : list signed_constraint) :
  (is_currently_false s (as_signed_constraint crit1) = false /\
   is_currently_false s (as_signed_constraint crit2) = false) \/
  (bvalue s c <> l_false /\ is_currently_false s c = false) ->
  propagate s core crit1 crit2 c ncs = (false, core).
Proof.
  intros Hgate. rewrite propagate_eq.
  unfold some_crit_false, candidate_false.
  destruct Hgate as [[H1 H2] | [Hb Hm]].
  - rewrite H1, H2. reflexivity.
  - rewrite Hm. destruct (bvalue s c); try contradiction;
      simpl; now rewrite andb_false_r.
Qed.

(** C6 (propagate, lines 60-84).  When [propagate] returns true, the
    requests it has appended to the core are, in this order: keep crit1,
    keep crit2, then insert ~c if c is false on the trail and set c
    otherwise (in which case c is currently false under the model), then
    one insert for every literal of the side-condition set, in the order of
    the set.  Nothing else about the core has changed. *)
Theorem propagate_success_order (s : solver) (core core' : conflict_core)
        (crit1 crit2 : inequality) (c : signed_constraint)
        (ncs : list signed_constraint) :
  propagate s core crit1 crit2 c ncs = (true, core') ->
  core_lits core' = core_lits core /\
  core_ops core'
  = core_ops core
    ++ [Keep (as_signed_constraint crit1); Keep (as_signed_constraint crit2)]
    ++ [if is_l_false (bvalue s c) then Insert (negate c) else SetLit c]
    ++ map Insert ncs /\
  (is_l_false (bvalue s c) = false -> is_currently_false s c = true).
Proof.
  rewrite propagate_eq.
  destruct (some_crit_false s crit1 crit2 && candidate_false s c) eqn:Hg;
    [| discriminate].
  intros [= <-]. repeat split.
  apply andb_prop in Hg. destruct Hg as [_ Hc].
  unfold candidate_false in Hc. intros Hb. rewrite Hb in Hc. exact Hc.
Qed.

(** ** Failed attempts leave the core alone *)

Lemma orelse_frames (a b : attempt) :
  frames a -> frames b -> frames (orelse a b).
Proof.
  intros Ha Hb core core' Hrun. unfold orelse in Hrun.
  destruct (a core) as [[ok core1] | |] eqn:Hacore; simpl in Hrun;
    try discriminate.
  destruct ok; simpl in Hrun; [discriminate |].
  apply Ha in Hacore. subst core1. apply Hb. exact Hrun.
Qed.

Lemma for_each_ule_frames (lits : list signed_constraint)
      (body : inequality -> attempt) :
  (forall c, frames (body c)) -> frames (for_each_ule lits body).
Proof.
  intros Hbody. induction lits as [| c1 rest IH]; intros core core' Hrun;
    simpl in Hrun.
  - congruence.
  - destruct (as_inequality c1) as [c |]; [| apply IH; exact Hrun].
    destruct (body c core) as [[ok core1] | |] eqn:Hb; simpl in Hrun;
      try discriminate.
    destruct ok; simpl in Hrun; [discriminate |].
    apply Hbody in Hb. subst core1. apply IH. exact Hrun.
Qed.

Lemma propagate_ineq_frames (s : solver) (core core' : conflict_core)
      (crit1 crit2 : inequality) (strict : bool) (p q : pdd)
      (omega : result (list signed_constraint)) :
  (ncs <- omega ;; Ok (propagate_ineq s core crit1 crit2 strict p q ncs))
  = Ok (false, core') ->
  core' = core.
Proof.
  destruct omega as [ncs | |]; simpl; try discriminate.
  intros [= Hrun]. unfold propagate_ineq in Hrun.
  eapply propagate_false_frame. exact Hrun.
Qed.

Lemma try_ugt_x_frames (fuel : nat) (s : solver) (v : pvar) (c : inequality) :
  frames (fun core => try_ugt_x fuel s v core c).
Proof.
  intros core core'. unfold try_ugt_x.
  destruct (is_xY_l_xZ v c) as [[y z] |]; [| congruence].
  destruct (negb (is_non_overflow s (var v) y)); [congruence |].
  destruct (negb (is_strict c) && (get_value s v =? 0)); [congruence |].
  apply propagate_ineq_frames.
Qed.

Lemma try_ugt_y_with_frames (fuel : nat) (s : solver) (v : pvar)
      (le_y d : inequality) (x z : pdd) :
  frames (fun core => try_ugt_y_with fuel s v core le_y d x z).
Proof.
  intros core core'. unfold try_ugt_y_with.
  destruct (negb (is_non_overflow s x (var v))); [congruence |].
  apply propagate_ineq_frames.
Qed.

Lemma try_ugt_z_with_frames (fuel : nat) (s : solver) (z : pvar)
      (z_l_y d : inequality) (x y : pdd) :
  frames (fun core => try_ugt_z_with fuel s z core z_l_y d x y).
Proof.
  intros core core'. unfold try_ugt_z_with.
  destruct (negb (is_non_overflow s x (rhs z_l_y))); [congruence |].
  apply propagate_ineq_frames.
Qed.

Lemma try_y_l_ax_and_x_l_z_with_frames (fuel : nat) (s : solver) (x : pvar)
      (x_l_z d : inequality) (a y : pdd) :
  frames (fun core => try_y_l_ax_and_x_l_z_with fuel s x core x_l_z d a y).
Proof.
  intros core core'. unfold try_y_l_ax_and_x_l_z_with.
  destruct (negb (is_non_overflow s a (rhs x_l_z))); [congruence |].
  apply propagate_ineq_frames.
Qed.

Lemma try_ugt_y_frames (fuel : nat) (s : solver) (v : pvar) (c : inequality) :
  frames (fun core => try_ugt_y fuel s v core c).
Proof.
  intros core core'. unfold try_ugt_y.
  destruct (negb (is_l_v v c)); [congruence |].
  apply for_each_ule_frames. intros d core1 core2.
  destruct (is_Xy_l_XZ v d) as [[x z] |]; [| congruence].
  apply try_ugt_y_with_frames.
Qed.

Lemma try_ugt_z_frames (fuel : nat) (s : solver) (v : pvar) (c : inequality) :
  frames (fun core => try_ugt_z fuel s v core c).
Proof.
  intros core core'. unfold try_ugt_z.
  destruct (negb (is_g_v v c)); [congruence |].
  apply for_each_ule_frames. intros d core1 core2.
  destruct (is_YX_l_zX v d) as [[x y] |]; [| congruence].
  apply try_ugt_z_with_frames.
Qed.

Lemma try_y_l_ax_and_x_l_z_frames (fuel : nat) (s : solver) (v : pvar)
      (c : inequality) :
  frames (fun core => try_y_l_ax_and_x_l_z fuel s v core c).
Proof.
  intros core core'. unfold try_y_l_ax_and_x_l_z.
  destruct (negb (is_g_v v c)); [congruence |].
  apply for_each_ule_frames. intros d core1 core2.
  destruct (is_Y_l_Ax v d) as [[a y] |]; [| congruence].
  apply try_y_l_ax_and_x_l_z_with_frames.
Qed.

Lemma rules_frame (fuel : nat) (s : solver) (v : pvar) (c : inequality) :
  Forall frames (map (fun rule => rule c) (rules fuel s v)).
Proof.
  simpl. repeat constructor.
  - apply try_ugt_x_frames.
  - apply try_ugt_y_frames.
  - apply try_ugt_z_frames.
  - apply try_y_l_ax_and_x_l_z_frames.
Qed.

Lemma attempts_frame (fuel : nat) (s : solver) (v : pvar)
      (cs : list inequality) :
  Forall frames (attempts_of fuel s v cs).
Proof.
  unfold attempts_of. induction cs as [| c cs IH]; cbn [flat_map].
  - constructor.
  - apply Forall_app. split; [apply rules_frame | exact IH].
Qed.

(** A call of [perform] that returns false returns the core it was given. *)
Lemma perform_frames (fuel : nat) (s : solver) (v : pvar) :
  frames (perform fuel s v).
Proof.
  intros core core'. unfold perform.
  apply for_each_ule_frames. intros c.
  repeat apply orelse_frames.
  - apply try_ugt_x_frames.
  - apply try_ugt_y_frames.
  - apply try_ugt_z_frames.
  - apply try_y_l_ax_and_x_l_z_frames.
Qed.

(** ** The entry point *)

Lemma as_inequality_is_ule (c : signed_constraint) :
  is_ule c = true <-> exists i, as_inequality c = Some i.
Proof.
  unfold is_ule, as_inequality.
  destruct (get c) as [p q | p].
  - split; [intros _ | reflexivity].
    destruct (is_positive c); eexists; reflexivity.
  - split; [discriminate | intros [i Hi]; discriminate].
Qed.

Lemma orelse_ext (a a' b b' : attempt) (core : conflict_core) :
  a core = a' core -> (forall core1, b core1 = b' core1) ->
  orelse a b core = orelse a' b' core.
Proof.
  intros Ha Hb. unfold orelse. rewrite Ha.
  destruct (a' core) as [[ok core1] | |]; simpl; try reflexivity.
  destruct ok; [reflexivity | apply Hb].
Qed.

Lemma first_success_cons (a : attempt) (rest : list attempt)
      (core : conflict_core) :
  first_success (a :: rest) core = orelse a (first_success rest) core.
Proof. reflexivity. Qed.

Lemma orelse_last (a : attempt) (core : conflict_core) :
  orelse a (first_success []) core = a core.
Proof.
  unfold orelse. destruct (a core) as [[ok core1] | |]; simpl; try reflexivity.
  destruct ok; reflexivity.
Qed.

Lemma orelse_assoc (a b c : attempt) (core : conflict_core) :
  orelse (orelse a b) c core = orelse a (orelse b c) core.
Proof.
  unfold orelse. destruct (a core) as [[ok core1] | |]; simpl; try reflexivity.
  destruct ok; reflexivity.
Qed.

Lemma first_success_app (l1 l2 : list attempt) (core : conflict_core) :
  first_success (l1 ++ l2) core
  = orelse (first_success l1) (first_success l2) core.
Proof.
  revert core. induction l1 as [| a l1 IH]; intros core.
  - reflexivity.
  - simpl app. rewrite first_success_cons.
    change (first_success (a :: l1)) with (orelse a (first_success l1)).
    rewrite orelse_assoc.
    apply orelse_ext; [reflexivity | exact IH].
Qed.

Lemma for_each_ule_first_success (lits : list signed_constraint)
      (body : inequality -> attempt) (core : conflict_core) :
  for_each_ule lits body core
  = first_success (map body (inequalities_of lits)) core.
Proof.
  revert core. induction lits as [| c1 rest IH]; intros core; simpl.
  - reflexivity.
  - destruct (as_inequality c1) as [c |]; simpl.
    + unfold bind. destruct (body c core) as [[ok core1] | |]; simpl;
        try reflexivity.
      destruct ok; [reflexivity | apply IH].
    + apply IH.
Qed.

Lemma perform_eq_spec (fuel : nat) (s : solver) (v : pvar)
      (core : conflict_core) :
  perform fuel s v core = perform_spec fuel s v core.
Proof.
  unfold perform, perform_spec, inequalities.
  rewrite for_each_ule_first_success.
  generalize (inequalities_of (core_lits core)) as cs.
  intros cs. revert core.
  induction cs as [| c cs IH]; intros core.
  - reflexivity.
  - unfold attempts_of. cbn [map flat_map].
    rewrite first_success_cons, first_success_app.
    apply orelse_ext; [| exact IH].
    cbn [rules map].
    do 3 (rewrite first_success_cons; apply orelse_ext;
          [reflexivity | intros ?]).
    rewrite first_success_cons, orelse_last. reflexivity.
Qed.

Lemma first_success_false (attempts : list attempt) :
  Forall frames attempts ->
  forall core core',
    first_success attempts core = Ok (false, core') ->
    core' = core /\ Forall (fun a => a core = Ok (false, core)) attempts.
Proof.
  induction 1 as [| a rest Ha Hrest IH]; intros core core' Hrun;
    simpl in Hrun.
  - injection Hrun as <-. split; constructor.
  - destruct (a core) as [[ok core1] | |] eqn:Hacore; simpl in Hrun;
      try discriminate.
    destruct ok; simpl in Hrun; [discriminate |].
    pose proof (Ha _ _ Hacore) as ->.
    destruct (IH _ _ Hrun) as [-> Hall].
    split; [reflexivity | constructor; assumption].
Qed.

Lemma first_success_true (attempts : list attempt) :
  Forall frames attempts ->
  forall core core',
    first_success attempts core = Ok (true, core') ->
    exists pre a post,
      attempts = pre ++ a :: post /\
      Forall (fun a => a core = Ok (false, core)) pre /\
      a core = Ok (true, core').
Proof.
  induction 1 as [| a rest Ha Hrest IH]; intros core core' Hrun;
    simpl in Hrun.
  - discriminate.
  - destruct (a core) as [[ok core1] | |] eqn:Hacore; simpl in Hrun;
      try discriminate.
    destruct ok; simpl in Hrun.
    + injection Hrun as <-.
      exists [], a, rest. repeat split; [constructor | exact Hacore].
    + pose proof (Ha _ _ Hacore) as ->.
      destruct (IH _ _ Hrun) as (pre & a' & post & -> & Hpre & Ha').
      exists (a :: pre), a', post.
      repeat split; [constructor; assumption | exact Ha'].
Qed.

(** C7 (perform, lines 32-47).  [perform] is the first-success search of
    section 4.1: the attempts are the four rules, in the order try_ugt_x,
    try_ugt_y, try_ugt_z, try_y_l_ax_and_x_l_z, on each inequality literal
    of the core in iteration order, and on no other literal.  If it returns
    true, the attempts before the successful one have all returned false
    and none after it has been made (the result is that of the successful
    attempt).  If it returns false, every attempt has returned false. *)
Theorem perform_iteration_order (fuel : nat) (s : solver) (v : pvar)
        (core : conflict_core) :
  perform fuel s v core = perform_spec fuel s v core /\
  (forall core',
      perform fuel s v core = Ok (true, core') ->
      exists pre a post,
        attempts_of fuel s v (inequalities core) = pre ++ a :: post /\
        Forall (fun a => a core = Ok (false, core)) pre /\
        a core = Ok (true, core')) /\
  (forall core',
      perform fuel s v core = Ok (false, core') ->
      core' = core /\
      Forall (fun a => a core = Ok (false, core))
             (attempts_of fuel s v (inequalities core))).
Proof.
  split; [apply perform_eq_spec |].
  rewrite perform_eq_spec. unfold perform_spec.
  split; intros core' Hrun.
  - apply first_success_true; [apply attempts_frame | exact Hrun].
  - eapply first_success_false; [apply attempts_frame | exact Hrun].
Qed.

(** ** Dispatch of push_omega *)

(** C8 (push_omega, lines 150-170).  Let x_max and y_max be the viable
    maximum of a bare variable and bound - 1 for any other term.  If
    x_max * y_max >= bound, [push_omega] is the bisection procedure run
    with these maxima.  Otherwise it returns, whatever the fuel, the
    premises it was given followed by the justification literals of the
    variable of y and then those of the variable of x, and nothing else. *)
Theorem push_omega_dispatch (fuel : nat) (s : solver)
        (ncs : list signed_constraint) (x y : pdd) :
  (omega_max s x * omega_max s y >= bound s ->
   push_omega fuel s ncs x y
   = push_omega_bisect fuel s ncs x (omega_max s x) y (omega_max s y)) /\
  (omega_max s x * omega_max s y < bound s ->
   push_omega fuel s ncs x y
   = Ok (ncs ++ m_cjust s (Pdd.var y) ++ m_cjust s (Pdd.var x)) /\
   push_omega 0 s ncs x y = push_omega fuel s ncs x y).
Proof.
  unfold push_omega, omega_max.
  destruct (Z.geb_spec
              ((if is_var x then max_viable s (Pdd.var x) else bound s - 1)
               * (if is_var y then max_viable s (Pdd.var y) else bound s - 1))
              (bound s)) as [Hge | Hlt].
  - split; [reflexivity | lia].
  - split; [lia | intros _; split; reflexivity].
Qed.

(** ** Calls that change nothing *)

Lemma existsb_false_forall {A : Type} (f : A -> bool) (l : list A) :
  existsb f l = false -> forall x, In x l -> f x = false.
Proof.
  induction l as [| a l IH]; simpl; intros Hex x Hin; [contradiction |].
  apply orb_false_elim in Hex. destruct Hex as [Ha Hl].
  destruct Hin as [<- | Hin]; [exact Ha | apply IH; assumption].
Qed.

Lemma first_success_all_false (attempts : list attempt)
      (core : conflict_core) :
  Forall (fun a => a core = Ok (false, core)) attempts ->
  first_success attempts core = Ok (false, core).
Proof.
  induction 1 as [| a rest Ha Hrest IH]; simpl; [reflexivity |].
  rewrite Ha. simpl. exact IH.
Qed.

Lemma for_each_ule_all_false (lits : list signed_constraint)
      (body : inequality -> attempt) (core : conflict_core) :
  (forall d, In d (inequalities_of lits) -> body d core = Ok (false, core)) ->
  for_each_ule lits body core = Ok (false, core).
Proof.
  intros Hall. rewrite for_each_ule_first_success.
  apply first_success_all_false.
  apply Forall_map, Forall_forall. exact Hall.
Qed.

Lemma no_inequality (core : conflict_core) :
  has_inequality core = false -> inequalities core = [].
Proof.
  unfold has_inequality, inequalities.
  induction (core_lits core) as [| c1 rest IH]; simpl; intros Hex;
    [reflexivity |].
  apply orb_false_elim in Hex. destruct Hex as [Hc Hrest].
  destruct (as_inequality c1) as [i |] eqn:Hi.
  - assert (is_ule c1 = true) by (apply as_inequality_is_ule; eauto).
    congruence.
  - simpl. apply IH. exact Hrest.
Qed.

Lemma try_ugt_x_not_applies (s : solver) (v : pvar) (c : inequality) :
  applies_ugt_x s v c = false ->
  forall fuel core, try_ugt_x fuel s v core c = Ok (false, core).
Proof.
  unfold applies_ugt_x, try_ugt_x. intros Happ fuel core.
  destruct (is_xY_l_xZ v c) as [[y z] |]; [| reflexivity].
  destruct (is_non_overflow s (var v) y); simpl in *; [| reflexivity].
  destruct (negb (is_strict c) && (get_value s v =? 0)); simpl in *;
    [reflexivity | discriminate].
Qed.

Lemma try_ugt_y_not_applies (s : solver) (v : pvar) (c : inequality)
      (core : conflict_core) :
  (forall d, In d (inequalities core) -> applies_ugt_y s v c d = false) ->
  forall fuel, try_ugt_y fuel s v core c = Ok (false, core).
Proof.
  unfold try_ugt_y. intros Happ fuel.
  destruct (is_l_v v c) eqn:Hlv; simpl; [| reflexivity].
  apply for_each_ule_all_false. intros d Hd.
  specialize (Happ d Hd). unfold applies_ugt_y in Happ.
  rewrite Hlv in Happ. simpl in Happ.
  destruct (is_Xy_l_XZ v d) as [[x z] |]; [| reflexivity].
  unfold try_ugt_y_with. rewrite Happ. reflexivity.
Qed.

Lemma try_ugt_z_not_applies (s : solver) (v : pvar) (c : inequality)
      (core : conflict_core) :
  (forall d, In d (inequalities core) -> applies_ugt_z s v c d = false) ->
  forall fuel, try_ugt_z fuel s v core c = Ok (false, core).
Proof.
  unfold try_ugt_z. intros Happ fuel.
  destruct (is_g_v v c) eqn:Hgv; simpl; [| reflexivity].
  apply for_each_ule_all_false. intros d Hd.
  specialize (Happ d Hd). unfold applies_ugt_z in Happ.
  rewrite Hgv in Happ. simpl in Happ.
  destruct (is_YX_l_zX v d) as [[x y] |]; [| reflexivity].
  unfold try_ugt_z_with. rewrite Happ. reflexivity.
Qed.

Lemma try_y_l_ax_and_x_l_z_not_applies (s : solver) (v : pvar)
      (c : inequality) (core : conflict_core) :
  (forall d, In d (inequalities core) ->
             applies_y_l_ax_and_x_l_z s v c d = false) ->
  forall fuel, try_y_l_ax_and_x_l_z fuel s v core c = Ok (false, core).
Proof.
  unfold try_y_l_ax_and_x_l_z. intros Happ fuel.
  destruct (is_g_v v c) eqn:Hgv; simpl; [| reflexivity].
  apply for_each_ule_all_false. intros d Hd.
  specialize (Happ d Hd). unfold applies_y_l_ax_and_x_l_z in Happ.
  rewrite Hgv in Happ. simpl in Happ.
  destruct (is_Y_l_Ax v d) as [[a y] |]; [| reflexivity].
  unfold try_y_l_ax_and_x_l_z_with. rewrite Happ. reflexivity.
Qed.

(** C9 (perform, lines 32-47).  On a core without inequality literals, and
    on a core on which no rule passes its match and guards, [perform]
    returns false, with any fuel, and the core it returns is the core it
    was given: no keep, insert or set has been requested. *)
Theorem perform_noop (s : solver) (v : pvar) (core : conflict_core) :
  has_inequality core = false \/ some_rule_applies s v core = false ->
  forall fuel, perform fuel s v core = Ok (false, core).
Proof.
  intros Hnone fuel. unfold perform.
  apply for_each_ule_all_false. fold (inequalities core). intros c Hc.
  destruct Hnone as [Hno | Hno].
  - rewrite (no_inequality _ Hno) in Hc. contradiction.
  - unfold some_rule_applies in Hno.
    pose proof (existsb_false_forall _ _ Hno c Hc) as Hc'.
    apply orb_false_elim in Hc'. destruct Hc' as [Hx Hpair].
    pose proof (existsb_false_forall _ _ Hpair) as Hd.
    assert (Hy : forall d, In d (inequalities core) ->
                           applies_ugt_y s v c d = false).
    { intros d Hin. specialize (Hd d Hin). cbv beta in Hd.
      destruct (applies_ugt_y s v c d); [simpl in Hd; discriminate | reflexivity]. }
    assert (Hz : forall d, In d (inequalities core) ->
                           applies_ugt_z s v c d = false).
    { intros d Hin. specialize (Hd d Hin). cbv beta in Hd.
      destruct (applies_ugt_z s v c d);
        [rewrite orb_true_r in Hd; discriminate | reflexivity]. }
    assert (Ha : forall d, In d (inequalities core) ->
                           applies_y_l_ax_and_x_l_z s v c d = false).
    { intros d Hin. specialize (Hd d Hin). cbv beta in Hd.
      destruct (applies_y_l_ax_and_x_l_z s v c d);
        [rewrite orb_true_r in Hd; discriminate | reflexivity]. }
    unfold orelse.
    rewrite (try_ugt_x_not_applies _ _ _ Hx). simpl.
    rewrite (try_ugt_y_not_applies _ _ _ _ Hy). simpl.
    rewrite (try_ugt_z_not_applies _ _ _ _ Hz). simpl.
    apply (try_y_l_ax_and_x_l_z_not_applies _ _ _ _ Ha).
Qed.

(** ** Fuel

    A call that returns with some fuel returns the same with more: the
    results computed with a given amount of fuel are the results of the
    call. *)

Lemma bind_mono {A B : Type} (c c' : result A) (k k' : A -> result B)
      (r : B) :
  (forall a, c = Ok a -> c' = Ok a) ->
  (forall a b, k a = Ok b -> k' a = Ok b) ->
  bind c k = Ok r -> bind c' k' = Ok r.
Proof.
  intros Hc Hk. destruct c as [a | |]; simpl; try discriminate.
  intros Hrun. rewrite (Hc a eq_refl). simpl. apply Hk. exact Hrun.
Qed.

Lemma bisect_fuel_mono (fuel fuel' : nat) (bound x_val x_max y_val y_max : Z)
      (r : Z * Z) :
  (fuel <= fuel')%nat ->
  Bisect.bisect fuel bound x_val x_max y_val y_max = Ok r ->
  Bisect.bisect fuel' bound x_val x_max y_val y_max = Ok r.
Proof.
  intros Hle. unfold Bisect.bisect. apply bind_mono.
  - intros b Hb. unfold Bisect.joint in *.
    eapply while_fuel_mono; eassumption.
  - intros b1 r1. apply bind_mono; [| auto].
    intros b2. unfold Bisect.extend.
    destruct (_ <? bound).
    + intros Hb. eapply while_fuel_mono; eassumption.
    + destruct (_ <? bound); [| auto].
      intros Hb. eapply while_fuel_mono; eassumption.
Qed.

Lemma push_omega_fuel_mono (fuel fuel' : nat) (s : solver)
      (ncs : list signed_constraint) (x y : pdd)
      (r : list signed_constraint) :
  (fuel <= fuel')%nat ->
  push_omega fuel s ncs x y = Ok r -> push_omega fuel' s ncs x y = Ok r.
Proof.
  intros Hle. unfold push_omega, push_omega_bisect.
  destruct (_ >=? bound s); [| auto].
  destruct (try_eval s x) as [x_val |]; [| auto].
  destruct (try_eval s y) as [y_val |]; [| auto].
  apply bind_mono; [| auto].
  intros lo. apply bisect_fuel_mono. exact Hle.
Qed.

Lemma orelse_mono (a a' b b' : attempt) (core : conflict_core)
      (r : bool * conflict_core) :
  (forall core1 r1, a core1 = Ok r1 -> a' core1 = Ok r1) ->
  (forall core1 r1, b core1 = Ok r1 -> b' core1 = Ok r1) ->
  orelse a b core = Ok r -> orelse a' b' core = Ok r.
Proof.
  intros Ha Hb. unfold orelse. apply bind_mono; [apply Ha |].
  intros [ok core1] r1. simpl. destruct ok; [auto | apply Hb].
Qed.

Lemma for_each_ule_mono (lits : list signed_constraint)
      (body body' : inequality -> attempt) :
  (forall c core r, body c core = Ok r -> body' c core = Ok r) ->
  forall core r,
    for_each_ule lits body core = Ok r -> for_each_ule lits body' core = Ok r.
Proof.
  intros Hbody. induction lits as [| c1 rest IH]; intros core r; simpl.
  - auto.
  - destruct (as_inequality c1) as [c |]; [| apply IH].
    apply bind_mono; [apply Hbody |].
    intros [ok core1] r1. simpl. destruct ok; [auto | apply IH].
Qed.

Section FuelMono.

Variables fuel fuel' : nat.
Hypothesis fuel_le : (fuel <= fuel')%nat.
Variable s : solver.
Variable v : pvar.

Lemma propagate_after_omega_mono (core : conflict_core)
      (crit1 crit2 : inequality) (strict : bool) (p q : pdd)
      (pre : list signed_constraint) (x y : pdd)
      (r : bool * conflict_core) :
  (ncs <- push_omega fuel s pre x y ;;
   Ok (propagate_ineq s core crit1 crit2 strict p q ncs)) = Ok r ->
  (ncs <- push_omega fuel' s pre x y ;;
   Ok (propagate_ineq s core crit1 crit2 strict p q ncs)) = Ok r.
Proof.
  apply bind_mono; [| auto].
  intros ncs. apply push_omega_fuel_mono. exact fuel_le.
Qed.

Lemma try_ugt_x_fuel_mono (core : conflict_core) (c : inequality)
      (r : bool * conflict_core) :
  try_ugt_x fuel s v core c = Ok r -> try_ugt_x fuel' s v core c = Ok r.
Proof.
  unfold try_ugt_x.
  destruct (is_xY_l_xZ v c) as [[y z] |]; [| auto].
  destruct (negb (is_non_overflow s (var v) y)); [auto |].
  destruct (negb (is_strict c) && (get_value s v =? 0)); [auto |].
  apply propagate_after_omega_mono.
Qed.

Lemma try_ugt_y_fuel_mono (core : conflict_core) (c : inequality)
      (r : bool * conflict_core) :
  try_ugt_y fuel s v core c = Ok r -> try_ugt_y fuel' s v core c = Ok r.
Proof.
  unfold try_ugt_y. destruct (negb (is_l_v v c)); [auto |].
  apply for_each_ule_mono. intros d core1 r1.
  destruct (is_Xy_l_XZ v d) as [[x z] |]; [| auto].
  unfold try_ugt_y_with.
  destruct (negb (is_non_overflow s x (var v))); [auto |].
  apply propagate_after_omega_mono.
Qed.

Lemma try_ugt_z_fuel_mono (core : conflict_core) (c : inequality)
      (r : bool * conflict_core) :
  try_ugt_z fuel s v core c = Ok r -> try_ugt_z fuel' s v core c = Ok r.
Proof.
  unfold try_ugt_z. destruct (negb (is_g_v v c)); [auto |].
  apply for_each_ule_mono. intros d core1 r1.
  destruct (is_YX_l_zX v d) as [[x y] |]; [| auto].
  unfold try_ugt_z_with.
  destruct (negb (is_non_overflow s x (rhs c))); [auto |].
  apply propagate_after_omega_mono.
Qed.

Lemma try_y_l_ax_and_x_l_z_fuel_mono (core : conflict_core) (c : inequality)
      (r : bool * conflict_core) :
  try_y_l_ax_and_x_l_z fuel s v core c = Ok r ->
  try_y_l_ax_and_x_l_z fuel' s v core c = Ok r.
Proof.
  unfold try_y_l_ax_and_x_l_z. destruct (negb (is_g_v v c)); [auto |].
  apply for_each_ule_mono. intros d core1 r1.
  destruct (is_Y_l_Ax v d) as [[a y] |]; [| auto].
  unfold try_y_l_ax_and_x_l_z_with.
  destruct (negb (is_non_overflow s a (rhs c))); [auto |].
  apply propagate_after_omega_mono.
Qed.

(** The result of [perform] does not depend on the fuel that suffices. *)
Lemma perform_fuel_mono (core : conflict_core) (r : bool * conflict_core) :
  perform fuel s v core = Ok r -> perform fuel' s v core = Ok r.
Proof.
  unfold perform. apply for_each_ule_mono. intros c core1 r1.
  apply orelse_mono; [intros ? ?; apply try_ugt_x_fuel_mono |].
  intros ? ?. apply orelse_mono; [intros ? ?; apply try_ugt_y_fuel_mono |].
  intros ? ?. apply orelse_mono; intros ? ?.
  - apply try_ugt_z_fuel_mono.
  - apply try_y_l_ax_and_x_l_z_fuel_mono.
Qed.

End FuelMono.

(** ** The scenario of the specification: v*2 <= v*5 with v = 3 *)

Section ScenarioA.

Variable mv : pvar -> Z.
Variable cj : pvar -> list signed_constraint.
Variable bv : constraint -> lbool.

Let s := solverA mv cj bv.

Lemma scenarioA_match :
  as_inequality litA = Some ineqA /\
  is_xY_l_xZ vA ineqA = Some (Val 2, Val 5) /\
  is_non_overflow s (var vA) (Val 2) = true /\
  get_value s vA = 3 /\
  applies_ugt_x s vA ineqA = true.
Proof. repeat split. Qed.

(** The matched literal is true under the model (6 <= 15), so it is not
    currently false. *)
Lemma scenarioA_crit_not_false :
  is_currently_false s (as_signed_constraint ineqA) = false.
Proof. reflexivity. Qed.

Lemma scenarioA_try_ugt_x (fuel : nat) :
  try_ugt_x fuel s vA coreA ineqA
  = (ncs <- push_omega fuel s [negate (eq0 (var vA))] (var vA) (Val 2) ;;
     Ok (false, coreA)).
Proof.
  unfold try_ugt_x.
  destruct scenarioA_match as (_ & -> & -> & -> & _).
  cbn [negb is_strict ineqA andb Z.eqb].
  destruct (push_omega fuel s [negate (eq0 (var vA))] (var vA) (Val 2))
    as [ncs | |]; cbn [bind]; [| reflexivity | reflexivity].
  unfold propagate_ineq. rewrite propagate_eq.
  unfold some_crit_false. rewrite scenarioA_crit_not_false. reflexivity.
Qed.

Lemma scenarioA_perform (fuel : nat) :
  perform fuel s vA coreA
  = (ncs <- push_omega fuel s [negate (eq0 (var vA))] (var vA) (Val 2) ;;
     Ok (false, coreA)).
Proof.
  unfold perform. cbn [coreA empty_core core_lits for_each_ule].
  destruct scenarioA_match as (-> & _).
  unfold orelse at 1. rewrite scenarioA_try_ugt_x.
  destruct (push_omega fuel s [negate (eq0 (var vA))] (var vA) (Val 2))
    as [ncs | |]; reflexivity.
Qed.

End ScenarioA.

(** C5 as stated fails: with viable maximum 7 for v, [perform] returns
    false on the scenario and leaves the core as it was, and it returns
    true with no amount of fuel. *)
Lemma scenarioA_perform_returns_false :
  perform 10 solverA7 vA coreA = Ok (false, coreA) /\
  forall fuel core', perform fuel solverA7 vA coreA <> Ok (true, core').
Proof.
  split; [reflexivity |].
  intros fuel core'. unfold solverA7. rewrite scenarioA_perform.
  destruct (push_omega _ _ _ _ _); simpl; discriminate.
Qed.

(** C5, amended (try_ugt_x and propagate, lines 266-282 and 60-84).  At
    width 4, on the core that holds the non-strict literal v*2 <= v*5 and
    with v = 3, whatever the viable ranges, justification sets and trail:
    the match of try_ugt_x succeeds with Y = 2 and Z = 5, its guards hold
    (3 * 2 = 6 < 16 and v is not zero), and the candidate lemma is 2 <= 5;
    but the matched literal is true under the model, so the gate of
    [propagate] rejects the lemma, and every call of [perform] that returns
    returns false with the core unchanged.  With viable maximum 7 the call
    does return. *)
Theorem scenarioA_gate_rejects :
  (forall mv cj bv,
      as_inequality litA = Some ineqA /\
      is_xY_l_xZ vA ineqA = Some (Val 2, Val 5) /\
      applies_ugt_x (solverA mv cj bv) vA ineqA = true /\
      ineq (is_strict ineqA) (Val 2) (Val 5) = ule (Val 2) (Val 5) /\
      is_currently_false (solverA mv cj bv) (as_signed_constraint ineqA)
      = false) /\
  (forall mv cj bv fuel r,
      perform fuel (solverA mv cj bv) vA coreA = Ok r -> r = (false, coreA)) /\
  perform 10 solverA7 vA coreA = Ok (false, coreA).
Proof.
  split; [| split].
  - intros mv cj bv. repeat split.
  - intros mv cj bv fuel r. rewrite scenarioA_perform.
    destruct (push_omega _ _ _ _ _); simpl; congruence.
  - reflexivity.
Qed.

(** With v unconstrained (viable maximum 15) the scenario does not return
    at all: the joint bisection loop for the premises of (v, 2) runs
    forever. *)
Lemma scenarioA_unconstrained_diverges (fuel : nat) :
  perform fuel (solverA (fun _ => 15) (fun _ => []) (fun _ => l_undef))
          vA coreA = Diverge.
Proof.
  rewrite scenarioA_perform.
  unfold push_omega, push_omega_bisect.
  cbn -[Bisect.bisect bind].
  unfold Bisect.bisect, Bisect.joint.
  rewrite while_runs_forever; [reflexivity |].
  do 3 (apply rf_step; [reflexivity |]; cbn).
  apply rf_stuck; reflexivity.
Qed.

(** ** What a successful rule has inserted *)

Lemma as_signed_of_as_inequality (c1 : signed_constraint) (c : inequality) :
  as_inequality c1 = Some c -> as_signed_constraint c = c1.
Proof.
  destruct c1 as [g pos]. unfold as_inequality, as_signed_constraint.
  destruct g as [p q | p]; simpl; [| discriminate].
  destruct pos; intros [= <-]; reflexivity.
Qed.

Lemma push_omega_bisect_app (fuel : nat) (s : solver)
      (ncs : list signed_constraint) (x : pdd) (x_max : Z) (y : pdd)
      (y_max : Z) :
  push_omega_bisect fuel s ncs x x_max y y_max
  = (omega <- push_omega_bisect fuel s [] x x_max y y_max ;;
     Ok (ncs ++ omega)).
Proof.
  unfold push_omega_bisect.
  destruct (try_eval s x) as [x_val |]; [| reflexivity].
  destruct (try_eval s y) as [y_val |]; [| reflexivity].
  destruct (Bisect.bisect fuel (bound s) x_val x_max y_val y_max)
    as [lo | |]; reflexivity.
Qed.

Lemma push_omega_app (fuel : nat) (s : solver)
      (ncs : list signed_constraint) (x y : pdd) :
  push_omega fuel s ncs x y
  = (omega <- push_omega fuel s [] x y ;; Ok (ncs ++ omega)).
Proof.
  unfold push_omega.
  destruct (_ >=? bound s).
  - apply push_omega_bisect_app.
  - reflexivity.
Qed.


Lemma propagate_ineq_success (s : solver) (core core' : conflict_core)
      (crit1 crit2 : inequality) (strict : bool) (p q : pdd)
      (pre : list signed_constraint) (fuel : nat) (x y : pdd) :
  (ncs <- push_omega fuel s pre x y ;;
   Ok (propagate_ineq s core crit1 crit2 strict p q ncs))
  = Ok (true, core') ->
  exists omega,
    push_omega fuel s [] x y = Ok omega /\
    core' = after core (propagate_ops s crit1 crit2 (ineq strict p q)
                                     (pre ++ omega)).
Proof.
  rewrite push_omega_app.
  destruct (push_omega fuel s [] x y) as [omega | |]; simpl;
    try discriminate.
  unfold propagate_ineq. rewrite propagate_eq.
  destruct (some_crit_false s crit1 crit2 && candidate_false s _);
    [| discriminate].
  intros [= <-]. exists omega. split; reflexivity.
Qed.

Lemma try_ugt_x_success (fuel : nat) (s : solver) (v : pvar)
      (core core' : conflict_core) (c : inequality) :
  try_ugt_x fuel s v core c = Ok (true, core') ->
  exists y z omega,
    is_xY_l_xZ v c = Some (y, z) /\
    is_non_overflow s (var v) y = true /\
    push_omega fuel s [] (var v) y = Ok omega /\
    core' = after core
              (propagate_ops s c c (ineq (is_strict c) y z)
                 ((if is_strict c then [] else [negate (eq0 (var v))])
                  ++ omega)).
Proof.
  unfold try_ugt_x.
  destruct (is_xY_l_xZ v c) as [[y z] |]; [| discriminate].
  destruct (is_non_overflow s (var v) y) eqn:Hno; simpl; [| discriminate].
  destruct (negb (is_strict c) && (get_value s v =? 0)); simpl;
    [discriminate |].
  intros Hrun. apply propagate_ineq_success in Hrun.
  destruct Hrun as (omega & Homega & ->).
  exists y, z, omega. repeat split; try assumption.
  destruct (is_strict c); reflexivity.
Qed.

Lemma for_each_ule_success (lits : list signed_constraint)
      (body : inequality -> attempt) (core core' : conflict_core) :
  (forall d, frames (body d)) ->
  for_each_ule lits body core = Ok (true, core') ->
  exists d, In d (inequalities_of lits) /\ body d core = Ok (true, core').
Proof.
  intros Hframes. rewrite for_each_ule_first_success. intros Hrun.
  apply first_success_true in Hrun.
  - destruct Hrun as (pre & a & post & Hsplit & _ & Ha).
    assert (Hin : In a (map body (inequalities_of lits))).
    { rewrite Hsplit. apply in_or_app. right. left. reflexivity. }
    apply in_map_iff in Hin. destruct Hin as (d & <- & Hd).
    exists d. split; assumption.
  - apply Forall_map, Forall_forall. intros d _. apply Hframes.
Qed.

Lemma try_ugt_y_success (fuel : nat) (s : solver) (v : pvar)
      (core core' : conflict_core) (c : inequality) :
  try_ugt_y fuel s v core c = Ok (true, core') ->
  exists d x z omega,
    In d (inequalities core) /\
    applies_ugt_y s v c d = true /\
    is_Xy_l_XZ v d = Some (x, z) /\
    push_omega fuel s [] x (var v) = Ok omega /\
    core' = after core
              (propagate_ops s c d
                 (ineq (is_strict d || is_strict c)
                       (mul (bit_size s) (lhs c) x) (mul (bit_size s) z x))
                 ([as_signed_constraint c; as_signed_constraint d] ++ omega)).
Proof.
  unfold try_ugt_y, applies_ugt_y.
  destruct (is_l_v v c); simpl; [| discriminate].
  intros Hrun. apply for_each_ule_success in Hrun.
  - destruct Hrun as (d & Hd & Hrun).
    destruct (is_Xy_l_XZ v d) as [[x z] |] eqn:Hm; [| discriminate].
    unfold try_ugt_y_with in Hrun.
    destruct (is_non_overflow s x (var v)) eqn:Hno; simpl in Hrun;
      [| discriminate].
    apply propagate_ineq_success in Hrun.
    destruct Hrun as (omega & Homega & ->).
    exists d, x, z, omega. rewrite Hm, Hno. repeat split; assumption.
  - intros d core1 core2.
    destruct (is_Xy_l_XZ v d) as [[x z] |]; [| congruence].
    apply try_ugt_y_with_frames.
Qed.

Lemma try_ugt_z_success (fuel : nat) (s : solver) (v : pvar)
      (core core' : conflict_core) (c : inequality) :
  try_ugt_z fuel s v core c = Ok (true, core') ->
  exists d x y omega,
    In d (inequalities core) /\
    applies_ugt_z s v c d = true /\
    is_YX_l_zX v d = Some (x, y) /\
    push_omega fuel s [] x (rhs c) = Ok omega /\
    core' = after core
              (propagate_ops s c d
                 (ineq (is_strict c || is_strict d)
                       (mul (bit_size s) y x) (mul (bit_size s) (rhs c) x))
                 ([as_signed_constraint c; as_signed_constraint d] ++ omega)).
Proof.
  unfold try_ugt_z, applies_ugt_z.
  destruct (is_g_v v c); simpl; [| discriminate].
  intros Hrun. apply for_each_ule_success in Hrun.
  - destruct Hrun as (d & Hd & Hrun).
    destruct (is_YX_l_zX v d) as [[x y] |] eqn:Hm; [| discriminate].
    unfold try_ugt_z_with in Hrun.
    destruct (is_non_overflow s x (rhs c)) eqn:Hno; simpl in Hrun;
      [| discriminate].
    apply propagate_ineq_success in Hrun.
    destruct Hrun as (omega & Homega & ->).
    exists d, x, y, omega. rewrite Hm, Hno. repeat split; assumption.
  - intros d core1 core2.
    destruct (is_YX_l_zX v d) as [[x y] |]; [| congruence].
    apply try_ugt_z_with_frames.
Qed.

Lemma try_y_l_ax_and_x_l_z_success (fuel : nat) (s : solver) (v : pvar)
      (core core' : conflict_core) (c : inequality) :
  try_y_l_ax_and_x_l_z fuel s v core c = Ok (true, core') ->
  exists d a y omega,
    In d (inequalities core) /\
    applies_y_l_ax_and_x_l_z s v c d = true /\
    is_Y_l_Ax v d = Some (a, y) /\
    push_omega fuel s [] a (rhs c) = Ok omega /\
    core' = after core
              (propagate_ops s c d
                 (ineq (is_strict c || is_strict d)
                       y (mul (bit_size s) a (rhs c)))
                 ([as_signed_constraint c; as_signed_constraint d] ++ omega)).
Proof.
  unfold try_y_l_ax_and_x_l_z, applies_y_l_ax_and_x_l_z.
  destruct (is_g_v v c); simpl; [| discriminate].
  intros Hrun. apply for_each_ule_success in Hrun.
  - destruct Hrun as (d & Hd & Hrun).
    destruct (is_Y_l_Ax v d) as [[a y] |] eqn:Hm; [| discriminate].
    unfold try_y_l_ax_and_x_l_z_with in Hrun.
    destruct (is_non_overflow s a (rhs c)) eqn:Hno; simpl in Hrun;
      [| discriminate].
    apply propagate_ineq_success in Hrun.
    destruct Hrun as (omega & Homega & ->).
    exists d, a, y, omega. rewrite Hm, Hno. repeat split; assumption.
  - intros d core1 core2.
    destruct (is_Y_l_Ax v d) as [[a y] |]; [| congruence].
    apply try_y_l_ax_and_x_l_z_with_frames.
Qed.



(** A successful [propagate] has passed both conditions of its gate. *)
Lemma propagate_true_gate (s : solver) (core core' : conflict_core)
      (crit1 crit2 : inequality) (c : signed_constraint)
      (ncs : list signed_constraint) :
  propagate s core crit1 crit2 c ncs = (true, core') ->
  some_crit_false s crit1 crit2 = true /\ candidate_false s c = true.
Proof.
  rewrite propagate_eq.
  destruct (some_crit_false s crit1 crit2); simpl; [| discriminate].
  destruct (candidate_false s c); [auto | discriminate].
Qed.



(** The condition on the justification sets cannot be dropped.  Scenario C
    puts the literal v*5 <= v*2, which is false at v = 1, among the
    justifications of v; the worst case 1 * 15 cannot overflow, the
    justification sets are reused, and try_ugt_x inserts the literal it
    matched. *)
Lemma try_ugt_x_inserts_matched_literal :
  as_inequality litC = Some ineqC /\
  try_ugt_x 10 solverC vC coreC ineqC
  = Ok (true,
        after coreC [Keep litC; Keep litC; SetLit (ule (Val 5) (Val 2));
                     Insert (negate (eq0 (var vC))); Insert litC]) /\
  perform 10 solverC vC coreC = try_ugt_x 10 solverC vC coreC ineqC.
Proof. repeat split. Qed.

(** ** Semantics of terms *)

Section EvalZ.

Variable rho : pvar -> Z.

Lemma is_zero_inv (p : pdd) : is_zero p = true -> p = Val 0.
Proof.
  destruct p as [c | v l h]; simpl; [| discriminate].
  intros Hc. apply Z.eqb_eq in Hc. now subst.
Qed.

Lemma evalZ_mk_node (v : pvar) (l h : pdd) :
  evalZ rho (mk_node v l h) = rho v * evalZ rho h + evalZ rho l.
Proof.
  unfold mk_node. destruct (is_zero h) eqn:Hz; [| reflexivity].
  apply is_zero_inv in Hz. subst h. simpl. lia.
Qed.

Lemma evalZ_mk_var (v : pvar) : evalZ rho (mk_var v) = rho v.
Proof. simpl. lia. Qed.

Lemma mul_var_sound (v : pvar) (p : pdd) :
  evalZ rho (mul_var v p) = rho v * evalZ rho p.
Proof.
  induction p as [a | u l IHl h IHh]; simpl.
  - destruct (Z.eqb_spec a 0); simpl; lia.
  - destruct (Nat.ltb v u); simpl; [| lia].
    rewrite evalZ_mk_node, IHl, IHh. lia.
Qed.

Lemma factor_rec_sound (p : pdd) (v : pvar) (d : nat) (lc rest : pdd) :
  factor_rec p v d = (lc, rest) ->
  evalZ rho p = evalZ rho lc * rho v ^ Z.of_nat d + evalZ rho rest.
Proof.
  revert d lc rest. induction p as [a | u l IHl h IHh]; intros d lc rest.
  - destruct d; simpl; intros [= <- <-]; simpl; lia.
  - destruct d as [| d'].
    + simpl. intros [= <- <-]. simpl. lia.
    + cbn [factor_rec].
      destruct (Nat.ltb u v); [intros [= <- <-]; simpl; lia |].
      destruct (Nat.eqb_spec u v) as [-> | Hne].
      * destruct (factor_rec h v d') as [lc1 rest1] eqn:Hh.
        intros [= <- <-]. rewrite evalZ_mk_node. simpl evalZ.
        rewrite (IHh _ _ _ Hh).
        rewrite Nat2Z.inj_succ, Z.pow_succ_r by lia. lia.
      * destruct (factor_rec h v (S d')) as [lc1 rest1] eqn:Hh.
        destruct (factor_rec l v (S d')) as [lc0 rest0] eqn:Hl.
        intros [= <- <-]. rewrite !evalZ_mk_node. simpl evalZ.
        rewrite (IHh _ _ _ Hh), (IHl _ _ _ Hl). lia.
Qed.

Lemma factor_sound (p : pdd) (v : pvar) (y : pdd) :
  factor p v 1 = Some y -> evalZ rho p = rho v * evalZ rho y.
Proof.
  unfold factor. destruct (factor_rec p v 1) as [lc rest] eqn:Hf.
  destruct (is_zero rest) eqn:Hz; [| discriminate].
  intros [= <-]. apply is_zero_inv in Hz. subst rest.
  rewrite (factor_rec_sound _ _ _ _ _ Hf). simpl. lia.
Qed.

Lemma try_div_sound (p : pdd) (c : Z) (q : pdd) :
  try_div p c = Some q -> evalZ rho p = c * evalZ rho q.
Proof.
  revert q. induction p as [a | v l IHl h IHh]; intros q; simpl.
  - destruct (Z.eqb_spec (a mod c) 0) as [Hmod |]; [| discriminate].
    intros [= <-]. simpl.
    pose proof (Z_div_mod_eq_full a c). lia.
  - destruct (try_div l c) as [l' |]; [| discriminate].
    destruct (try_div h c) as [h' |]; [| discriminate].
    intros [= <-]. rewrite evalZ_mk_node.
    rewrite (IHl _ eq_refl), (IHh _ eq_refl). lia.
Qed.

End EvalZ.

Section Ring.

Variable w : nat.
Variable rho : pvar -> Z.

Let M := 2 ^ Z.of_nat w.

Lemma modulus_pos : 0 < M.
Proof. unfold M. apply Z.pow_pos_nonneg; lia. Qed.

Lemma evalZ_mk_val (c : Z) : evalZ rho (mk_val w c) = c mod M.
Proof. reflexivity. Qed.

Lemma same_value_add (a a' b b' : Z) :
  same_value w a a' -> same_value w b b' -> same_value w (a + b) (a' + b').
Proof.
  unfold same_value. intros Ha Hb.
  rewrite (Z.add_mod a b), (Z.add_mod a' b') by (pose proof modulus_pos; lia).
  now rewrite Ha, Hb.
Qed.

Lemma same_value_mul (a a' b b' : Z) :
  same_value w a a' -> same_value w b b' -> same_value w (a * b) (a' * b').
Proof.
  unfold same_value. intros Ha Hb.
  rewrite (Z.mul_mod a b), (Z.mul_mod a' b') by (pose proof modulus_pos; lia).
  now rewrite Ha, Hb.
Qed.

Lemma same_value_refl (a : Z) : same_value w a a.
Proof. reflexivity. Qed.

Lemma same_value_mod (a : Z) : same_value w (a mod M) a.
Proof. unfold same_value. apply Z.mod_mod. pose proof modulus_pos; lia. Qed.

Lemma same_value_trans (a b c : Z) :
  same_value w a b -> same_value w b c -> same_value w a c.
Proof. unfold same_value. congruence. Qed.

Lemma add_sound (p q : pdd) :
  same_value w (evalZ rho (add w p q)) (evalZ rho p + evalZ rho q).
Proof.
  revert q. induction p as [a | v l IHl h IHh]; intros q.
  - induction q as [b | u l' IHl' h' IHh'].
    + simpl. apply same_value_mod.
    + simpl. rewrite evalZ_mk_node.
      replace (a + (rho u * evalZ rho h' + evalZ rho l'))
        with (rho u * evalZ rho h' + (a + evalZ rho l')) by lia.
      apply same_value_add; [apply same_value_refl | exact IHl'].
  - induction q as [b | u l' IHl' h' IHh'].
    + simpl. rewrite evalZ_mk_node.
      replace (rho v * evalZ rho h + evalZ rho l + b)
        with (rho v * evalZ rho h + (evalZ rho l + b)) by lia.
      apply same_value_add; [apply same_value_refl | apply (IHl (Val b))].
    + simpl. destruct (Nat.compare_spec v u) as [Heq | Hlt | Hgt].
      * subst u. rewrite evalZ_mk_node.
        replace (rho v * evalZ rho h + evalZ rho l
                 + (rho v * evalZ rho h' + evalZ rho l'))
          with (rho v * (evalZ rho h + evalZ rho h')
                + (evalZ rho l + evalZ rho l')) by lia.
        apply same_value_add; [| apply IHl].
        apply same_value_mul; [apply same_value_refl | apply IHh].
      * rewrite evalZ_mk_node.
        replace (rho v * evalZ rho h + evalZ rho l
                 + (rho u * evalZ rho h' + evalZ rho l'))
          with (rho u * evalZ rho h'
                + (rho v * evalZ rho h + evalZ rho l + evalZ rho l')) by lia.
        apply same_value_add; [apply same_value_refl | exact IHl'].
      * rewrite evalZ_mk_node.
        replace (rho v * evalZ rho h + evalZ rho l
                 + (rho u * evalZ rho h' + evalZ rho l'))
          with (rho v * evalZ rho h
                + (evalZ rho l + (rho u * evalZ rho h' + evalZ rho l')))
          by lia.
        apply same_value_add; [apply same_value_refl | apply IHl].
Qed.

Lemma scale_sound (c : Z) (p : pdd) :
  same_value w (evalZ rho (scale w c p)) (c * evalZ rho p).
Proof.
  induction p as [a | v l IHl h IHh]; simpl.
  - apply same_value_mod.
  - rewrite evalZ_mk_node.
    replace (c * (rho v * evalZ rho h + evalZ rho l))
      with (rho v * (c * evalZ rho h) + c * evalZ rho l) by lia.
    apply same_value_add; [| exact IHl].
    apply same_value_mul; [apply same_value_refl | exact IHh].
Qed.

Lemma mul_sound (p q : pdd) :
  same_value w (evalZ rho (mul w p q)) (evalZ rho p * evalZ rho q).
Proof.
  induction p as [a | v l IHl h IHh]; simpl.
  - apply scale_sound.
  - eapply same_value_trans; [apply add_sound |].
    rewrite mul_var_sound.
    replace ((rho v * evalZ rho h + evalZ rho l) * evalZ rho q)
      with (rho v * (evalZ rho h * evalZ rho q)
            + evalZ rho l * evalZ rho q) by lia.
    apply same_value_add; [| exact IHl].
    apply same_value_mul; [apply same_value_refl | exact IHh].
Qed.

End Ring.

Lemma pdd_eqb_eq (p q : pdd) : Pdd.eqb p q = true -> p = q.
Proof.
  revert q. induction p as [a | v l IHl h IHh]; intros [b | u l' h']; simpl;
    try discriminate.
  - intros H. apply Z.eqb_eq in H. now subst.
  - intros H. apply andb_prop in H. destruct H as [H Hh].
    apply andb_prop in H. destruct H as [Hv Hl].
    apply Nat.eqb_eq in Hv. subst u.
    now rewrite (IHl _ Hl), (IHh _ Hh).
Qed.

(** Arithmetic of products that do not overflow. *)
Lemma cancel_le (M X A B : Z) :
  0 < X -> 0 <= A -> 0 <= B -> X * A < M ->
  (X * A) mod M <= (X * B) mod M -> A <= B.
Proof.
  intros HX HA HB Hno Hle.
  destruct (Z_le_gt_dec A B) as [| Hgt]; [assumption | exfalso].
  assert (X * B < X * A) by nia.
  rewrite (Z.mod_small (X * A)) in Hle by nia.
  rewrite (Z.mod_small (X * B)) in Hle by nia.
  lia.
Qed.

Lemma cancel_lt (M X A B : Z) :
  0 <= X -> 0 <= A -> 0 <= B -> X * A < M ->
  (X * A) mod M < (X * B) mod M -> A < B.
Proof.
  intros HX HA HB Hno Hlt.
  destruct (Z_lt_ge_dec A B) as [| Hge]; [assumption | exfalso].
  assert (X * B <= X * A) by nia.
  rewrite (Z.mod_small (X * A)) in Hlt by nia.
  rewrite (Z.mod_small (X * B)) in Hlt by nia.
  lia.
Qed.

Lemma below_no_overflow (M X A B : Z) :
  0 <= X -> 0 <= A -> A <= B -> X * B < M ->
  (X * A) mod M <= (X * B) mod M.
Proof.
  intros HX HA HAB Hno.
  rewrite (Z.mod_small (X * A)) by nia.
  rewrite (Z.mod_small (X * B)) by nia.
  nia.
Qed.

Section Semantics.

Variable s : solver.
Variable rho : pvar -> Z.


Lemma bound_positive : 0 < bound s.
Proof. apply modulus_pos. Qed.

Lemma eval_range (p : pdd) : 0 <= eval (bit_size s) rho p < (bound s).
Proof. apply Z.mod_pos_bound. apply bound_positive. Qed.

Lemma eval_mul (p q : pdd) :
  eval (bit_size s) rho (mul (bit_size s) p q) = (eval (bit_size s) rho p * eval (bit_size s) rho q) mod (bound s).
Proof.
  unfold eval. change (2 ^ Z.of_nat (bit_size s)) with (bound s). rewrite <- Z.mul_mod by (pose proof bound_positive; lia).
  apply mul_sound.
Qed.

Lemma eval_var (v : pvar) : eval (bit_size s) rho (var v) = rho v mod (bound s).
Proof. unfold eval, var. now rewrite evalZ_mk_var. Qed.

Lemma is_xY_sound (v : pvar) (p y : pdd) :
  is_xY v p = Some y ->
  eval (bit_size s) rho p = (eval (bit_size s) rho (var v) * eval (bit_size s) rho y) mod (bound s).
Proof.
  unfold is_xY. destruct (Nat.eqb (degree p v) 1); [| discriminate].
  intros Hf. apply (factor_sound rho) in Hf.
  rewrite eval_var. unfold eval. change (2 ^ Z.of_nat (bit_size s)) with (bound s). rewrite Hf.
  apply Z.mul_mod. pose proof bound_positive; lia.
Qed.

Lemma is_unary_inv (x : pdd) :
  is_unary x = true -> exists u c, x = Node u (Val 0) (Val c).
Proof.
  destruct x as [a | u l h]; simpl; [discriminate |].
  unfold is_unary. simpl. intros H. apply andb_prop in H.
  destruct H as [Hl Hh]. apply is_zero_inv in Hl. subst l.
  destruct h as [c | ? ? ?]; [| discriminate]. eauto.
Qed.

Lemma is_coeffxY_sound (x p y : pdd) :
  is_coeffxY x p = Some y ->
  eval (bit_size s) rho p = (eval (bit_size s) rho x * eval (bit_size s) rho y) mod (bound s).
Proof.
  unfold is_coeffxY. destruct (is_unary x) eqn:Hu; [| discriminate].
  destruct (is_unary_inv _ Hu) as (u & c & ->). simpl.
  destruct (try_div p c) as [xy |] eqn:Hdiv; [| discriminate].
  intros Hf. apply (factor_sound rho) in Hf.
  apply (try_div_sound rho) in Hdiv.
  unfold eval. change (2 ^ Z.of_nat (bit_size s)) with (bound s). rewrite <- Z.mul_mod by (pose proof bound_positive; lia).
  rewrite Hdiv, Hf. simpl. f_equal. lia.
Qed.

Lemma holds_ineq (strict : bool) (p q : pdd) :
  holds (bit_size s) rho (ineq strict p q)
  = if strict then eval (bit_size s) rho p <? eval (bit_size s) rho q
    else eval (bit_size s) rho p <=? eval (bit_size s) rho q.
Proof.
  destruct strict; unfold holds, ineq, ult, ule, negate; simpl.
  - destruct (Z.leb_spec (eval (bit_size s) rho q) (eval (bit_size s) rho p));
      destruct (Z.ltb_spec (eval (bit_size s) rho p) (eval (bit_size s) rho q)); simpl;
      try reflexivity; lia.
  - destruct (eval (bit_size s) rho p <=? eval (bit_size s) rho q); reflexivity.
Qed.

Lemma holds_as_inequality (c1 : signed_constraint) (c : inequality) :
  as_inequality c1 = Some c -> holds (bit_size s) rho c1 = ineq_holds (bit_size s) rho c.
Proof.
  destruct c1 as [g pos]. unfold as_inequality, holds, ineq_holds.
  destruct g as [p q | p]; simpl; [| discriminate].
  destruct pos; intros [= <-]; simpl.
  - destruct (eval (bit_size s) rho p <=? eval (bit_size s) rho q); reflexivity.
  - destruct (Z.leb_spec (eval (bit_size s) rho p) (eval (bit_size s) rho q));
      destruct (Z.ltb_spec (eval (bit_size s) rho q) (eval (bit_size s) rho p)); simpl;
      try reflexivity; lia.
Qed.

Lemma holds_ule_val (p : pdd) (a : Z) :
  0 <= a -> holds (bit_size s) rho (ule p (mk_val (bit_size s) a)) = true -> eval (bit_size s) rho p <= a.
Proof.
  intros Ha. unfold holds, ule, mk_val. simpl.
  destruct (Z.leb_spec (eval (bit_size s) rho p)
                       (eval (bit_size s) rho (Val (a mod 2 ^ Z.of_nat (bit_size s)))))
    as [Hle |]; [| discriminate].
  intros _. unfold eval in Hle at 2. simpl in Hle.
  change (2 ^ Z.of_nat (bit_size s)) with (bound s) in Hle.
  rewrite Z.mod_mod in Hle by (pose proof bound_positive; lia).
  pose proof (Z.mod_le a (bound s) Ha bound_positive). lia.
Qed.

Hypothesis viable_nonneg : forall u, 0 <= max_viable s u.
Hypothesis cjust_bounds :
  forall u, Forall (fun l => holds (bit_size s) rho l = true) (m_cjust s u) ->
            rho u mod (bound s) <= max_viable s u.

Lemma omega_max_nonneg (p : pdd) : 0 <= omega_max s p.
Proof.
  unfold omega_max. destruct (is_var p); [apply viable_nonneg |].
  pose proof bound_positive. lia.
Qed.

Lemma is_var_inv (p : pdd) :
  is_var p = true -> p = var (Pdd.var p).
Proof.
  destruct p as [a | u l h]; simpl; [discriminate |].
  destruct l as [c | ? ? ?]; [| discriminate].
  destruct c; try discriminate.
  destruct h as [c | ? ? ?]; [| discriminate].
  destruct c as [| [ | | ] |]; try discriminate. reflexivity.
Qed.

Lemma omega_max_bounds (p : pdd) :
  Forall (fun l => holds (bit_size s) rho l = true) (m_cjust s (Pdd.var p)) ->
  eval (bit_size s) rho p <= omega_max s p.
Proof.
  intros Hj. unfold omega_max. destruct (is_var p) eqn:Hv.
  - rewrite (is_var_inv _ Hv) at 1. rewrite eval_var. apply cjust_bounds, Hj.
  - pose proof (eval_range p). lia.
Qed.

Lemma try_eval_nonneg (p : pdd) (z : Z) : try_eval s p = Some z -> 0 <= z.
Proof.
  unfold try_eval. destruct (subst_val (assignment s) p); [| discriminate].
  intros [= <-]. apply Z.mod_pos_bound, bound_positive.
Qed.

(** The omega premises do entail that the product does not overflow. *)
Lemma push_omega_sound (fuel : nat) (x y : pdd)
      (omega : list signed_constraint) :
  is_non_overflow s x y = true ->
  push_omega fuel s [] x y = Ok omega ->
  Forall (fun l => holds (bit_size s) rho l = true) omega ->
  eval (bit_size s) rho x * eval (bit_size s) rho y < (bound s).
Proof.
  intros Hno Hrun Hall.
  pose proof (eval_range x) as Hx. pose proof (eval_range y) as Hy.
  unfold push_omega in Hrun. fold (omega_max s x) (omega_max s y) in Hrun.
  destruct (Z.geb_spec (omega_max s x * omega_max s y) (bound s))
    as [Hge | Hlt].
  - unfold push_omega_bisect in Hrun. unfold is_non_overflow in Hno.
    destruct (try_eval s x) as [x_val |] eqn:Hxv; [| discriminate].
    destruct (try_eval s y) as [y_val |] eqn:Hyv; [| discriminate].
    apply Z.ltb_lt in Hno.
    destruct (Bisect.bisect fuel (bound s) x_val _ y_val _)
      as [[a b] | |] eqn:Hb; simpl in Hrun; try discriminate.
    injection Hrun as <-.
    apply bisect_no_overflow in Hb;
      [| apply bound_positive | eapply try_eval_nonneg; eassumption
       | apply omega_max_nonneg | eapply try_eval_nonneg; eassumption
       | apply omega_max_nonneg | exact Hno ].
    destruct Hb as (Ha & Hb & Hab).
    inversion Hall as [| ? ? H1 Hall']; subst.
    inversion Hall' as [| ? ? H2 _]; subst.
    apply holds_ule_val in H1; [| exact Ha].
    apply holds_ule_val in H2; [| exact Hb].
    nia.
  - injection Hrun as <-. apply Forall_app in Hall. destruct Hall as [Hjy Hjx].
    pose proof (omega_max_bounds x Hjx). pose proof (omega_max_bounds y Hjy).
    pose proof (omega_max_nonneg x). pose proof (omega_max_nonneg y).
    nia.
Qed.

End Semantics.

(** ** Soundness of the rules *)

Lemma try_ugt_y_with_success (fuel : nat) (s : solver) (v : pvar)
      (core core' : conflict_core) (le_y d : inequality) (x z : pdd) :
  try_ugt_y_with fuel s v core le_y d x z = Ok (true, core') ->
  is_non_overflow s x (var v) = true /\
  exists omega,
    push_omega fuel s [] x (var v) = Ok omega /\
    core' = after core
              (propagate_ops s le_y d
                 (ineq (is_strict d || is_strict le_y)
                       (mul (bit_size s) (lhs le_y) x)
                       (mul (bit_size s) z x))
                 ([as_signed_constraint le_y; as_signed_constraint d]
                  ++ omega)).
Proof.
  unfold try_ugt_y_with.
  destruct (is_non_overflow s x (var v)); simpl; [| discriminate].
  intros Hrun. split; [reflexivity |].
  apply propagate_ineq_success in Hrun. exact Hrun.
Qed.

Lemma try_ugt_z_with_success (fuel : nat) (s : solver) (v : pvar)
      (core core' : conflict_core) (z_l_y d : inequality) (x y : pdd) :
  try_ugt_z_with fuel s v core z_l_y d x y = Ok (true, core') ->
  is_non_overflow s x (rhs z_l_y) = true /\
  exists omega,
    push_omega fuel s [] x (rhs z_l_y) = Ok omega /\
    core' = after core
              (propagate_ops s z_l_y d
                 (ineq (is_strict z_l_y || is_strict d)
                       (mul (bit_size s) y x)
                       (mul (bit_size s) (rhs z_l_y) x))
                 ([as_signed_constraint z_l_y; as_signed_constraint d]
                  ++ omega)).
Proof.
  unfold try_ugt_z_with.
  destruct (is_non_overflow s x (rhs z_l_y)); simpl; [| discriminate].
  intros Hrun. split; [reflexivity |].
  apply propagate_ineq_success in Hrun. exact Hrun.
Qed.

Lemma try_y_l_ax_and_x_l_z_with_success (fuel : nat) (s : solver) (v : pvar)
      (core core' : conflict_core) (x_l_z d : inequality) (a y : pdd) :
  try_y_l_ax_and_x_l_z_with fuel s v core x_l_z d a y = Ok (true, core') ->
  is_non_overflow s a (rhs x_l_z) = true /\
  exists omega,
    push_omega fuel s [] a (rhs x_l_z) = Ok omega /\
    core' = after core
              (propagate_ops s x_l_z d
                 (ineq (is_strict x_l_z || is_strict d)
                       y (mul (bit_size s) a (rhs x_l_z)))
                 ([as_signed_constraint x_l_z; as_signed_constraint d]
                  ++ omega)).
Proof.
  unfold try_y_l_ax_and_x_l_z_with.
  destruct (is_non_overflow s a (rhs x_l_z)); simpl; [| discriminate].
  intros Hrun. split; [reflexivity |].
  apply propagate_ineq_success in Hrun. exact Hrun.
Qed.

Section RuleSoundness.

Variable s : solver.
Variable rho : pvar -> Z.

Hypothesis viable_nonneg : forall u, 0 <= max_viable s u.
Hypothesis cjust_bounds :
  forall u, Forall (fun l => holds (bit_size s) rho l = true) (m_cjust s u) ->
            rho u mod bound s <= max_viable s u.

Lemma holds_nonzero (p : pdd) :
  holds (bit_size s) rho (negate (eq0 p)) = true ->
  eval (bit_size s) rho p <> 0.
Proof.
  unfold holds, negate, eq0. simpl.
  destruct (Z.eqb_spec (eval (bit_size s) rho p) 0); [discriminate | auto].
Qed.

Lemma ineq_holds_le (c : inequality) :
  ineq_holds (bit_size s) rho c = true ->
  eval (bit_size s) rho (lhs c) <= eval (bit_size s) rho (rhs c).
Proof.
  unfold ineq_holds. destruct (is_strict c); intros H.
  - apply Z.ltb_lt in H. lia.
  - apply Z.leb_le in H. exact H.
Qed.

Lemma ineq_holds_lt (c : inequality) :
  is_strict c = true -> ineq_holds (bit_size s) rho c = true ->
  eval (bit_size s) rho (lhs c) < eval (bit_size s) rho (rhs c).
Proof.
  unfold ineq_holds. intros ->. apply Z.ltb_lt.
Qed.

Lemma is_xY_l_xZ_sound (v : pvar) (c : inequality) (y z : pdd) :
  is_xY_l_xZ v c = Some (y, z) ->
  eval (bit_size s) rho (lhs c)
  = (eval (bit_size s) rho (var v) * eval (bit_size s) rho y) mod bound s /\
  eval (bit_size s) rho (rhs c)
  = (eval (bit_size s) rho (var v) * eval (bit_size s) rho z) mod bound s.
Proof.
  unfold is_xY_l_xZ.
  destruct (is_xY v (lhs c)) as [y' |] eqn:Hl; [| discriminate].
  destruct (is_xY v (rhs c)) as [z' |] eqn:Hr; [| discriminate].
  intros [= <- <-]. split; apply is_xY_sound; assumption.
Qed.

(** What try_ugt_x derives follows from what it inserts. *)
Lemma try_ugt_x_entails (fuel : nat) (v : pvar) (c : inequality) (y z : pdd)
      (omega : list signed_constraint) :
  is_xY_l_xZ v c = Some (y, z) ->
  is_non_overflow s (var v) y = true ->
  push_omega fuel s [] (var v) y = Ok omega ->
  ineq_holds (bit_size s) rho c = true ->
  Forall (fun l => holds (bit_size s) rho l = true)
         ((if is_strict c then [] else [negate (eq0 (var v))]) ++ omega) ->
  holds (bit_size s) rho (ineq (is_strict c) y z) = true.
Proof.
  intros Hm Hno Homega Hc Hprem.
  apply Forall_app in Hprem. destruct Hprem as [Hpre Hom].
  destruct (is_xY_l_xZ_sound _ _ _ _ Hm) as [Hl Hr].
  pose proof (push_omega_sound s rho viable_nonneg cjust_bounds
                               _ _ _ _ Hno Homega Hom) as Hprod.
  pose proof (eval_range s rho (var v)) as HX.
  pose proof (eval_range s rho y) as HA.
  pose proof (eval_range s rho z) as HB.
  rewrite holds_ineq. unfold ineq_holds in Hc. rewrite Hl, Hr in Hc.
  destruct (is_strict c).
  - apply Z.ltb_lt in Hc. apply Z.ltb_lt.
    eapply cancel_lt; [| | | exact Hprod | exact Hc]; lia.
  - apply Z.leb_le in Hc. apply Z.leb_le.
    inversion Hpre as [| ? ? Hnz _]; subst. apply holds_nonzero in Hnz.
    eapply cancel_le; [| | | exact Hprod | exact Hc]; lia.
Qed.

(** X1 (try_ugt_x, lines 266-282): the lemma of a successful try_ugt_x
    follows from its premises.  Under every valuation that respects the
    viable maxima, if the matched literal and the inserted premises hold,
    so does the lemma. *)
Theorem try_ugt_x_sound (fuel : nat) (v : pvar) (core core' : conflict_core)
        (c : inequality) :
  try_ugt_x fuel s v core c = Ok (true, core') ->
  exists lemma premises,
    core' = after core (propagate_ops s c c lemma premises) /\
    (ineq_holds (bit_size s) rho c = true ->
     Forall (fun l => holds (bit_size s) rho l = true) premises ->
     holds (bit_size s) rho lemma = true).
Proof.
  intros Hrun. apply try_ugt_x_success in Hrun.
  destruct Hrun as (y & z & omega & Hm & Hno & Homega & ->).
  eexists _, _. split; [reflexivity |].
  intros Hc Hprem.
  exact (try_ugt_x_entails _ _ _ _ _ _ Hm Hno Homega Hc Hprem).
Qed.

(** What try_ugt_y derives follows from what it inserts. *)
Lemma try_ugt_y_entails (fuel : nat) (v : pvar) (le_y d : inequality)
      (x z : pdd) (omega : list signed_constraint) :
  is_l_v v le_y = true ->
  is_Xy_l_XZ v d = Some (x, z) ->
  is_strict d = true \/ is_strict le_y = false ->
  is_non_overflow s x (var v) = true ->
  push_omega fuel s [] x (var v) = Ok omega ->
  ineq_holds (bit_size s) rho le_y = true ->
  ineq_holds (bit_size s) rho d = true ->
  Forall (fun l => holds (bit_size s) rho l = true) omega ->
  holds (bit_size s) rho
        (ineq (is_strict d || is_strict le_y)
              (mul (bit_size s) (lhs le_y) x) (mul (bit_size s) z x)) = true.
Proof.
  intros Hlv Hm Hstrict Hno Homega Hc Hd Hom.
  pose proof (push_omega_sound s rho viable_nonneg cjust_bounds
                               _ _ _ _ Hno Homega Hom) as Hprod.
  unfold is_l_v in Hlv. apply pdd_eqb_eq in Hlv.
  unfold is_Xy_l_XZ in Hm.
  destruct (is_xY v (lhs d)) as [x' |] eqn:Hl; [| discriminate].
  destruct (is_coeffxY x' (rhs d)) as [z' |] eqn:Hr; [| discriminate].
  injection Hm as -> ->.
  apply (is_xY_sound s rho) in Hl. apply (is_coeffxY_sound s rho) in Hr.
  pose proof (eval_range s rho (var v)) as HV.
  pose proof (eval_range s rho x) as HX.
  pose proof (eval_range s rho (lhs le_y)) as HZp.
  pose proof (ineq_holds_le _ Hc) as Hle. rewrite Hlv in Hle.
  assert (Hmono :
            (eval (bit_size s) rho x * eval (bit_size s) rho (lhs le_y))
              mod bound s
            <= (eval (bit_size s) rho x * eval (bit_size s) rho (var v))
                 mod bound s).
  { apply below_no_overflow; lia. }
  rewrite holds_ineq, !eval_mul.
  rewrite (Z.mul_comm (eval (bit_size s) rho (lhs le_y))).
  rewrite (Z.mul_comm (eval (bit_size s) rho z)).
  rewrite (Z.mul_comm (eval (bit_size s) rho (var v))) in Hl.
  destruct (is_strict d) eqn:Hsd; simpl.
  - apply (ineq_holds_lt _ Hsd) in Hd. apply Z.ltb_lt. lia.
  - destruct Hstrict as [| ->]; [discriminate |].
    apply ineq_holds_le in Hd. apply Z.leb_le. lia.
Qed.

(** X2 (try_ugt_y, lines 286-302): the lemma of a successful try_ugt_y
    follows from its premises when it is not made strict by the anchor
    alone, that is when the product literal is strict or the anchor is
    not. *)
Theorem try_ugt_y_with_sound (fuel : nat) (v : pvar)
        (core core' : conflict_core) (le_y d : inequality) (x z : pdd) :
  is_l_v v le_y = true ->
  is_Xy_l_XZ v d = Some (x, z) ->
  is_strict d = true \/ is_strict le_y = false ->
  try_ugt_y_with fuel s v core le_y d x z = Ok (true, core') ->
  exists lemma omega,
    core' = after core
              (propagate_ops s le_y d lemma
                 ([as_signed_constraint le_y; as_signed_constraint d]
                  ++ omega)) /\
    (ineq_holds (bit_size s) rho le_y = true ->
     ineq_holds (bit_size s) rho d = true ->
     Forall (fun l => holds (bit_size s) rho l = true) omega ->
     holds (bit_size s) rho lemma = true).
Proof.
  intros Hlv Hm Hstrict Hrun. apply try_ugt_y_with_success in Hrun.
  destruct Hrun as (Hno & omega & Homega & ->).
  eexists _, omega. split; [reflexivity |].
  intros Hc Hd Hom.
  exact (try_ugt_y_entails _ _ _ _ _ _ _ Hlv Hm Hstrict Hno Homega Hc Hd Hom).
Qed.

(** What try_ugt_z derives follows from what it inserts. *)
Lemma try_ugt_z_entails (fuel : nat) (v : pvar) (z_l_y d : inequality)
      (x y : pdd) (omega : list signed_constraint) :
  is_g_v v z_l_y = true ->
  is_YX_l_zX v d = Some (x, y) ->
  is_strict d = true \/ is_strict z_l_y = false ->
  is_non_overflow s x (rhs z_l_y) = true ->
  push_omega fuel s [] x (rhs z_l_y) = Ok omega ->
  ineq_holds (bit_size s) rho z_l_y = true ->
  ineq_holds (bit_size s) rho d = true ->
  Forall (fun l => holds (bit_size s) rho l = true) omega ->
  holds (bit_size s) rho
        (ineq (is_strict z_l_y || is_strict d)
              (mul (bit_size s) y x) (mul (bit_size s) (rhs z_l_y) x)) = true.
Proof.
  intros Hgv Hm Hstrict Hno Homega Hc Hd Hom.
  pose proof (push_omega_sound s rho viable_nonneg cjust_bounds
                               _ _ _ _ Hno Homega Hom) as Hprod.
  unfold is_g_v in Hgv. apply pdd_eqb_eq in Hgv.
  unfold is_YX_l_zX in Hm.
  destruct (is_xY v (rhs d)) as [x' |] eqn:Hr; [| discriminate].
  destruct (is_coeffxY x' (lhs d)) as [y' |] eqn:Hl; [| discriminate].
  injection Hm as -> ->.
  apply (is_xY_sound s rho) in Hr. apply (is_coeffxY_sound s rho) in Hl.
  pose proof (eval_range s rho (var v)) as HV.
  pose proof (eval_range s rho x) as HX.
  pose proof (eval_range s rho (rhs z_l_y)) as HY'.
  pose proof (ineq_holds_le _ Hc) as Hle. rewrite Hgv in Hle.
  assert (Hmono :
            (eval (bit_size s) rho x * eval (bit_size s) rho (var v))
              mod bound s
            <= (eval (bit_size s) rho x * eval (bit_size s) rho (rhs z_l_y))
                 mod bound s).
  { apply below_no_overflow; lia. }
  rewrite holds_ineq, !eval_mul.
  rewrite (Z.mul_comm (eval (bit_size s) rho y)).
  rewrite (Z.mul_comm (eval (bit_size s) rho (rhs z_l_y))).
  rewrite (Z.mul_comm (eval (bit_size s) rho (var v))) in Hr.
  destruct (is_strict d) eqn:Hsd.
  - rewrite orb_true_r.
    apply (ineq_holds_lt _ Hsd) in Hd. apply Z.ltb_lt. lia.
  - destruct Hstrict as [| ->]; [discriminate |]. simpl.
    apply ineq_holds_le in Hd. apply Z.leb_le. lia.
Qed.

(** X3 (try_ugt_z, lines 369-381): the lemma of a successful try_ugt_z
    follows from its premises when it is not made strict by the anchor
    alone, that is when the product literal is strict or the anchor is
    not. *)
Theorem try_ugt_z_with_sound (fuel : nat) (v : pvar)
        (core core' : conflict_core) (z_l_y d : inequality) (x y : pdd) :
  is_g_v v z_l_y = true ->
  is_YX_l_zX v d = Some (x, y) ->
  is_strict d = true \/ is_strict z_l_y = false ->
  try_ugt_z_with fuel s v core z_l_y d x y = Ok (true, core') ->
  exists lemma omega,
    core' = after core
              (propagate_ops s z_l_y d lemma
                 ([as_signed_constraint z_l_y; as_signed_constraint d]
                  ++ omega)) /\
    (ineq_holds (bit_size s) rho z_l_y = true ->
     ineq_holds (bit_size s) rho d = true ->
     Forall (fun l => holds (bit_size s) rho l = true) omega ->
     holds (bit_size s) rho lemma = true).
Proof.
  intros Hgv Hm Hstrict Hrun. apply try_ugt_z_with_success in Hrun.
  destruct Hrun as (Hno & omega & Homega & ->).
  eexists _, omega. split; [reflexivity |].
  intros Hc Hd Hom.
  exact (try_ugt_z_entails _ _ _ _ _ _ _ Hgv Hm Hstrict Hno Homega Hc Hd Hom).
Qed.

(** What try_y_l_ax_and_x_l_z derives follows from what it inserts. *)
Lemma try_y_l_ax_and_x_l_z_entails (fuel : nat) (v : pvar)
      (x_l_z d : inequality) (a y : pdd) (omega : list signed_constraint) :
  is_g_v v x_l_z = true ->
  is_Y_l_Ax v d = Some (a, y) ->
  is_strict d = true \/ is_strict x_l_z = false ->
  is_non_overflow s a (rhs x_l_z) = true ->
  push_omega fuel s [] a (rhs x_l_z) = Ok omega ->
  ineq_holds (bit_size s) rho x_l_z = true ->
  ineq_holds (bit_size s) rho d = true ->
  Forall (fun l => holds (bit_size s) rho l = true) omega ->
  holds (bit_size s) rho
        (ineq (is_strict x_l_z || is_strict d)
              y (mul (bit_size s) a (rhs x_l_z))) = true.
Proof.
  intros Hgv Hm Hstrict Hno Homega Hc Hd Hom.
  pose proof (push_omega_sound s rho viable_nonneg cjust_bounds
                               _ _ _ _ Hno Homega Hom) as Hprod.
  unfold is_g_v in Hgv. apply pdd_eqb_eq in Hgv.
  unfold is_Y_l_Ax in Hm.
  destruct (is_xY v (rhs d)) as [a' |] eqn:Hr; [| discriminate].
  injection Hm as -> <-.
  apply (is_xY_sound s rho) in Hr.
  pose proof (eval_range s rho (var v)) as HV.
  pose proof (eval_range s rho a) as HA.
  pose proof (eval_range s rho (rhs x_l_z)) as HZ.
  pose proof (ineq_holds_le _ Hc) as Hle. rewrite Hgv in Hle.
  assert (Hmono :
            (eval (bit_size s) rho a * eval (bit_size s) rho (var v))
              mod bound s
            <= (eval (bit_size s) rho a * eval (bit_size s) rho (rhs x_l_z))
                 mod bound s).
  { apply below_no_overflow; lia. }
  rewrite holds_ineq, eval_mul.
  rewrite (Z.mul_comm (eval (bit_size s) rho (var v))) in Hr.
  destruct (is_strict d) eqn:Hsd.
  - rewrite orb_true_r.
    apply (ineq_holds_lt _ Hsd) in Hd. apply Z.ltb_lt. lia.
  - destruct Hstrict as [| ->]; [discriminate |]. simpl.
    apply ineq_holds_le in Hd. apply Z.leb_le. lia.
Qed.

(** X4 (try_y_l_ax_and_x_l_z, lines 337-349): the lemma of a successful
    try_y_l_ax_and_x_l_z follows from its premises when it is not made
    strict by the anchor alone, that is when the companion literal is
    strict or the anchor is not. *)
Theorem try_y_l_ax_and_x_l_z_with_sound (fuel : nat) (v : pvar)
        (core core' : conflict_core) (x_l_z d : inequality) (a y : pdd) :
  is_g_v v x_l_z = true ->
  is_Y_l_Ax v d = Some (a, y) ->
  is_strict d = true \/ is_strict x_l_z = false ->
  try_y_l_ax_and_x_l_z_with fuel s v core x_l_z d a y = Ok (true, core') ->
  exists lemma omega,
    core' = after core
              (propagate_ops s x_l_z d lemma
                 ([as_signed_constraint x_l_z; as_signed_constraint d]
                  ++ omega)) /\
    (ineq_holds (bit_size s) rho x_l_z = true ->
     ineq_holds (bit_size s) rho d = true ->
     Forall (fun l => holds (bit_size s) rho l = true) omega ->
     holds (bit_size s) rho lemma = true).
Proof.
  intros Hgv Hm Hstrict Hrun.
  apply try_y_l_ax_and_x_l_z_with_success in Hrun.
  destruct Hrun as (Hno & omega & Homega & ->).
  eexists _, omega. split; [reflexivity |].
  intros Hc Hd Hom.
  exact (try_y_l_ax_and_x_l_z_entails _ _ _ _ _ _ _ Hgv Hm Hstrict Hno Homega Hc Hd Hom).
Qed.

End RuleSoundness.

(** ** An invalid lemma *)

(** C1 (try_ugt_y, lines 286-302, with try_ugt_z and
    try_y_l_ax_and_x_l_z).  The paired rules make the lemma strict as soon
    as either premise is strict.  At width 4, on the core that holds
    z' < v and v*x <= z*x, with every variable assigned 0 and unconstrained,
    [perform] returns true through try_ugt_y: it keeps both premises, sets
    the core to the lemma z'*x < z*x and inserts the premises z' < v,
    v*x <= z*x, x <= 5 and v <= 3.  Under the valuation x = 0, v = 1,
    z' = 0, z = 0 every premise is true and the lemma 0 < 0 is false. *)
Theorem try_ugt_y_derives_invalid_lemma :
  perform 10 solverB vB coreB
  = Ok (true,
        after coreB ([Keep le_yB; Keep yx_l_zxB; SetLit lemmaB]
                     ++ map Insert ([le_yB; yx_l_zxB] ++ omegaB))) /\
  (forall u, 0 <= rhoB u < 2 ^ 4) /\
  forallb (holds 4 rhoB) ([le_yB; yx_l_zxB] ++ omegaB) = true /\
  holds 4 rhoB lemmaB = false.
Proof.
  repeat split; try reflexivity;
    unfold rhoB; destruct (Nat.eqb u vB); lia.
Qed.

(** The same defect in try_ugt_z: from v < y' and y*x <= v*x it derives
    y*x < y'*x, which fails for x = 0, y' = 1. *)
Lemma try_ugt_z_derives_invalid_lemma :
  perform 10 solverB vB coreBz
  = Ok (true,
        after coreBz ([Keep z_l_yB; Keep yx_l_vxB; SetLit lemmaBz]
                      ++ map Insert ([z_l_yB; yx_l_vxB] ++ omegaBz))) /\
  forallb (holds 4 rhoBz) ([z_l_yB; yx_l_vxB] ++ omegaBz) = true /\
  holds 4 rhoBz lemmaBz = false.
Proof. repeat split. Qed.

(** The same defect in try_y_l_ax_and_x_l_z: from v < z and y <= a*v it
    derives y < a*z, which fails for a = 0, y = 0, z = 1. *)
Lemma try_y_l_ax_and_x_l_z_derives_invalid_lemma :
  perform 10 solverB vB coreBa
  = Ok (true,
        after coreBa ([Keep z_l_yB; Keep y_l_avB; SetLit lemmaBa]
                      ++ map Insert ([z_l_yB; y_l_avB] ++ omegaBz))) /\
  forallb (holds 4 rhoBz) ([z_l_yB; y_l_avB] ++ omegaBz) = true /\
  holds 4 rhoBz lemmaBa = false.
Proof. repeat split. Qed.

(** ** More on the bisection *)

Lemma div2_le (a b m : Z) : a <= m -> b <= m -> (a + b) / 2 <= m.
Proof.
  intros Ha Hb. apply Z.div_le_upper_bound; lia.
Qed.

Lemma joint_body_below (bound x_max y_max : Z) (b : Bisect.brackets) :
  brackets_below x_max y_max b ->
  brackets_below x_max y_max (Bisect.joint_body bound b).
Proof.
  unfold brackets_below, Bisect.joint_body.
  intros (Hxl & Hxh & Hyl & Hyh).
  pose proof (div2_le _ _ _ Hxh Hxl). pose proof (div2_le _ _ _ Hyh Hyl).
  destruct (_ >=? bound); simpl; lia.
Qed.

Lemma x_body_below (bound x_max y_max : Z) (b : Bisect.brackets) :
  brackets_below x_max y_max b ->
  brackets_below x_max y_max (Bisect.x_body bound b).
Proof.
  unfold brackets_below, Bisect.x_body.
  intros (Hxl & Hxh & Hyl & Hyh).
  pose proof (div2_le _ _ _ Hxh Hxl).
  destruct (_ >=? bound); simpl; lia.
Qed.

Lemma y_body_below (bound x_max y_max : Z) (b : Bisect.brackets) :
  brackets_below x_max y_max b ->
  brackets_below x_max y_max (Bisect.y_body bound b).
Proof.
  unfold brackets_below, Bisect.y_body.
  intros (Hxl & Hxh & Hyl & Hyh).
  pose proof (div2_le _ _ _ Hyh Hyl).
  destruct (_ >=? bound); simpl; lia.
Qed.

(** The corner the bisection returns is below the maxima. *)
Lemma bisect_below (fuel : nat) (bound x_val x_max y_val y_max a b : Z) :
  x_val <= x_max -> y_val <= y_max ->
  Bisect.bisect fuel bound x_val x_max y_val y_max = Ok (a, b) ->
  a <= x_max /\ b <= y_max.
Proof.
  intros Hx Hy Hrun. unfold Bisect.bisect, Bisect.joint in Hrun.
  destruct (while fuel Bisect.joint_cond (Bisect.joint_body bound) _)
    as [b1 | |] eqn:Hjoint; simpl in Hrun; try discriminate.
  apply (while_invariant (brackets_below x_max y_max)) in Hjoint;
    [| intros; apply joint_body_below; assumption
     | unfold brackets_below; simpl; lia ].
  destruct Hjoint as [(H1 & H2 & H3 & H4) _].
  destruct (Bisect.extend fuel bound x_max y_max b1) as [b2 | |] eqn:Hext;
    simpl in Hrun; try discriminate.
  injection Hrun as <- <-.
  assert (Hb2 : brackets_below x_max y_max b2).
  { unfold Bisect.extend in Hext.
    destruct (_ <? bound).
    - apply (while_invariant (brackets_below x_max y_max)) in Hext;
        [ tauto | intros; apply x_body_below; assumption
        | unfold brackets_below; simpl; lia ].
    - destruct (_ <? bound).
      + apply (while_invariant (brackets_below x_max y_max)) in Hext;
          [ tauto | intros; apply y_body_below; assumption
          | unfold brackets_below; simpl; lia ].
      + injection Hext as <-. unfold brackets_below; lia. }
  unfold brackets_below in Hb2. lia.
Qed.

Lemma bound_is_positive (s : solver) : 0 < bound s.
Proof. unfold bound. apply Z.pow_pos_nonneg; lia. Qed.

Lemma try_eval_range (s : solver) (p : pdd) (z : Z) :
  try_eval s p = Some z -> 0 <= z < bound s.
Proof.
  unfold try_eval. destruct (subst_val (assignment s) p); [| discriminate].
  intros [= <-]. apply Z.mod_pos_bound, bound_is_positive.
Qed.

(** X6 (push_omega_bisect, lines 92-146): when is_non_overflow holds for x
    and y and their values are at most the maxima handed in, a call that
    returns has appended exactly the two literals x <= a and y <= b to the
    premises, with 0 <= a <= x_max, 0 <= b <= y_max and a * b below the
    bound: the two bounds together exclude an overflow of x * y. *)
Theorem push_omega_bisect_returns (fuel : nat) (s : solver)
        (ncs : list signed_constraint) (x : pdd) (x_max : Z) (y : pdd)
        (y_max : Z) (r : list signed_constraint) :
  is_non_overflow s x y = true ->
  (forall x_val, try_eval s x = Some x_val -> x_val <= x_max) ->
  (forall y_val, try_eval s y = Some y_val -> y_val <= y_max) ->
  push_omega_bisect fuel s ncs x x_max y y_max = Ok r ->
  exists a b,
    r = ncs ++ [ule x (mk_val (bit_size s) a); ule y (mk_val (bit_size s) b)] /\
    0 <= a <= x_max /\ 0 <= b <= y_max /\ a * b < bound s.
Proof.
  intros Hno Hx Hy Hrun. unfold is_non_overflow in Hno.
  unfold push_omega_bisect in Hrun.
  destruct (try_eval s x) as [x_val |] eqn:Hxv; [| discriminate].
  destruct (try_eval s y) as [y_val |] eqn:Hyv; [| discriminate].
  apply Z.ltb_lt in Hno.
  pose proof (try_eval_range _ _ _ Hxv) as Hxr.
  pose proof (try_eval_range _ _ _ Hyv) as Hyr.
  specialize (Hx _ eq_refl). specialize (Hy _ eq_refl).
  destruct (Bisect.bisect fuel (bound s) x_val x_max y_val y_max)
    as [[a b] | |] eqn:Hb; simpl in Hrun; try discriminate.
  injection Hrun as <-.
  pose proof (bisect_below _ _ _ _ _ _ _ _ Hx Hy Hb) as [Ha Hb'].
  apply bisect_no_overflow in Hb; try lia.
  exists a, b. repeat split; try lia; reflexivity.
Qed.

Lemma half_of_odd (x d : Z) : 0 <= d <= 1 -> (x + d + x) / 2 = x.
Proof.
  intros Hd. symmetry. apply Z.div_unique with (r := d); lia.
Qed.

(** X7 (push_omega_bisect, loops at lines 103-133): brackets of width one
    whose lower corner does not overflow are never left.  The floor midpoint
    is the lower end, the product test takes the branch [lo = mid], and the
    state repeats: the x-extension loop, the y-extension loop and the whole
    search started on such brackets do not return, whatever the fuel. *)
Theorem bisection_stuck_at_width_one (bound x y : Z) :
  x * y < bound ->
  (forall fuel y_hi,
      while fuel Bisect.x_cond (Bisect.x_body bound)
            (Bisect.mk_brackets x (x + 1) y y_hi) = Diverge) /\
  (forall fuel x_hi,
      while fuel Bisect.y_cond (Bisect.y_body bound)
            (Bisect.mk_brackets x x_hi y (y + 1)) = Diverge) /\
  (forall fuel dx dy,
      0 <= dx <= 1 -> 0 <= dy <= 1 -> 0 < dx + dy ->
      Bisect.bisect fuel bound x (x + dx) y (y + dy) = Diverge).
Proof.
  intros Hprod. split; [| split].
  - intros fuel y_hi. apply while_runs_forever. apply rf_stuck.
    + unfold Bisect.x_cond. simpl. apply Z.ltb_lt. lia.
    + unfold Bisect.x_body. simpl. rewrite (half_of_odd x 1) by lia.
      destruct (Z.geb_spec (x * y) bound); [lia | reflexivity].
  - intros fuel x_hi. apply while_runs_forever. apply rf_stuck.
    + unfold Bisect.y_cond. simpl. apply Z.ltb_lt. lia.
    + unfold Bisect.y_body. simpl. rewrite (half_of_odd y 1) by lia.
      destruct (Z.geb_spec (y * x) bound); [lia | reflexivity].
  - intros fuel dx dy Hdx Hdy Hd. unfold Bisect.bisect, Bisect.joint.
    rewrite while_runs_forever; [reflexivity |]. apply rf_stuck.
    + unfold Bisect.joint_cond. simpl. apply orb_true_iff.
      destruct (Z.eq_dec dx 1); [left | right]; apply Z.ltb_lt; lia.
    + unfold Bisect.joint_body. simpl.
      rewrite (half_of_odd x dx), (half_of_odd y dy) by lia.
      destruct (Z.geb_spec (x * y) bound); [lia | reflexivity].
Qed.

(** ** VERIFY is never reached with an unassigned term *)

Lemma bisect_not_abort (fuel : nat) (bound x_val x_max y_val y_max : Z) :
  Bisect.bisect fuel bound x_val x_max y_val y_max <> Abort.
Proof.
  unfold Bisect.bisect, Bisect.joint.
  destruct (while fuel Bisect.joint_cond _ _) as [b1 | |] eqn:Hj; simpl;
    [| discriminate | exact (fun _ => while_not_abort _ _ _ _ Hj)].
  unfold Bisect.extend.
  destruct (_ <? bound).
  - destruct (while fuel Bisect.x_cond _ _) as [b2 | |] eqn:Hx; simpl;
      [discriminate | discriminate
       | exact (fun _ => while_not_abort _ _ _ _ Hx)].
  - destruct (_ <? bound); [| discriminate].
    destruct (while fuel Bisect.y_cond _ _) as [b2 | |] eqn:Hy; simpl;
      [discriminate | discriminate
       | exact (fun _ => while_not_abort _ _ _ _ Hy)].
Qed.

Lemma push_omega_not_abort (fuel : nat) (s : solver)
      (ncs : list signed_constraint) (x y : pdd) :
  is_non_overflow s x y = true -> push_omega fuel s ncs x y <> Abort.
Proof.
  unfold is_non_overflow, push_omega, push_omega_bisect. intros Hno.
  destruct (_ >=? bound s); [| discriminate].
  destruct (try_eval s x) as [x_val |]; [| discriminate].
  destruct (try_eval s y) as [y_val |]; [| discriminate].
  destruct (Bisect.bisect fuel (bound s) x_val _ y_val _) as [lo | |] eqn:Hb;
    simpl; [discriminate | discriminate |].
  exfalso. exact (bisect_not_abort _ _ _ _ _ _ Hb).
Qed.

Lemma propagate_after_omega_not_abort (fuel : nat) (s : solver)
      (core : conflict_core) (crit1 crit2 : inequality) (strict : bool)
      (p q : pdd) (pre : list signed_constraint) (x y : pdd) :
  is_non_overflow s x y = true ->
  (ncs <- push_omega fuel s pre x y ;;
   Ok (propagate_ineq s core crit1 crit2 strict p q ncs)) <> Abort.
Proof.
  intros Hno.
  destruct (push_omega fuel s pre x y) as [ncs | |] eqn:Hp; simpl;
    [discriminate | discriminate |].
  exfalso. exact (push_omega_not_abort _ _ _ _ _ Hno Hp).
Qed.

Lemma orelse_never_aborts (a b : attempt) :
  never_aborts a -> never_aborts b -> never_aborts (orelse a b).
Proof.
  intros Ha Hb core. unfold orelse.
  destruct (a core) as [[ok core1] | |] eqn:Hac; simpl.
  - destruct ok; [discriminate | apply Hb].
  - discriminate.
  - exfalso. exact (Ha _ Hac).
Qed.

Lemma for_each_ule_never_aborts (lits : list signed_constraint)
      (body : inequality -> attempt) :
  (forall c, never_aborts (body c)) -> never_aborts (for_each_ule lits body).
Proof.
  intros Hbody. induction lits as [| c1 rest IH]; intros core; simpl.
  - discriminate.
  - destruct (as_inequality c1) as [c |]; [| apply IH].
    destruct (body c core) as [[ok core1] | |] eqn:Hb; simpl.
    + destruct ok; [discriminate | apply IH].
    + discriminate.
    + exfalso. exact (Hbody _ _ Hb).
Qed.

Lemma try_ugt_x_never_aborts (fuel : nat) (s : solver) (v : pvar)
      (c : inequality) :
  never_aborts (fun core => try_ugt_x fuel s v core c).
Proof.
  intros core. unfold try_ugt_x.
  destruct (is_xY_l_xZ v c) as [[y z] |]; [| discriminate].
  destruct (is_non_overflow s (var v) y) eqn:Hno; simpl; [| discriminate].
  destruct (negb (is_strict c) && (get_value s v =? 0)); [discriminate |].
  apply propagate_after_omega_not_abort. exact Hno.
Qed.

Lemma try_ugt_y_never_aborts (fuel : nat) (s : solver) (v : pvar)
      (c : inequality) :
  never_aborts (fun core => try_ugt_y fuel s v core c).
Proof.
  intros core. unfold try_ugt_y.
  destruct (negb (is_l_v v c)); [discriminate |].
  apply for_each_ule_never_aborts. intros d core1.
  destruct (is_Xy_l_XZ v d) as [[x z] |]; [| discriminate].
  unfold try_ugt_y_with.
  destruct (is_non_overflow s x (var v)) eqn:Hno; simpl; [| discriminate].
  apply propagate_after_omega_not_abort. exact Hno.
Qed.

Lemma try_ugt_z_never_aborts (fuel : nat) (s : solver) (v : pvar)
      (c : inequality) :
  never_aborts (fun core => try_ugt_z fuel s v core c).
Proof.
  intros core. unfold try_ugt_z.
  destruct (negb (is_g_v v c)); [discriminate |].
  apply for_each_ule_never_aborts. intros d core1.
  destruct (is_YX_l_zX v d) as [[x y] |]; [| discriminate].
  unfold try_ugt_z_with.
  destruct (is_non_overflow s x (rhs c)) eqn:Hno; simpl; [| discriminate].
  apply propagate_after_omega_not_abort. exact Hno.
Qed.

Lemma try_y_l_ax_and_x_l_z_never_aborts (fuel : nat) (s : solver) (v : pvar)
      (c : inequality) :
  never_aborts (fun core => try_y_l_ax_and_x_l_z fuel s v core c).
Proof.
  intros core. unfold try_y_l_ax_and_x_l_z.
  destruct (negb (is_g_v v c)); [discriminate |].
  apply for_each_ule_never_aborts. intros d core1.
  destruct (is_Y_l_Ax v d) as [[a y] |]; [| discriminate].
  unfold try_y_l_ax_and_x_l_z_with.
  destruct (is_non_overflow s a (rhs c)) eqn:Hno; simpl; [| discriminate].
  apply propagate_after_omega_not_abort. exact Hno.
Qed.

(** X8 (perform, lines 32-47, with the VERIFYs of push_omega_bisect at
    lines 97-98): no call of perform fails a VERIFY.  Every rule checks
    is_non_overflow before it reaches push_omega, so both terms evaluate
    whenever the bisection is entered. *)
Theorem perform_never_aborts (fuel : nat) (s : solver) (v : pvar)
        (core : conflict_core) :
  perform fuel s v core <> Abort.
Proof.
  unfold perform. apply for_each_ule_never_aborts. intros c.
  repeat apply orelse_never_aborts.
  - apply try_ugt_x_never_aborts.
  - apply try_ugt_y_never_aborts.
  - apply try_ugt_z_never_aborts.
  - apply try_y_l_ax_and_x_l_z_never_aborts.
Qed.

(** ** What a successful call has done *)

Lemma orelse_success (a b : attempt) (core core' : conflict_core) :
  frames a ->
  orelse a b core = Ok (true, core') ->
  a core = Ok (true, core') \/ b core = Ok (true, core').
Proof.
  intros Ha. unfold orelse.
  destruct (a core) as [[ok core1] | |] eqn:Hac; simpl; try discriminate.
  destruct ok.
  - intros [= <-]. left. reflexivity.
  - apply Ha in Hac. subst core1. intros Hb. right. exact Hb.
Qed.

Lemma perform_success_cases (fuel : nat) (s : solver) (v : pvar)
      (core core' : conflict_core) :
  perform fuel s v core = Ok (true, core') ->
  exists c,
    In c (inequalities core) /\
    (try_ugt_x fuel s v core c = Ok (true, core') \/
     try_ugt_y fuel s v core c = Ok (true, core') \/
     try_ugt_z fuel s v core c = Ok (true, core') \/
     try_y_l_ax_and_x_l_z fuel s v core c = Ok (true, core')).
Proof.
  unfold perform. intros Hrun. apply for_each_ule_success in Hrun.
  - destruct Hrun as (c & Hc & Hrun). exists c. split; [exact Hc |].
    apply orelse_success in Hrun; [| apply try_ugt_x_frames].
    destruct Hrun as [Hx | Hrun]; [auto |].
    apply orelse_success in Hrun; [| apply try_ugt_y_frames].
    destruct Hrun as [Hy | Hrun]; [auto |].
    apply orelse_success in Hrun; [| apply try_ugt_z_frames].
    destruct Hrun as [Hz | Ha]; auto.
  - intros c. repeat apply orelse_frames.
    + apply try_ugt_x_frames.
    + apply try_ugt_y_frames.
    + apply try_ugt_z_frames.
    + apply try_y_l_ax_and_x_l_z_frames.
Qed.

Lemma propagate_after_omega_gate (fuel : nat) (s : solver)
      (core core' : conflict_core) (crit1 crit2 : inequality)
      (strict : bool) (p q : pdd) (pre : list signed_constraint)
      (x y : pdd) :
  (ncs <- push_omega fuel s pre x y ;;
   Ok (propagate_ineq s core crit1 crit2 strict p q ncs)) = Ok (true, core') ->
  some_crit_false s crit1 crit2 = true /\
  candidate_false s (ineq strict p q) = true /\
  exists premises,
    core' = after core (propagate_ops s crit1 crit2 (ineq strict p q) premises).
Proof.
  destruct (push_omega fuel s pre x y) as [ncs | |]; simpl; try discriminate.
  unfold propagate_ineq. intros [= Hrun].
  pose proof (propagate_true_gate _ _ _ _ _ _ _ Hrun) as [Hc Hl].
  rewrite propagate_eq, Hc, Hl in Hrun. simpl in Hrun.
  injection Hrun as <-. eauto.
Qed.

Lemma for_each_ule_success_in (core core' : conflict_core)
      (body : inequality -> attempt) :
  (forall d, frames (body d)) ->
  for_each_ule (core_lits core) body core = Ok (true, core') ->
  exists d, In d (inequalities core) /\ body d core = Ok (true, core').
Proof. apply for_each_ule_success. Qed.

(** Every successful rule has propagated once, with critical premises that
    are inequalities of the core. *)
Lemma rule_success_shape (fuel : nat) (s : solver) (v : pvar)
      (core core' : conflict_core) (c : inequality) :
  In c (inequalities core) ->
  try_ugt_x fuel s v core c = Ok (true, core') \/
  try_ugt_y fuel s v core c = Ok (true, core') \/
  try_ugt_z fuel s v core c = Ok (true, core') \/
  try_y_l_ax_and_x_l_z fuel s v core c = Ok (true, core') ->
  exists d lemma premises,
    In d (inequalities core) /\
    some_crit_false s c d = true /\
    candidate_false s lemma = true /\
    core' = after core (propagate_ops s c d lemma premises).
Proof.
  intros Hc [Hx | [Hy | [Hz | Ha]]].
  - unfold try_ugt_x in Hx.
    destruct (is_xY_l_xZ v c) as [[y z] |]; [| discriminate].
    destruct (negb (is_non_overflow s (var v) y)); [discriminate |].
    destruct (negb (is_strict c) && (get_value s v =? 0)); [discriminate |].
    apply propagate_after_omega_gate in Hx.
    destruct Hx as (H1 & H2 & P & ->). exists c. eauto 10.
  - unfold try_ugt_y in Hy.
    destruct (negb (is_l_v v c)); [discriminate |].
    apply for_each_ule_success_in in Hy.
    + destruct Hy as (d & Hd & Hy).
      destruct (is_Xy_l_XZ v d) as [[x z] |]; [| discriminate].
      unfold try_ugt_y_with in Hy.
      destruct (negb (is_non_overflow s x (var v))); [discriminate |].
      apply propagate_after_omega_gate in Hy.
      destruct Hy as (H1 & H2 & P & ->). exists d. eauto 10.
    + intros d core1 core2.
      destruct (is_Xy_l_XZ v d) as [[x z] |]; [| congruence].
      apply try_ugt_y_with_frames.
  - unfold try_ugt_z in Hz.
    destruct (negb (is_g_v v c)); [discriminate |].
    apply for_each_ule_success_in in Hz.
    + destruct Hz as (d & Hd & Hz).
      destruct (is_YX_l_zX v d) as [[x y] |]; [| discriminate].
      unfold try_ugt_z_with in Hz.
      destruct (negb (is_non_overflow s x (rhs c))); [discriminate |].
      apply propagate_after_omega_gate in Hz.
      destruct Hz as (H1 & H2 & P & ->). exists d. eauto 10.
    + intros d core1 core2.
      destruct (is_YX_l_zX v d) as [[x y] |]; [| congruence].
      apply try_ugt_z_with_frames.
  - unfold try_y_l_ax_and_x_l_z in Ha.
    destruct (negb (is_g_v v c)); [discriminate |].
    apply for_each_ule_success_in in Ha.
    + destruct Ha as (d & Hd & Ha).
      destruct (is_Y_l_Ax v d) as [[a y] |]; [| discriminate].
      unfold try_y_l_ax_and_x_l_z_with in Ha.
      destruct (negb (is_non_overflow s a (rhs c))); [discriminate |].
      apply propagate_after_omega_gate in Ha.
      destruct Ha as (H1 & H2 & P & ->). exists d. eauto 10.
    + intros d core1 core2.
      destruct (is_Y_l_Ax v d) as [[a y] |]; [| congruence].
      apply try_y_l_ax_and_x_l_z_with_frames.
Qed.

(** X10 (perform, lines 32-47, through propagate, lines 60-84): a call of
    perform that returns true has propagated exactly once.  The literals of
    the core are untouched, and the requests appended are: keep for two
    inequality literals of the core (one of them currently false), then the
    lemma (currently false; inserted negated when it is false on the trail,
    set otherwise), then one insert per premise. *)
Theorem perform_success_shape (fuel : nat) (s : solver) (v : pvar)
        (core core' : conflict_core) :
  perform fuel s v core = Ok (true, core') ->
  exists c d lemma premises,
    In c (inequalities core) /\ In d (inequalities core) /\
    some_crit_false s c d = true /\
    candidate_false s lemma = true /\
    core_lits core' = core_lits core /\
    core_ops core'
    = core_ops core
      ++ [Keep (as_signed_constraint c); Keep (as_signed_constraint d);
          if is_l_false (bvalue s lemma) then Insert (negate lemma)
          else SetLit lemma]
      ++ map Insert premises.
Proof.
  intros Hrun. apply perform_success_cases in Hrun.
  destruct Hrun as (c & Hc & Hcases).
  destruct (rule_success_shape _ _ _ _ _ _ Hc Hcases)
    as (d & lemma & premises & Hd & H1 & H2 & ->).
  exists c, d, lemma, premises. repeat split; assumption.
Qed.

(** ** The variable under analysis must be assigned *)

Lemma subst_val_unassigned (a : pvar -> option Z) (v : pvar) (p : pdd) :
  a v = None -> (0 < degree p v)%nat -> subst_val a p = None.
Proof.
  intros Hv. induction p as [c | u l IHl h IHh]; simpl; intros Hdeg.
  - lia.
  - destruct (Nat.ltb u v); [lia |].
    destruct (Nat.eqb_spec u v) as [-> | Hne].
    + rewrite Hv. reflexivity.
    + destruct (a u); [| reflexivity].
      destruct (Nat.max_spec (degree l v) (degree h v)) as [[_ Hm] | [_ Hm]];
        rewrite Hm in Hdeg.
      * rewrite (IHh Hdeg). reflexivity.
      * rewrite (IHl Hdeg). destruct (subst_val a h); reflexivity.
Qed.

Lemma try_eval_unassigned (s : solver) (v : pvar) (p : pdd) :
  assignment s v = None -> (0 < degree p v)%nat -> try_eval s p = None.
Proof.
  intros Hv Hdeg. unfold try_eval.
  now rewrite (subst_val_unassigned _ _ _ Hv Hdeg).
Qed.

Lemma degree_var (v : pvar) : degree (var v) v = 1%nat.
Proof. simpl. rewrite Nat.ltb_irrefl, Nat.eqb_refl. reflexivity. Qed.

Lemma try_eval_var_unassigned (s : solver) (v : pvar) :
  assignment s v = None -> try_eval s (var v) = None.
Proof.
  intros Hv. apply (try_eval_unassigned s v); [exact Hv |].
  rewrite degree_var. lia.
Qed.

Lemma is_xY_degree (v : pvar) (p y : pdd) :
  is_xY v p = Some y -> degree p v = 1%nat.
Proof.
  unfold is_xY. destruct (Nat.eqb_spec (degree p v) 1); [auto | discriminate].
Qed.

Lemma in_inequalities (lits : list signed_constraint) (c : inequality) :
  In c (inequalities_of lits) ->
  exists c1, In c1 lits /\ as_inequality c1 = Some c.
Proof.
  unfold inequalities_of. intros Hin. apply in_flat_map in Hin.
  destruct Hin as (c1 & Hc1 & Hin). exists c1. split; [exact Hc1 |].
  destruct (as_inequality c1) as [c' |]; simpl in Hin; [| contradiction].
  destruct Hin as [-> | []]. reflexivity.
Qed.

(** A literal with a side that does not evaluate is not currently false. *)
Lemma not_currently_false (s : solver) (c1 : signed_constraint)
      (c : inequality) :
  as_inequality c1 = Some c ->
  try_eval s (lhs c) = None \/ try_eval s (rhs c) = None ->
  is_currently_false s (as_signed_constraint c) = false.
Proof.
  intros Hc Hnone. rewrite (as_signed_of_as_inequality _ _ Hc).
  destruct c1 as [g pos]. unfold as_inequality in Hc. simpl in Hc.
  destruct g as [p q | p]; [| discriminate].
  unfold is_currently_false. simpl.
  destruct pos; injection Hc as <-; simpl in Hnone;
    destruct Hnone as [-> | ->]; try reflexivity;
    destruct (try_eval s p); reflexivity.
Qed.

Lemma is_non_overflow_unassigned_l (s : solver) (x y : pdd) :
  try_eval s x = None -> is_non_overflow s x y = false.
Proof. unfold is_non_overflow. now intros ->. Qed.

Lemma is_non_overflow_unassigned_r (s : solver) (x y : pdd) :
  try_eval s y = None -> is_non_overflow s x y = false.
Proof.
  unfold is_non_overflow. intros ->. destruct (try_eval s x); reflexivity.
Qed.

(** X11 (perform, lines 32-47; the guards at lines 272, 291, 342, 373):
    when the variable under analysis has no value, perform never returns
    true: every rule needs a term that mentions v to evaluate, either in
    is_non_overflow or in the gate of propagate. *)
Theorem perform_needs_assigned_variable (fuel : nat) (s : solver) (v : pvar)
        (core core' : conflict_core) (fired : bool) :
  assignment s v = None ->
  perform fuel s v core = Ok (fired, core') ->
  fired = false /\ core' = core.
Proof.
  intros Hv Hrun. destruct fired.
  2: { split; [reflexivity |]. exact (perform_frames _ _ _ _ _ Hrun). }
  exfalso. apply perform_success_cases in Hrun.
  destruct Hrun as (c & Hc & Hcases).
  destruct (in_inequalities _ _ Hc) as (c1 & _ & Hc1).
  pose proof (try_eval_var_unassigned s v Hv) as Hvar.
  assert (Hanchor : is_g_v v c = true ->
                    is_currently_false s (as_signed_constraint c) = false).
  { intros Hg. unfold is_g_v in Hg. apply pdd_eqb_eq in Hg.
    apply (not_currently_false _ _ _ Hc1). left. now rewrite Hg. }
  assert (Hcompanion :
            forall d x, In d (inequalities core) ->
                        is_xY v (rhs d) = Some x ->
                        is_currently_false s (as_signed_constraint d) = false).
  { intros d x Hd Hm. destruct (in_inequalities _ _ Hd) as (d1 & _ & Hd1).
    apply (not_currently_false _ _ _ Hd1). right.
    apply (try_eval_unassigned s v); [exact Hv |].
    rewrite (is_xY_degree _ _ _ Hm). lia. }
  destruct Hcases as [Hx | [Hy | [Hz | Ha]]].
  - unfold try_ugt_x in Hx.
    destruct (is_xY_l_xZ v c) as [[y z] |]; [| discriminate].
    rewrite (is_non_overflow_unassigned_l _ _ _ Hvar) in Hx. discriminate.
  - unfold try_ugt_y in Hy.
    destruct (negb (is_l_v v c)); [discriminate |].
    apply for_each_ule_success_in in Hy.
    + destruct Hy as (d & Hd & Hy).
      destruct (is_Xy_l_XZ v d) as [[x z] |]; [| discriminate].
      unfold try_ugt_y_with in Hy.
      rewrite (is_non_overflow_unassigned_r _ _ _ Hvar) in Hy. discriminate.
    + intros d core1 core2.
      destruct (is_Xy_l_XZ v d) as [[x z] |]; [| congruence].
      apply try_ugt_y_with_frames.
  - unfold try_ugt_z in Hz.
    destruct (is_g_v v c) eqn:Hg; simpl in Hz; [| discriminate].
    apply for_each_ule_success_in in Hz.
    + destruct Hz as (d & Hd & Hz).
      destruct (is_YX_l_zX v d) as [[x y] |] eqn:Hm; [| discriminate].
      unfold is_YX_l_zX in Hm.
      destruct (is_xY v (rhs d)) as [x' |] eqn:Hxy; [| discriminate].
      unfold try_ugt_z_with in Hz.
      destruct (negb (is_non_overflow s x (rhs c))); [discriminate |].
      apply propagate_after_omega_gate in Hz. destruct Hz as [Hcrit _].
      unfold some_crit_false in Hcrit.
      rewrite (Hanchor eq_refl), (Hcompanion _ _ Hd Hxy) in Hcrit.
      discriminate.
    + intros d core1 core2.
      destruct (is_YX_l_zX v d) as [[x y] |]; [| congruence].
      apply try_ugt_z_with_frames.
  - unfold try_y_l_ax_and_x_l_z in Ha.
    destruct (is_g_v v c) eqn:Hg; simpl in Ha; [| discriminate].
    apply for_each_ule_success_in in Ha.
    + destruct Ha as (d & Hd & Ha).
      destruct (is_Y_l_Ax v d) as [[a y] |] eqn:Hm; [| discriminate].
      unfold is_Y_l_Ax in Hm.
      destruct (is_xY v (rhs d)) as [a' |] eqn:Hxy; [| discriminate].
      unfold try_y_l_ax_and_x_l_z_with in Ha.
      destruct (negb (is_non_overflow s a (rhs c))); [discriminate |].
      apply propagate_after_omega_gate in Ha. destruct Ha as [Hcrit _].
      unfold some_crit_false in Hcrit.
      rewrite (Hanchor eq_refl), (Hcompanion _ _ Hd Hxy) in Hcrit.
      discriminate.
    + intros d core1 core2.
      destruct (is_Y_l_Ax v d) as [[a y] |]; [| congruence].
      apply try_y_l_ax_and_x_l_z_with_frames.
Qed.

(** ** The lemma of try_ugt_x does not mention v *)

Lemma degree_mk_node_above (u v : pvar) (l h : pdd) :
  degree l v = O -> degree h v = O -> Nat.eqb u v = false ->
  degree (mk_node u l h) v = O.
Proof.
  intros Hl Hh Hne. unfold mk_node. destruct (is_zero h); [exact Hl |].
  simpl. rewrite Hne. destruct (Nat.ltb u v); [reflexivity |].
  rewrite Hl, Hh. reflexivity.
Qed.

Lemma factor_rec_degree (p : pdd) (v : pvar) (d : nat) (lc rest : pdd) :
  (degree p v <= d)%nat -> factor_rec p v d = (lc, rest) ->
  degree lc v = O.
Proof.
  revert d lc rest. induction p as [a | u l IHl h IHh]; intros d lc rest Hdeg.
  - destruct d; simpl; intros [= <- <-]; reflexivity.
  - destruct d as [| d'].
    + simpl factor_rec. intros [= <- <-]. lia.
    + cbn [factor_rec]. simpl in Hdeg.
      destruct (Nat.ltb u v) eqn:Hlt; [intros [= <- <-]; reflexivity |].
      destruct (Nat.eqb u v) eqn:Heq.
      * destruct (factor_rec h v d') as [lc1 rest1] eqn:Hh.
        intros [= <- <-]. apply (IHh d' _ _ ltac:(lia) Hh).
      * destruct (factor_rec h v (S d')) as [lc1 rest1] eqn:Hh.
        destruct (factor_rec l v (S d')) as [lc0 rest0] eqn:Hl.
        intros [= <- <-].
        apply degree_mk_node_above; [| | exact Heq].
        -- apply (IHl (S d') _ _ ltac:(lia) Hl).
        -- apply (IHh (S d') _ _ ltac:(lia) Hh).
Qed.

Lemma is_xY_cofactor_degree (v : pvar) (p y : pdd) :
  is_xY v p = Some y -> degree y v = O.
Proof.
  intros Hm. pose proof (is_xY_degree _ _ _ Hm) as Hdeg.
  unfold is_xY in Hm. rewrite Hdeg in Hm. simpl in Hm.
  unfold factor in Hm.
  destruct (factor_rec p v 1) as [lc rest] eqn:Hf.
  destruct (is_zero rest); [| discriminate]. injection Hm as <-.
  apply (factor_rec_degree p v 1 lc rest); [lia | exact Hf].
Qed.

(** X12 (try_ugt_x, lines 266-282, with is_xY, lines 257-259): a successful
    try_ugt_x has eliminated v.  Both sides of the matched literal have
    degree one in v, and the two sides y and z of the lemma it propagates
    do not mention v. *)
Theorem try_ugt_x_eliminates_variable (fuel : nat) (s : solver) (v : pvar)
        (core core' : conflict_core) (c : inequality) :
  try_ugt_x fuel s v core c = Ok (true, core') ->
  exists y z premises,
    degree (lhs c) v = 1%nat /\ degree (rhs c) v = 1%nat /\
    degree y v = O /\ degree z v = O /\
    core' = after core
              (propagate_ops s c c (ineq (is_strict c) y z) premises).
Proof.
  intros Hrun. apply try_ugt_x_success in Hrun.
  destruct Hrun as (y & z & omega & Hm & _ & _ & ->).
  unfold is_xY_l_xZ in Hm.
  destruct (is_xY v (lhs c)) as [y' |] eqn:Hl; [| discriminate].
  destruct (is_xY v (rhs c)) as [z' |] eqn:Hr; [| discriminate].
  injection Hm as -> ->.
  exists y, z. eexists. repeat split.
  - exact (is_xY_degree _ _ _ Hl).
  - exact (is_xY_degree _ _ _ Hr).
  - exact (is_xY_cofactor_degree _ _ _ Hl).
  - exact (is_xY_cofactor_degree _ _ _ Hr).
Qed.

(** ** The non-overflow guard *)

Lemma subst_val_agrees (a : pvar -> option Z) (rho : pvar -> Z) (p : pdd)
      (z : Z) :
  agrees a rho -> subst_val a p = Some z -> evalZ rho p = z.
Proof.
  intros Hag. revert z. induction p as [c | u l IHl h IHh]; intros z; simpl.
  - now intros [= <-].
  - destruct (a u) as [x |] eqn:Hu; [| discriminate].
    destruct (subst_val a h) as [eh |]; [| discriminate].
    destruct (subst_val a l) as [el |]; [| discriminate].
    intros [= <-]. rewrite (Hag _ _ Hu), (IHh _ eq_refl), (IHl _ eq_refl).
    reflexivity.
Qed.

Lemma try_eval_agrees (s : solver) (rho : pvar -> Z) (p : pdd) (z : Z) :
  agrees (assignment s) rho -> try_eval s p = Some z ->
  eval (bit_size s) rho p = z.
Proof.
  intros Hag. unfold try_eval, eval.
  destruct (subst_val (assignment s) p) as [z' |] eqn:Hs; [| discriminate].
  intros [= <-]. rewrite (subst_val_agrees _ _ _ _ Hag Hs). reflexivity.
Qed.

(** X13 (is_non_overflow, lines 218-223): the guard is symmetric in its
    arguments; when it holds both terms evaluate under the assignment, to
    non-negative values whose product is below the bound; and then the
    product of the two terms is below the bound under every total valuation
    that extends the assignment. *)
Theorem is_non_overflow_meaning (s : solver) (x y : pdd) :
  is_non_overflow s x y = is_non_overflow s y x /\
  (is_non_overflow s x y = true ->
   exists x_val y_val,
     try_eval s x = Some x_val /\ try_eval s y = Some y_val /\
     0 <= x_val /\ 0 <= y_val /\ x_val * y_val < bound s) /\
  (is_non_overflow s x y = true ->
   forall rho, agrees (assignment s) rho ->
               eval (bit_size s) rho x * eval (bit_size s) rho y < bound s).
Proof.
  unfold is_non_overflow.
  destruct (try_eval s x) as [x_val |] eqn:Hx;
    destruct (try_eval s y) as [y_val |] eqn:Hy.
  - split; [now rewrite Z.mul_comm |]. split.
    + intros Hlt. apply Z.ltb_lt in Hlt. exists x_val, y_val.
      pose proof (try_eval_range _ _ _ Hx). pose proof (try_eval_range _ _ _ Hy).
      repeat split; try reflexivity; lia.
    + intros Hlt rho Hag. apply Z.ltb_lt in Hlt.
      rewrite (try_eval_agrees _ _ _ _ Hag Hx), (try_eval_agrees _ _ _ _ Hag Hy).
      exact Hlt.
  - repeat split; discriminate.
  - repeat split; discriminate.
  - repeat split; discriminate.
Qed.

(** ** The candidate built by ineq *)

(** X16 (ineq, lines 49-54): the literal built by ineq reads back as the
    inequality with the same sides and strictness, it is an inequality
    literal, it means p < q or p <= q in the ring, and its negation means
    the opposite. *)
Theorem ineq_meaning (w : nat) (rho : pvar -> Z) (strict : bool) (p q : pdd) :
  (exists src,
      as_inequality (ineq strict p q) = Some (mk_inequality p q strict src) /\
      as_signed_constraint (mk_inequality p q strict src) = ineq strict p q) /\
  is_ule (ineq strict p q) = true /\
  holds w rho (ineq strict p q)
  = (if strict then eval w rho p <? eval w rho q
     else eval w rho p <=? eval w rho q) /\
  holds w rho (negate (ineq strict p q)) = negb (holds w rho (ineq strict p q)).
Proof.
  destruct strict; unfold ineq, ult, ule, negate, holds; simpl.
  - split; [eexists; split; reflexivity |]. split; [reflexivity |]. split.
    + destruct (Z.leb_spec (eval w rho q) (eval w rho p));
        destruct (Z.ltb_spec (eval w rho p) (eval w rho q)); simpl;
        try reflexivity; lia.
    + destruct (eval w rho q <=? eval w rho p); reflexivity.
  - split; [eexists; split; reflexivity |]. split; [reflexivity |]. split.
    + destruct (eval w rho p <=? eval w rho q); reflexivity.
    + destruct (eval w rho p <=? eval w rho q); reflexivity.
Qed.

(** ** What a match and a returned premise set mean *)

Section Shapes.

Variable s : solver.
Variable rho : pvar -> Z.

(** X14 (is_xY_l_xZ, lines 250-252; is_Xy_l_XZ, lines 228-230; is_YX_l_zX,
    lines 239-241; is_Y_l_Ax, lines 197-200): what a successful match says
    about the values of the sides of the literal, under any valuation:
    they are the products the rule comments name, and the common factor of
    the two product matchers is a variable scaled by a constant. *)
Theorem shape_matchers_sound (v : pvar) (c : inequality) :
  (forall y z,
      is_xY_l_xZ v c = Some (y, z) ->
      eval (bit_size s) rho (lhs c)
      = eval (bit_size s) rho (mul (bit_size s) (var v) y) /\
      eval (bit_size s) rho (rhs c)
      = eval (bit_size s) rho (mul (bit_size s) (var v) z)) /\
  (forall x z,
      is_Xy_l_XZ v c = Some (x, z) ->
      is_unary x = true /\
      eval (bit_size s) rho (lhs c)
      = eval (bit_size s) rho (mul (bit_size s) (var v) x) /\
      eval (bit_size s) rho (rhs c)
      = eval (bit_size s) rho (mul (bit_size s) z x)) /\
  (forall x y,
      is_YX_l_zX v c = Some (x, y) ->
      is_unary x = true /\
      eval (bit_size s) rho (lhs c)
      = eval (bit_size s) rho (mul (bit_size s) y x) /\
      eval (bit_size s) rho (rhs c)
      = eval (bit_size s) rho (mul (bit_size s) (var v) x)) /\
  (forall a y,
      is_Y_l_Ax v c = Some (a, y) ->
      lhs c = y /\
      eval (bit_size s) rho (rhs c)
      = eval (bit_size s) rho (mul (bit_size s) a (var v))).
Proof.
  assert (Hunary : forall x p y, is_coeffxY x p = Some y -> is_unary x = true).
  { intros x p y. unfold is_coeffxY.
    destruct (is_unary x); [reflexivity | discriminate]. }
  repeat split.
  - unfold is_xY_l_xZ in H.
    destruct (is_xY v (lhs c)) as [y' |] eqn:Hl; [| discriminate].
    destruct (is_xY v (rhs c)) as [z' |]; [| discriminate].
    injection H as -> ->. rewrite eval_mul. now apply is_xY_sound.
  - unfold is_xY_l_xZ in H.
    destruct (is_xY v (lhs c)) as [y' |]; [| discriminate].
    destruct (is_xY v (rhs c)) as [z' |] eqn:Hr; [| discriminate].
    injection H as -> ->. rewrite eval_mul. now apply is_xY_sound.
  - unfold is_Xy_l_XZ in H.
    destruct (is_xY v (lhs c)) as [x' |]; [| discriminate].
    destruct (is_coeffxY x' (rhs c)) as [z' |] eqn:Hr; [| discriminate].
    injection H as -> ->. exact (Hunary _ _ _ Hr).
  - unfold is_Xy_l_XZ in H.
    destruct (is_xY v (lhs c)) as [x' |] eqn:Hl; [| discriminate].
    destruct (is_coeffxY x' (rhs c)) as [z' |]; [| discriminate].
    injection H as -> ->. rewrite eval_mul. now apply is_xY_sound.
  - unfold is_Xy_l_XZ in H.
    destruct (is_xY v (lhs c)) as [x' |]; [| discriminate].
    destruct (is_coeffxY x' (rhs c)) as [z' |] eqn:Hr; [| discriminate].
    injection H as -> ->. rewrite eval_mul, Z.mul_comm.
    now apply is_coeffxY_sound.
  - unfold is_YX_l_zX in H.
    destruct (is_xY v (rhs c)) as [x' |]; [| discriminate].
    destruct (is_coeffxY x' (lhs c)) as [y' |] eqn:Hl; [| discriminate].
    injection H as -> ->. exact (Hunary _ _ _ Hl).
  - unfold is_YX_l_zX in H.
    destruct (is_xY v (rhs c)) as [x' |]; [| discriminate].
    destruct (is_coeffxY x' (lhs c)) as [y' |] eqn:Hl; [| discriminate].
    injection H as -> ->. rewrite eval_mul, Z.mul_comm.
    now apply is_coeffxY_sound.
  - unfold is_YX_l_zX in H.
    destruct (is_xY v (rhs c)) as [x' |] eqn:Hr; [| discriminate].
    destruct (is_coeffxY x' (lhs c)) as [y' |]; [| discriminate].
    injection H as -> ->. rewrite eval_mul. now apply is_xY_sound.
  - unfold is_Y_l_Ax in H.
    destruct (is_xY v (rhs c)) as [a' |]; [| discriminate].
    now injection H as _ <-.
  - unfold is_Y_l_Ax in H.
    destruct (is_xY v (rhs c)) as [a' |] eqn:Hr; [| discriminate].
    injection H as -> _. rewrite eval_mul, Z.mul_comm.
    now apply is_xY_sound.
Qed.

Hypothesis viable_nonneg : forall u, 0 <= max_viable s u.
Hypothesis cjust_bounds :
  forall u, Forall (fun l => holds (bit_size s) rho l = true) (m_cjust s u) ->
            rho u mod bound s <= max_viable s u.

(** X5 (push_omega, lines 150-170): when is_non_overflow holds for x and y,
    a call that returns has only appended premises, and the appended
    premises entail that x * y does not overflow: under every valuation
    that respects the viable maxima and satisfies them, the product of
    the values of x and y is below the bound. *)
Theorem push_omega_premises_suffice (fuel : nat)
        (ncs : list signed_constraint) (x y : pdd)
        (r : list signed_constraint) :
  is_non_overflow s x y = true ->
  push_omega fuel s ncs x y = Ok r ->
  exists omega,
    r = ncs ++ omega /\
    (Forall (fun l => holds (bit_size s) rho l = true) omega ->
     eval (bit_size s) rho x * eval (bit_size s) rho y < bound s).
Proof.
  intros Hno Hrun. rewrite push_omega_app in Hrun.
  destruct (push_omega fuel s [] x y) as [omega | |] eqn:Homega;
    simpl in Hrun; try discriminate.
  injection Hrun as <-. exists omega. split; [reflexivity |].
  apply (push_omega_sound s rho viable_nonneg cjust_bounds _ _ _ _ Hno Homega).
Qed.

End Shapes.

(** ** Matches pass their verification *)

Section Reduced.

Variable w : nat.

Lemma pdd_eqb_refl (p : pdd) : Pdd.eqb p p = true.
Proof.
  induction p as [a | v l IHl h IHh]; simpl.
  - apply Z.eqb_refl.
  - now rewrite Nat.eqb_refl, IHl, IHh.
Qed.

Lemma width_pos : 0 < 2 ^ Z.of_nat w.
Proof. apply Z.pow_pos_nonneg; lia. Qed.

Lemma reduced_by_val (k c : Z) :
  reduced_by k w (Val c) = true -> 0 <= c /\ k * c < 2 ^ Z.of_nat w.
Proof.
  simpl. intros H. apply andb_prop in H. destruct H as [H1 H2].
  apply Z.leb_le in H1. apply Z.ltb_lt in H2. auto.
Qed.

Lemma reduced_by_val_intro (k c : Z) :
  0 <= c -> k * c < 2 ^ Z.of_nat w -> reduced_by k w (Val c) = true.
Proof.
  intros H1 H2. unfold reduced_by.
  apply andb_true_intro. split; [apply Z.leb_le | apply Z.ltb_lt]; assumption.
Qed.

Lemma reduced_by_node (k : Z) (v : pvar) (l h : pdd) :
  reduced_by k w (Node v l h) = true ->
  reduced_by k w l = true /\ reduced_by k w h = true /\
  is_zero h = false /\ (level l <= v)%nat /\ (level h <= S v)%nat.
Proof.
  simpl. intros H.
  repeat (apply andb_prop in H; let H' := fresh "H" in destruct H as [H H']).
  repeat split; try assumption.
  - now apply negb_true_iff.
  - now apply Nat.leb_le.
  - now apply Nat.leb_le.
Qed.

Lemma reduced_by_node_intro (k : Z) (v : pvar) (l h : pdd) :
  reduced_by k w l = true -> reduced_by k w h = true ->
  is_zero h = false -> (level l <= v)%nat -> (level h <= S v)%nat ->
  reduced_by k w (Node v l h) = true.
Proof.
  intros Hl Hh Hz Hll Hlh. simpl. rewrite Hl, Hh, Hz. simpl.
  apply andb_true_intro. split; apply Nat.leb_le; assumption.
Qed.

Lemma reduced_by_weaken (k : Z) (p : pdd) :
  0 < k -> reduced_by k w p = true -> reduced w p = true.
Proof.
  intros Hk. unfold reduced. induction p as [c | v l IHl h IHh]; intros H.
  - apply reduced_by_val in H. apply reduced_by_val_intro; nia.
  - apply reduced_by_node in H. destruct H as (Hl & Hh & Hz & Hll & Hlh).
    apply reduced_by_node_intro; auto.
Qed.

Lemma is_zero_eq (p : pdd) : is_zero p = true -> p = Val 0.
Proof.
  destruct p; simpl; [| discriminate]. intros H. apply Z.eqb_eq in H.
  now subst.
Qed.

Lemma mk_node_nonzero (v : pvar) (l h : pdd) :
  is_zero h = false -> mk_node v l h = Node v l h.
Proof. unfold mk_node. now intros ->. Qed.

(** *** Products with a variable *)

Lemma mul_var_at_top (t : pvar) (p : pdd) :
  (level p <= S t)%nat ->
  mul_var t p = if is_zero p then Val 0 else Node t (Val 0) p.
Proof.
  destruct p as [c | u l h]; simpl; intros H; [reflexivity |].
  destruct (Nat.ltb_spec t u); [lia | reflexivity].
Qed.

Lemma mul_var_reduced (k : Z) (u : pvar) (p : pdd) :
  reduced_by k w p = true ->
  reduced_by k w (mul_var u p) = true /\
  (level (mul_var u p) <= Nat.max (level p) (S u))%nat /\
  is_zero (mul_var u p) = is_zero p.
Proof.
  induction p as [c | t l IHl h IHh]; intros H.
  - simpl. destruct (Z.eqb_spec c 0) as [-> | Hc].
    + split; [exact H | split; [simpl; lia | reflexivity]].
    + split; [| split; [simpl; lia | reflexivity]].
      apply reduced_by_node_intro;
        [ apply reduced_by_val_intro; pose proof width_pos; lia
        | exact H
        | simpl; now apply Z.eqb_neq
        | simpl; lia
        | simpl; lia ].
  - pose proof (reduced_by_node _ _ _ _ H) as (Hl & Hh & Hz & Hll & Hlh).
    destruct (IHl Hl) as (Rl & Ll & Zl). destruct (IHh Hh) as (Rh & Lh & Zh).
    simpl. destruct (Nat.ltb_spec u t) as [Hut | Hut].
    + rewrite mk_node_nonzero by congruence.
      split; [| split; [simpl; lia | reflexivity]].
      apply reduced_by_node_intro; auto; try congruence; lia.
    + split; [| split; [simpl; lia | reflexivity]].
      apply reduced_by_node_intro;
        [ apply reduced_by_val_intro; pose proof width_pos; lia
        | exact H
        | reflexivity
        | simpl; lia
        | simpl; lia ].
Qed.

(** *** Sums with zero *)

Lemma add_zero_l (p : pdd) : reduced w p = true -> add w (Val 0) p = p.
Proof.
  unfold reduced. induction p as [c | v l IHl h IHh]; intros H.
  - apply reduced_by_val in H. simpl. unfold mk_val.
    rewrite Z.mod_small by lia. reflexivity.
  - apply reduced_by_node in H. destruct H as (Hl & Hh & Hz & _).
    simpl. simpl in IHl. rewrite (IHl Hl). now apply mk_node_nonzero.
Qed.

Lemma add_zero_r (p : pdd) : reduced w p = true -> add w p (Val 0) = p.
Proof.
  unfold reduced. induction p as [c | v l IHl h IHh]; intros H.
  - apply reduced_by_val in H. simpl. unfold mk_val.
    rewrite Z.add_0_r, Z.mod_small by lia. reflexivity.
  - apply reduced_by_node in H. destruct H as (Hl & Hh & Hz & _).
    simpl. rewrite (IHl Hl). now apply mk_node_nonzero.
Qed.

Lemma add_node_low (t : pvar) (L H : pdd) :
  reduced w L = true -> (level L <= t)%nat -> is_zero H = false ->
  add w (Node t (Val 0) H) L = Node t L H.
Proof.
  intros HL Hlev Hz. destruct L as [c | u l h].
  - simpl. apply reduced_by_val in HL. unfold mk_val.
    rewrite Z.mod_small by lia. now apply mk_node_nonzero.
  - simpl in Hlev.
    change (add w (Node t (Val 0) H) (Node u l h))
      with (match Nat.compare t u with
            | Eq => mk_node t (add w (Val 0) l) (add w H h)
            | Gt => mk_node t (add w (Val 0) (Node u l h)) H
            | Lt => mk_node u (add w (Node t (Val 0) H) l) h
            end).
    destruct (Nat.compare_spec t u); try lia.
    rewrite (add_zero_l _ HL). now apply mk_node_nonzero.
Qed.

(** *** Products with a constant *)

Lemma scale_zero (p : pdd) : scale w 0 p = Val 0.
Proof.
  induction p as [c | v l IHl h IHh]; simpl.
  - reflexivity.
  - now rewrite IHl, IHh.
Qed.

Lemma scale_shape (k : Z) (p : pdd) :
  0 < k -> reduced_by k w p = true ->
  reduced w (scale w k p) = true /\
  level (scale w k p) = level p /\
  is_zero (scale w k p) = is_zero p /\
  match p with
  | Val c => scale w k p = Val (k * c)
  | Node v l h => scale w k p = Node v (scale w k l) (scale w k h)
  end.
Proof.
  intros Hk. unfold reduced.
  induction p as [c | v l IHl h IHh]; intros H.
  - apply reduced_by_val in H.
    assert (E : scale w k (Val c) = Val (k * c)).
    { simpl. unfold mk_val. rewrite Z.mod_small by nia. reflexivity. }
    rewrite E. repeat split.
    + apply reduced_by_val_intro; nia.
    + simpl. destruct (Z.eqb_spec c 0), (Z.eqb_spec (k * c) 0);
        try reflexivity; nia.
  - apply reduced_by_node in H. destruct H as (Hl & Hh & Hz & Hll & Hlh).
    destruct (IHl Hl) as (Rl & Ll & Zl & _).
    destruct (IHh Hh) as (Rh & Lh & Zh & _).
    simpl. rewrite mk_node_nonzero by congruence.
    repeat split.
    apply reduced_by_node_intro; auto; try congruence; lia.
Qed.

Lemma scale_one (p : pdd) : reduced w p = true -> scale w 1 p = p.
Proof.
  unfold reduced. induction p as [c | v l IHl h IHh]; intros H.
  - apply reduced_by_val in H.
    change (scale w 1 (Val c)) with (mk_val w (1 * c)).
    unfold mk_val. rewrite Z.mul_1_l, Z.mod_small by lia. reflexivity.
  - apply reduced_by_node in H. destruct H as (Hl & Hh & Hz & _).
    simpl. rewrite (IHl Hl), (IHh Hh). now apply mk_node_nonzero.
Qed.

Lemma scale_mul_var (k : Z) (u : pvar) (z : pdd) :
  0 < k -> reduced_by k w z = true ->
  scale w k (mul_var u z) = mul_var u (scale w k z).
Proof.
  intros Hk. induction z as [c | t l IHl h IHh]; intros H.
  - pose proof (reduced_by_val _ _ H) as [Hc0 Hc]. pose proof width_pos.
    simpl. unfold mk_val. rewrite (Z.mod_small (k * c)) by nia.
    destruct (Z.eqb_spec c 0) as [-> | Hne].
    + simpl. unfold mk_val. rewrite Z.mul_0_r. reflexivity.
    + simpl. unfold mk_val. rewrite Z.mul_0_r, Z.mod_0_l by lia.
      rewrite (Z.mod_small (k * c)) by nia.
      destruct (Z.eqb_spec (k * c) 0); [nia |].
      unfold mk_node. simpl. destruct (Z.eqb_spec (k * c) 0); [nia | reflexivity].
  - pose proof (reduced_by_node _ _ _ _ H) as (Hl & Hh & Hz & Hll & Hlh).
    destruct (scale_shape k _ Hk H) as (_ & _ & _ & Hs).
    destruct (scale_shape k _ Hk Hh) as (Rh & _ & Zh & _).
    destruct (mul_var_reduced k u _ Hh) as (_ & _ & Zm).
    destruct (mul_var_reduced 1 u _ Rh) as (_ & _ & Zm').
    assert (Z1 : is_zero (mul_var u h) = false) by congruence.
    assert (Z2 : is_zero (mul_var u (scale w k h)) = false) by congruence.
    rewrite Hs. simpl mul_var. destruct (Nat.ltb_spec u t) as [Hut | Hut].
    + rewrite !mk_node_nonzero by assumption.
      simpl scale. rewrite (IHl Hl), (IHh Hh).
      now apply mk_node_nonzero.
    + simpl scale. unfold mk_val. pose proof width_pos.
      rewrite Z.mul_0_r, Z.mod_0_l by lia.
      fold (scale w k l). fold (scale w k h).
      rewrite (mk_node_nonzero t) by congruence.
      now rewrite mk_node_nonzero.
Qed.

Lemma mul_unary_val (k a : Z) (u : pvar) :
  0 < k -> 0 <= a -> k * a < 2 ^ Z.of_nat w ->
  mul w (Val a) (Node u (Val 0) (Val k)) = mul_var u (Val (k * a)).
Proof.
  intros Hk Ha Hka. pose proof width_pos.
  change (mul w (Val a) (Node u (Val 0) (Val k)))
    with (mk_node u (mk_val w (a * 0)) (mk_val w (a * k))).
  unfold mk_val. rewrite Z.mul_0_r, Z.mod_0_l by lia.
  rewrite (Z.mul_comm a k).
  assert (0 <= k * a) by nia. rewrite Z.mod_small by lia.
  unfold mk_node, mul_var, is_zero.
  destruct (k * a =? 0); reflexivity.
Qed.

(** The two summands of a product with a variable, put together. *)
Lemma mul_var_sum (t u : pvar) (l h : pdd) :
  reduced w (Node t l h) = true ->
  add w (mul_var t (mul_var u h)) (mul_var u l) = mul_var u (Node t l h).
Proof.
  intros H. pose proof width_pos as HM.
  pose proof (reduced_by_node _ _ _ _ H) as (Hl & Hh & Hz & Hll & Hlh).
  destruct (mul_var_reduced 1 u _ Hh) as (Rh & Lh & Zh).
  destruct (mul_var_reduced 1 u _ Hl) as (Rl & Ll & Zl).
  assert (R0 : reduced w (Val 0) = true)
    by (apply reduced_by_val_intro; lia).
  simpl (mul_var u (Node t l h)).
  destruct (Nat.ltb_spec u t) as [Hut | Hut].
  - rewrite mk_node_nonzero by congruence.
    rewrite (mul_var_at_top t (mul_var u h)) by lia.
    replace (is_zero (mul_var u h)) with false by congruence.
    apply add_node_low; [exact Rl | lia | congruence].
  - assert (E : mul_var t (mul_var u h)
                = Node u (Val 0) (Node t (Val 0) h)).
    { rewrite (mul_var_at_top u h) by lia. rewrite Hz.
      simpl. destruct (Nat.ltb_spec t u) as [Htu | Htu].
      - rewrite (mul_var_at_top t h) by lia. rewrite Hz. reflexivity.
      - assert (u = t) by lia. subst u. reflexivity. }
    rewrite E. rewrite (mul_var_at_top u l) by lia.
    destruct (is_zero l) eqn:Hzl.
    + apply is_zero_eq in Hzl. subst l.
      apply add_node_low; [exact R0 | simpl; lia | reflexivity].
    + change (add w (Node u (Val 0) (Node t (Val 0) h)) (Node u (Val 0) l))
        with (match Nat.compare u u with
              | Eq => mk_node u (add w (Val 0) (Val 0))
                              (add w (Node t (Val 0) h) l)
              | Gt => mk_node u (add w (Val 0) (Node u (Val 0) l))
                              (Node t (Val 0) h)
              | Lt => mk_node u (add w (Node u (Val 0) (Node t (Val 0) h))
                                     (Val 0)) l
              end).
      rewrite Nat.compare_refl.
      rewrite (add_node_low t l h Hl Hll Hz).
      rewrite (add_zero_l _ R0). reflexivity.
Qed.

(** The product with a unary term, computed from the left. *)
Lemma mul_unary (k : Z) (u : pvar) (z : pdd) :
  0 < k -> reduced_by k w z = true ->
  mul w z (Node u (Val 0) (Val k)) = mul_var u (scale w k z).
Proof.
  intros Hk. induction z as [a | t l IHl h IHh]; intros H.
  - pose proof (reduced_by_val _ _ H) as [Ha Hka].
    destruct (scale_shape k _ Hk H) as (_ & _ & _ & ->).
    now apply mul_unary_val.
  - pose proof (reduced_by_node _ _ _ _ H) as (Hl & Hh & Hz & Hll & Hlh).
    destruct (scale_shape k _ Hk H) as (R & _ & _ & Hs).
    rewrite Hs in R |- *.
    change (mul w (Node t l h) (Node u (Val 0) (Val k)))
      with (add w (mul_var t (mul w h (Node u (Val 0) (Val k))))
                (mul w l (Node u (Val 0) (Val k)))).
    rewrite (IHl Hl), (IHh Hh). now apply mul_var_sum.
Qed.

(** *** Factoring and exact division, undone *)

Lemma factor_rec_zero (p : pdd) (v : pvar) : factor_rec p v 0 = (p, Val 0).
Proof. destruct p; reflexivity. Qed.

Lemma factor_rec_inverse (k : Z) (v : pvar) (p lc rest : pdd) :
  reduced_by k w p = true ->
  factor_rec p v 1 = (lc, rest) -> is_zero rest = true ->
  p = mul_var v lc /\ reduced_by k w lc = true /\
  (level lc <= level p)%nat.
Proof.
  revert lc rest. induction p as [c | u l IHl h IHh]; intros lc rest H.
  - simpl. intros [= <- <-] Hz. apply is_zero_eq in Hz. injection Hz as ->.
    split; [reflexivity | split; [exact H | simpl; lia]].
  - pose proof (reduced_by_node _ _ _ _ H) as (Hl & Hh & Hz & Hll & Hlh).
    simpl. destruct (Nat.ltb_spec u v) as [Huv | Huv].
    { intros [= <- <-]. discriminate. }
    destruct (Nat.eqb_spec u v) as [-> | Hne].
    + rewrite factor_rec_zero. intros [= <- <-] Hr.
      unfold mk_node in Hr. simpl in Hr. apply is_zero_eq in Hr. subst l.
      rewrite (mul_var_at_top v h) by lia. rewrite Hz.
      split; [reflexivity | split; [exact Hh | simpl; lia]].
    + destruct (factor_rec h v 1) as [lc1 rest1] eqn:Eh.
      destruct (factor_rec l v 1) as [lc0 rest0] eqn:El.
      intros [= <- <-] Hr. unfold mk_node in Hr.
      destruct (is_zero rest1) eqn:Hr1; [| discriminate].
      destruct (IHh _ _ Hh eq_refl Hr1) as (Eh' & Rh & Lh).
      destruct (IHl _ _ Hl eq_refl Hr) as (El' & Rl & Ll).
      assert (Hz1 : is_zero lc1 = false).
      { destruct (is_zero lc1) eqn:Hz1; [| reflexivity].
        apply is_zero_eq in Hz1. subst lc1. subst h. discriminate. }
      rewrite (mk_node_nonzero u lc0 lc1 Hz1).
      split; [| split].
      * simpl. destruct (Nat.ltb_spec v u); [| lia].
        rewrite <- Eh', <- El'. symmetry. now apply mk_node_nonzero.
      * apply reduced_by_node_intro; auto; lia.
      * simpl; lia.
Qed.

Lemma factor_inverse (k : Z) (v : pvar) (p y : pdd) :
  reduced_by k w p = true -> factor p v 1 = Some y ->
  p = mul_var v y /\ reduced_by k w y = true.
Proof.
  unfold factor. intros H.
  destruct (factor_rec p v 1) as [lc rest] eqn:E.
  destruct (is_zero rest) eqn:Hz; [| discriminate].
  intros [= <-].
  destruct (factor_rec_inverse k v p lc rest H E Hz) as (Hp & R & _).
  auto.
Qed.

Lemma try_div_inverse (k : Z) (p xy : pdd) :
  0 < k -> reduced w p = true -> try_div p k = Some xy ->
  scale w k xy = p /\ reduced_by k w xy = true /\
  level xy = level p /\ is_zero xy = is_zero p.
Proof.
  intros Hk. unfold reduced. revert xy.
  induction p as [c | v l IHl h IHh]; intros xy H.
  - apply reduced_by_val in H. simpl.
    destruct (Z.eqb_spec (c mod k) 0) as [Hm | Hm]; [| discriminate].
    intros [= <-].
    assert (Hc : c = k * (c / k)) by (apply Z.div_exact; lia).
    assert (0 <= c / k) by (apply Z.div_pos; lia).
    repeat split.
    + change (scale w k (Val (c / k))) with (mk_val w (k * (c / k))).
      rewrite <- Hc. unfold mk_val. rewrite Z.mod_small by lia. reflexivity.
    + apply reduced_by_val_intro; lia.
    + simpl. destruct (Z.eqb_spec (c / k) 0), (Z.eqb_spec c 0);
        try reflexivity; nia.
  - apply reduced_by_node in H. destruct H as (Hl & Hh & Hz & Hll & Hlh).
    simpl. destruct (try_div l k) as [l' |]; [| discriminate].
    destruct (try_div h k) as [h' |]; [| discriminate].
    intros [= <-].
    destruct (IHl _ Hl eq_refl) as (El & Rl & Ll & Zl).
    destruct (IHh _ Hh eq_refl) as (Eh & Rh & Lh & Zh).
    rewrite mk_node_nonzero by congruence.
    repeat split.
    + simpl. rewrite El, Eh. now apply mk_node_nonzero.
    + apply reduced_by_node_intro; auto; try congruence; lia.
Qed.

(** *** The matchers *)

Lemma is_xY_inverse (v : pvar) (p y : pdd) :
  reduced w p = true -> is_xY v p = Some y ->
  p = mul_var v y /\ reduced w y = true.
Proof.
  unfold is_xY. intros H. destruct (Nat.eqb (degree p v) 1); [| discriminate].
  now apply factor_inverse.
Qed.

Lemma is_xY_product (v : pvar) (p y : pdd) :
  reduced w p = true -> is_xY v p = Some y ->
  mul w (var v) y = p /\ mul w y (var v) = p.
Proof.
  intros H Hm. destruct (is_xY_inverse _ _ _ H Hm) as [Hp Ry]. split.
  - change (mul w (var v) y)
      with (add w (mul_var v (scale w 1 y)) (scale w 0 y)).
    rewrite (scale_one _ Ry), scale_zero, <- Hp. now apply add_zero_r.
  - unfold var, mk_var.
    rewrite (mul_unary 1 v y) by (try lia; exact Ry).
    now rewrite (scale_one _ Ry).
Qed.

Lemma is_unary_reduced (x : pdd) :
  reduced w x = true -> is_unary x = true ->
  exists u k, x = Node u (Val 0) (Val k) /\ 0 < k.
Proof.
  intros H Hu. apply is_unary_inv in Hu. destruct Hu as (u & k & ->).
  exists u, k. split; [reflexivity |].
  apply reduced_by_node in H. destruct H as (_ & Hk & Hz & _).
  apply reduced_by_val in Hk. simpl in Hz. apply Z.eqb_neq in Hz. lia.
Qed.

Lemma is_coeffxY_product (x p z : pdd) :
  reduced w x = true -> reduced w p = true ->
  is_coeffxY x p = Some z -> mul w z x = p.
Proof.
  intros Hx Hp. unfold is_coeffxY.
  destruct (is_unary x) eqn:Hu; [| discriminate].
  destruct (is_unary_reduced _ Hx Hu) as (u & k & -> & Hk). simpl.
  destruct (try_div p k) as [xy |] eqn:Hd; [| discriminate].
  intros Hf.
  destruct (try_div_inverse k _ _ Hk Hp Hd) as (Es & Rxy & _).
  destruct (factor_inverse k u _ _ Rxy Hf) as (Exy & Rz).
  rewrite (mul_unary k u z Hk Rz), <- (scale_mul_var k u z Hk Rz).
  now rewrite <- Exy.
Qed.

End Reduced.

(** X15 (verify_Xy_l_XZ, lines 232-234; verify_YX_l_zX, lines 243-245;
    verify_Y_l_Ax, lines 202-204; asserted at lines 290, 371 and 340): on
    reduced terms a successful match passes the check the paired rule
    asserts: the sides of the literal are, as terms, the products of the
    matched parts. *)
Theorem matches_pass_verification (s : solver) (v : pvar) (c : inequality) :
  reduced (bit_size s) (lhs c) = true ->
  reduced (bit_size s) (rhs c) = true ->
  (forall x z, is_Xy_l_XZ v c = Some (x, z) ->
               verify_Xy_l_XZ s v c x z = true) /\
  (forall x y, is_YX_l_zX v c = Some (x, y) ->
               verify_YX_l_zX s v c x y = true) /\
  (forall a y, is_Y_l_Ax v c = Some (a, y) ->
               verify_Y_l_Ax s v c a y = true).
Proof.
  intros Hl Hr. split; [| split].
  - intros x z. unfold is_Xy_l_XZ, verify_Xy_l_XZ.
    destruct (is_xY v (lhs c)) as [x' |] eqn:Hm; [| discriminate].
    destruct (is_coeffxY x' (rhs c)) as [z' |] eqn:Hc; [| discriminate].
    intros [= <- <-].
    destruct (is_xY_inverse _ _ _ _ Hl Hm) as [_ Rx].
    destruct (is_xY_product _ _ _ _ Hl Hm) as [-> _].
    rewrite (is_coeffxY_product _ _ _ _ Rx Hr Hc).
    now rewrite !pdd_eqb_refl.
  - intros x y. unfold is_YX_l_zX, verify_YX_l_zX.
    destruct (is_xY v (rhs c)) as [x' |] eqn:Hm; [| discriminate].
    destruct (is_coeffxY x' (lhs c)) as [y' |] eqn:Hc; [| discriminate].
    intros [= <- <-].
    destruct (is_xY_inverse _ _ _ _ Hr Hm) as [_ Rx].
    destruct (is_xY_product _ _ _ _ Hr Hm) as [-> _].
    rewrite (is_coeffxY_product _ _ _ _ Rx Hl Hc).
    now rewrite !pdd_eqb_refl.
  - intros a y. unfold is_Y_l_Ax, verify_Y_l_Ax.
    destruct (is_xY v (rhs c)) as [a' |] eqn:Hm; [| discriminate].
    intros [= <- <-].
    destruct (is_xY_product _ _ _ _ Hr Hm) as [_ ->].
    now rewrite !pdd_eqb_refl.
Qed.

(** ** Soundness of the entry point *)

Section PerformSoundness.

Variable s : solver.
Variable rho : pvar -> Z.

Hypothesis viable_nonneg : forall u, 0 <= max_viable s u.
Hypothesis cjust_bounds :
  forall u, Forall (fun l => holds (bit_size s) rho l = true) (m_cjust s u) ->
            rho u mod bound s <= max_viable s u.

Lemma uniform_strictness_cases (core : conflict_core) (c d : inequality) :
  uniform_strictness core ->
  In c (inequalities core) -> In d (inequalities core) ->
  is_strict d = true \/ is_strict c = false.
Proof.
  intros Hu Hc Hd. rewrite (Hu _ _ Hc Hd).
  destruct (is_strict d); auto.
Qed.

(** X9 (perform, lines 32-47, with the four rules): perform is sound on a
    core whose inequality literals are all strict or all non-strict.  When
    it returns true, the requests it has appended are those of one
    propagation with two inequality literals of the core as critical
    premises, and under every valuation that respects the viable maxima
    the lemma holds whenever the two critical premises and the inserted
    premises hold. *)
Theorem perform_sound (fuel : nat) (v : pvar) (core core' : conflict_core) :
  uniform_strictness core ->
  perform fuel s v core = Ok (true, core') ->
  exists c d lemma premises,
    In c (inequalities core) /\ In d (inequalities core) /\
    core' = after core (propagate_ops s c d lemma premises) /\
    (ineq_holds (bit_size s) rho c = true ->
     ineq_holds (bit_size s) rho d = true ->
     Forall (fun l => holds (bit_size s) rho l = true) premises ->
     holds (bit_size s) rho lemma = true).
Proof.
  intros Hu Hrun. apply perform_success_cases in Hrun.
  destruct Hrun as (c & Hc & [Hx | [Hy | [Hz | Ha]]]).
  - apply try_ugt_x_success in Hx.
    destruct Hx as (y & z & omega & Hm & Hno & Homega & ->).
    exists c, c. eexists _, _. repeat split; try assumption.
    intros Hc1 _ Hprem.
    exact (try_ugt_x_entails s rho viable_nonneg cjust_bounds
                             _ _ _ _ _ _ Hm Hno Homega Hc1 Hprem).
  - apply try_ugt_y_success in Hy.
    destruct Hy as (d & x & z & omega & Hd & Happ & Hm & Homega & ->).
    unfold applies_ugt_y in Happ. rewrite Hm in Happ.
    apply andb_prop in Happ. destruct Happ as [Hlv Hno].
    exists c, d. eexists _, _. repeat split; try assumption.
    intros Hc1 Hd1 Hprem. inversion Hprem as [| ? ? _ Hprem']; subst.
    inversion Hprem' as [| ? ? _ Hom]; subst.
    exact (try_ugt_y_entails s rho viable_nonneg cjust_bounds
             _ _ _ _ _ _ _ Hlv Hm (uniform_strictness_cases _ _ _ Hu Hc Hd)
             Hno Homega Hc1 Hd1 Hom).
  - apply try_ugt_z_success in Hz.
    destruct Hz as (d & x & y & omega & Hd & Happ & Hm & Homega & ->).
    unfold applies_ugt_z in Happ. rewrite Hm in Happ.
    apply andb_prop in Happ. destruct Happ as [Hgv Hno].
    exists c, d. eexists _, _. repeat split; try assumption.
    intros Hc1 Hd1 Hprem. inversion Hprem as [| ? ? _ Hprem']; subst.
    inversion Hprem' as [| ? ? _ Hom]; subst.
    exact (try_ugt_z_entails s rho viable_nonneg cjust_bounds
             _ _ _ _ _ _ _ Hgv Hm (uniform_strictness_cases _ _ _ Hu Hc Hd)
             Hno Homega Hc1 Hd1 Hom).
  - apply try_y_l_ax_and_x_l_z_success in Ha.
    destruct Ha as (d & a & y & omega & Hd & Happ & Hm & Homega & ->).
    unfold applies_y_l_ax_and_x_l_z in Happ. rewrite Hm in Happ.
    apply andb_prop in Happ. destruct Happ as [Hgv Hno].
    exists c, d. eexists _, _. repeat split; try assumption.
    intros Hc1 Hd1 Hprem. inversion Hprem as [| ? ? _ Hprem']; subst.
    inversion Hprem' as [| ? ? _ Hom]; subst.
    exact (try_y_l_ax_and_x_l_z_entails s rho viable_nonneg cjust_bounds
             _ _ _ _ _ _ _ Hgv Hm (uniform_strictness_cases _ _ _ Hu Hc Hd)
             Hno Homega Hc1 Hd1 Hom).
Qed.

End PerformSoundness.

(** ** Instances *)

Lemma propagate_gate_atomic_witness :
  (is_currently_false solverA7 (as_signed_constraint ineqA) = false /\
   is_currently_false solverA7 (as_signed_constraint ineqA) = false) /\
  propagate solverA7 coreA ineqA ineqA (ule (Val 2) (Val 5))
            [negate (eq0 (var vA))]
  = (false, coreA).
Proof.
  split; [split; reflexivity |].
  apply propagate_gate_atomic. left. split; reflexivity.
Defined.

Lemma propagate_success_order_witness :
  propagate solverB coreB ineq_le_yB ineq_yx_l_zxB lemmaB
            ([le_yB; yx_l_zxB] ++ omegaB)
  = (true, after coreB ([Keep le_yB; Keep yx_l_zxB; SetLit lemmaB]
                        ++ map Insert ([le_yB; yx_l_zxB] ++ omegaB))) /\
  core_ops (after coreB ([Keep le_yB; Keep yx_l_zxB; SetLit lemmaB]
                         ++ map Insert ([le_yB; yx_l_zxB] ++ omegaB)))
  = core_ops coreB
    ++ [Keep (as_signed_constraint ineq_le_yB);
        Keep (as_signed_constraint ineq_yx_l_zxB)]
    ++ [if is_l_false (bvalue solverB lemmaB)
        then Insert (negate lemmaB) else SetLit lemmaB]
    ++ map Insert ([le_yB; yx_l_zxB] ++ omegaB).
Proof.
  split; [reflexivity |].
  apply (propagate_success_order solverB coreB _ ineq_le_yB ineq_yx_l_zxB
                                 lemmaB ([le_yB; yx_l_zxB] ++ omegaB)).
  reflexivity.
Defined.

Lemma perform_iteration_order_witness :
  perform 10 solverB vB coreB = perform_spec 10 solverB vB coreB.
Proof. exact (proj1 (perform_iteration_order 10 solverB vB coreB)). Defined.

Lemma push_omega_dispatch_witness :
  omega_max solverC (var vC) * omega_max solverC (Val 5) < bound solverC /\
  push_omega 10 solverC [negate (eq0 (var vC))] (var vC) (Val 5)
  = Ok ([negate (eq0 (var vC))]
        ++ m_cjust solverC (Pdd.var (Val 5))
        ++ m_cjust solverC (Pdd.var (var vC))).
Proof.
  assert (H : omega_max solverC (var vC) * omega_max solverC (Val 5)
              < bound solverC) by reflexivity.
  split; [exact H |].
  exact (proj1 (proj2 (push_omega_dispatch 10 solverC
                         [negate (eq0 (var vC))] (var vC) (Val 5)) H)).
Defined.

Lemma perform_noop_witness :
  (has_inequality core_eq = false /\
   perform 3 solverA7 vA core_eq = Ok (false, core_eq)) /\
  (some_rule_applies solverA7 vA core_const = false /\
   perform 3 solverA7 vA core_const = Ok (false, core_const)).
Proof.
  split; (split; [reflexivity |]).
  - apply perform_noop. left. reflexivity.
  - apply perform_noop. right. reflexivity.
Defined.


(** The soundness theorems apply: in scenario D try_ugt_y succeeds with the
    non-strict lemma z'*x <= z*x, and the lemma holds under a valuation
    that satisfies the premises. *)
Lemma try_ugt_y_with_sound_witness :
  try_ugt_y_with 10 solverD vB coreD ineq_le_yD ineq_yx_l_zxB
                 (var xB) (var zB)
  = Ok (true,
        after coreD
          (propagate_ops solverD ineq_le_yD ineq_yx_l_zxB lemmaD
             ([le_yD; yx_l_zxB] ++ omegaB))) /\
  forallb (holds 4 rhoD) ([le_yD; yx_l_zxB] ++ omegaB) = true /\
  holds 4 rhoD lemmaD = true /\
  exists lemma omega,
    after coreD
      (propagate_ops solverD ineq_le_yD ineq_yx_l_zxB lemmaD
         ([le_yD; yx_l_zxB] ++ omegaB))
    = after coreD
        (propagate_ops solverD ineq_le_yD ineq_yx_l_zxB lemma
           ([as_signed_constraint ineq_le_yD;
             as_signed_constraint ineq_yx_l_zxB] ++ omega)) /\
    (ineq_holds 4 rhoD ineq_le_yD = true ->
     ineq_holds 4 rhoD ineq_yx_l_zxB = true ->
     Forall (fun l => holds 4 rhoD l = true) omega ->
     holds 4 rhoD lemma = true).
Proof.
  split; [reflexivity | split; [reflexivity | split; [reflexivity |]]].
  apply (try_ugt_y_with_sound solverD rhoD) with (fuel := 10%nat) (v := vB)
                                                 (x := var xB) (z := var zB).
  - intros [| [| u]]; simpl; lia.
  - intros [| [| [| [| u]]]] _; vm_compute; discriminate.
  - reflexivity.
  - reflexivity.
  - right. reflexivity.
  - reflexivity.
Defined.

Lemma push_omega_bisect_returns_witness :
  exists a b,
    omegaB = [] ++ [ule (var xB) (mk_val (bit_size solverB) a);
                    ule (var vB) (mk_val (bit_size solverB) b)] /\
    0 <= a <= 15 /\ 0 <= b <= 15 /\ a * b < bound solverB.
Proof.
  apply (push_omega_bisect_returns 10 solverB [] (var xB) 15 (var vB) 15).
  - reflexivity.
  - intros x_val H. vm_compute in H. injection H as <-. lia.
  - intros y_val H. vm_compute in H. injection H as <-. lia.
  - reflexivity.
Defined.

Lemma bisection_stuck_at_width_one_witness :
  (forall fuel y_hi,
      while fuel Bisect.x_cond (Bisect.x_body 16)
            (Bisect.mk_brackets 4 (4 + 1) 3 y_hi) = Diverge) /\
  (forall fuel x_hi,
      while fuel Bisect.y_cond (Bisect.y_body 16)
            (Bisect.mk_brackets 4 x_hi 3 (3 + 1)) = Diverge) /\
  (forall fuel dx dy,
      0 <= dx <= 1 -> 0 <= dy <= 1 -> 0 < dx + dy ->
      Bisect.bisect fuel 16 4 (4 + dx) 3 (3 + dy) = Diverge).
Proof. apply (bisection_stuck_at_width_one 16 4 3). lia. Defined.

Lemma perform_success_shape_witness :
  exists c d lemma premises,
    In c (inequalities coreB) /\ In d (inequalities coreB) /\
    some_crit_false solverB c d = true /\
    candidate_false solverB lemma = true /\
    core_lits
      (after coreB (propagate_ops solverB ineq_le_yB ineq_yx_l_zxB lemmaB
                      ([le_yB; yx_l_zxB] ++ omegaB)))
    = core_lits coreB /\
    core_ops
      (after coreB (propagate_ops solverB ineq_le_yB ineq_yx_l_zxB lemmaB
                      ([le_yB; yx_l_zxB] ++ omegaB)))
    = core_ops coreB
      ++ [Keep (as_signed_constraint c); Keep (as_signed_constraint d);
          if is_l_false (bvalue solverB lemma) then Insert (negate lemma)
          else SetLit lemma]
      ++ map Insert premises.
Proof.
  apply (perform_success_shape 10 solverB vB coreB). reflexivity.
Defined.

Lemma perform_needs_assigned_variable_witness :
  perform 10 solver_unassigned vB coreB = Ok (false, coreB) /\
  false = false /\ coreB = coreB.
Proof.
  split; [reflexivity |].
  apply (perform_needs_assigned_variable 10 solver_unassigned vB coreB coreB);
    reflexivity.
Defined.

Lemma try_ugt_x_eliminates_variable_witness :
  exists y z premises,
    degree (lhs ineqC) vC = 1%nat /\ degree (rhs ineqC) vC = 1%nat /\
    degree y vC = O /\ degree z vC = O /\
    coreC_after
    = after coreC
        (propagate_ops solverC ineqC ineqC (ineq (is_strict ineqC) y z)
                       premises).
Proof.
  apply (try_ugt_x_eliminates_variable 10 solverC vC coreC coreC_after ineqC).
  reflexivity.
Defined.

Lemma push_omega_premises_suffice_witness :
  exists omega,
    omegaB = [] ++ omega /\
    (Forall (fun l => holds (bit_size solverB) rhoD l = true) omega ->
     eval (bit_size solverB) rhoD (var xB)
     * eval (bit_size solverB) rhoD (var vB) < bound solverB).
Proof.
  apply (push_omega_premises_suffice solverB rhoD) with (fuel := 10%nat).
  - intros u. simpl. lia.
  - intros [| [| [| [| u]]]] _; vm_compute; discriminate.
  - reflexivity.
  - reflexivity.
Defined.

Lemma try_ugt_x_sound_witness :
  try_ugt_x 10 solverF vB coreF ineqF
  = Ok (true, after coreF (propagate_ops solverF ineqF ineqF lemmaF premisesF))
  /\
  ineq_holds 4 rhoF ineqF = true /\
  forallb (holds 4 rhoF) premisesF = true /\
  holds 4 rhoF lemmaF = true /\
  exists lemma premises,
    after coreF (propagate_ops solverF ineqF ineqF lemmaF premisesF)
    = after coreF (propagate_ops solverF ineqF ineqF lemma premises) /\
    (ineq_holds 4 rhoF ineqF = true ->
     Forall (fun l => holds 4 rhoF l = true) premises ->
     holds 4 rhoF lemma = true).
Proof.
  split; [reflexivity |].
  split; [reflexivity | split; [reflexivity | split; [reflexivity |]]].
  apply (try_ugt_x_sound solverF rhoF) with (fuel := 10%nat) (v := vB).
  - intros [| [| u]]; simpl; lia.
  - intros [| [| [| [| u]]]] _; vm_compute; discriminate.
  - reflexivity.
Defined.

Lemma try_ugt_z_with_sound_witness :
  forallb (holds 4 rhoE) ([v_l_yE; yx_l_vxB] ++ omegaBz) = true /\
  holds 4 rhoE lemmaE = true /\
  exists lemma omega,
    after coreE
      (propagate_ops solverE ineq_v_l_yE ineq_yx_l_vxE lemmaE
         ([v_l_yE; yx_l_vxB] ++ omegaBz))
    = after coreE
        (propagate_ops solverE ineq_v_l_yE ineq_yx_l_vxE lemma
           ([as_signed_constraint ineq_v_l_yE;
             as_signed_constraint ineq_yx_l_vxE] ++ omega)) /\
    (ineq_holds 4 rhoE ineq_v_l_yE = true ->
     ineq_holds 4 rhoE ineq_yx_l_vxE = true ->
     Forall (fun l => holds 4 rhoE l = true) omega ->
     holds 4 rhoE lemma = true).
Proof.
  split; [reflexivity | split; [reflexivity |]].
  apply (try_ugt_z_with_sound solverE rhoE) with (fuel := 10%nat) (v := vB)
                                                 (x := var xB) (y := var zB).
  - intros [| [| [| u]]]; simpl; lia.
  - intros [| [| [| [| u]]]] _; vm_compute; discriminate.
  - reflexivity.
  - reflexivity.
  - right. reflexivity.
  - reflexivity.
Defined.

Lemma try_y_l_ax_and_x_l_z_with_sound_witness :
  forallb (holds 4 rhoE) ([v_l_yE; y_l_avB] ++ omegaBz) = true /\
  holds 4 rhoE lemmaEa = true /\
  exists lemma omega,
    after coreEa
      (propagate_ops solverE ineq_v_l_yE ineq_y_l_avE lemmaEa
         ([v_l_yE; y_l_avB] ++ omegaBz))
    = after coreEa
        (propagate_ops solverE ineq_v_l_yE ineq_y_l_avE lemma
           ([as_signed_constraint ineq_v_l_yE;
             as_signed_constraint ineq_y_l_avE] ++ omega)) /\
    (ineq_holds 4 rhoE ineq_v_l_yE = true ->
     ineq_holds 4 rhoE ineq_y_l_avE = true ->
     Forall (fun l => holds 4 rhoE l = true) omega ->
     holds 4 rhoE lemma = true).
Proof.
  split; [reflexivity | split; [reflexivity |]].
  apply (try_y_l_ax_and_x_l_z_with_sound solverE rhoE)
    with (fuel := 10%nat) (v := vB) (a := var xB) (y := var zB).
  - intros [| [| [| u]]]; simpl; lia.
  - intros [| [| [| [| u]]]] _; vm_compute; discriminate.
  - reflexivity.
  - reflexivity.
  - right. reflexivity.
  - reflexivity.
Defined.

Lemma matches_pass_verification_witness :
  is_Xy_l_XZ vB ineq_yx_l_zxB = Some (var xB, var zB) /\
  verify_Xy_l_XZ solverB vB ineq_yx_l_zxB (var xB) (var zB) = true.
Proof.
  split; [reflexivity |].
  apply (proj1 (matches_pass_verification solverB vB ineq_yx_l_zxB
                                          eq_refl eq_refl)).
  reflexivity.
Defined.

Lemma perform_sound_witness :
  exists c d lemma premises,
    In c (inequalities coreD) /\ In d (inequalities coreD) /\
    after coreD
      (propagate_ops solverD ineq_le_yD ineq_yx_l_zxB lemmaD
         ([le_yD; yx_l_zxB] ++ omegaB))
    = after coreD (propagate_ops solverD c d lemma premises) /\
    (ineq_holds (bit_size solverD) rhoD c = true ->
     ineq_holds (bit_size solverD) rhoD d = true ->
     Forall (fun l => holds (bit_size solverD) rhoD l = true) premises ->
     holds (bit_size solverD) rhoD lemma = true).
Proof.
  apply (perform_sound solverD rhoD) with (fuel := 10%nat) (v := vB).
  - intros [| [| u]]; simpl; lia.
  - intros [| [| [| [| u]]]] _; vm_compute; discriminate.
  - intros c d [<- | [<- | []]] [<- | [<- | []]]; reflexivity.
  - reflexivity.
Defined.
